(** * Buscador JSON / Hydra sources search engine: a shallow embedding

    The development embeds the pure core of the richer product variant:
    text normalisation ([lib/utils]), the bounded LRU cache
    ([lib/lru-cache]), the synonym table and its expansion, the scoring and
    ranking pass of [filterResults], cross-catalog de-duplication, the two
    size parsers, the URL source loader and the catalog store.

    JavaScript strings are sequences of UTF-16 code units, modelled as
    [list N].  Operations that the language defines on code points
    (case conversion, normalisation, [u]-flag regular expressions) decode
    surrogate pairs first, exactly as the language does; everything else
    ([includes], [startsWith], [length], non-[u] regular expressions) works
    on code units. *)

From Stdlib Require Import ZArith NArith QArith Qround Bool Lia String Ascii.
From Stdlib Require Import Permutation Sorted.
From stdpp Require Import base option list gmap strings.


(* ===================================================================== *)
(** * Part I: definitions                                                 *)
(* ===================================================================== *)

(** ** JavaScript strings *)

Module Js.
Local Open Scope N_scope.

Definition jsstring := list N.

Definition is_high (u : N) : bool := (0xD800 <=? u) && (u <=? 0xDBFF).
Definition is_low (u : N) : bool := (0xDC00 <=? u) && (u <=? 0xDFFF).
Definition is_surrogate (u : N) : bool := (0xD800 <=? u) && (u <=? 0xDFFF).

Definition pair_cp (h l : N) : N := 0x10000 + (h - 0xD800) * 0x400 + (l - 0xDC00).

(** The code points of a string: a high surrogate directly followed by a
    low surrogate is one code point, any other unit (an unpaired surrogate
    included) is a code point of its own. *)
Fixpoint code_points (s : jsstring) : list N :=
  match s with
  | [] => []
  | h :: t =>
      match t with
      | l :: t' =>
          if is_high h && is_low l then pair_cp h l :: code_points t'
          else h :: code_points t
      | [] => [h]
      end
  end.

Definition encode_cp (c : N) : list N :=
  if c <? 0x10000 then [c]
  else [0xD800 + (c - 0x10000) / 0x400; 0xDC00 + (c - 0x10000) mod 0x400].

Definition of_code_points (cs : list N) : jsstring := flat_map encode_cp cs.

(** Unicode scalar values: the code points that are not surrogates. *)
Definition is_scalar (c : N) : bool := (c <? 0x110000) && negb (is_surrogate c).

(** A string is well formed when its elements are 16-bit units and none of
    them is an unpaired surrogate. *)
Definition well_formed (s : jsstring) : bool :=
  forallb (fun u => u <? 0x10000) s && forallb is_scalar (code_points s).

(** [s.length] *)
Definition jslength (s : jsstring) : N := N.of_nat (length s).

(** String literals of the source are written as Rocq strings (UTF-8) and
    decoded to code units. *)
Fixpoint utf8_code_points (bs : list N) : list N :=
  match bs with
  | [] => []
  | b0 :: r0 =>
      if b0 <? 0x80 then b0 :: utf8_code_points r0
      else match r0 with
      | [] => [b0]
      | b1 :: r1 =>
          if b0 <? 0xE0 then
            ((b0 - 0xC0) * 0x40 + (b1 - 0x80)) :: utf8_code_points r1
          else match r1 with
          | [] => [b0]
          | b2 :: r2 =>
              if b0 <? 0xF0 then
                ((b0 - 0xE0) * 0x1000 + (b1 - 0x80) * 0x40 + (b2 - 0x80))
                  :: utf8_code_points r2
              else match r2 with
              | [] => [b0]
              | b3 :: r3 =>
                  ((b0 - 0xF0) * 0x40000 + (b1 - 0x80) * 0x1000
                   + (b2 - 0x80) * 0x40 + (b3 - 0x80)) :: utf8_code_points r3
              end
          end
      end
  end.

Definition js (s : string) : jsstring :=
  of_code_points
    (utf8_code_points (map (fun a => N_of_ascii a) (list_ascii_of_string s))).

(** White space as matched by [\s] and removed by [trim]: the WhiteSpace
    and LineTerminator productions of the language. *)
Definition is_space (u : N) : bool :=
  ((0x09 <=? u) && (u <=? 0x0D)) || (u =? 0x20) || (u =? 0xA0) || (u =? 0x1680)
  || ((0x2000 <=? u) && (u <=? 0x200A)) || (u =? 0x2028) || (u =? 0x2029)
  || (u =? 0x202F) || (u =? 0x205F) || (u =? 0x3000) || (u =? 0xFEFF).

Definition SP : N := 0x20.

(** [s.replace(/[p]+/g, sub)]: every maximal run of units satisfying [p]
    becomes one copy of [sub]; [in_run] records that the previous unit was
    part of the current run. *)
Fixpoint replace_runs (p : N -> bool) (sub : list N) (in_run : bool)
    (s : list N) : list N :=
  match s with
  | [] => []
  | c :: r =>
      if p c then (if in_run then [] else sub) ++ replace_runs p sub true r
      else c :: replace_runs p sub false r
  end.

Fixpoint trim_start (s : list N) : list N :=
  match s with
  | [] => []
  | c :: r => if is_space c then trim_start r else s
  end.

Fixpoint trim_end (s : list N) : list N :=
  match s with
  | [] => []
  | c :: r =>
      match trim_end r with
      | [] => if is_space c then [] else [c]
      | r' => c :: r'
      end
  end.

(** [s.trim()] *)
Definition trim (s : jsstring) : jsstring := trim_end (trim_start s).

(** [s.startsWith(p)] *)
Fixpoint startsWith (s p : list N) : bool :=
  match p, s with
  | [], _ => true
  | _ :: _, [] => false
  | a :: p', b :: s' => (a =? b) && startsWith s' p'
  end.

(** [s.includes(p)] *)
Fixpoint includes (s p : list N) : bool :=
  match s with
  | [] => match p with [] => true | _ => false end
  | _ :: r => startsWith s p || includes r p
  end.

Definition eqb (a b : jsstring) : bool := bool_decide (a = b).

(** A predicate on units that no surrogate and no supplementary code point
    satisfies reads the same on code units and on code points. *)
Definition bmp_pred (p : N -> bool) : Prop :=
  (forall u, is_surrogate u = true -> p u = false)
  /\ (forall c, 0x10000 <= c -> p c = false).

(** White space occurs only as single [U+0020] between other units. *)
Fixpoint tidy (l : list N) : Prop :=
  match l with
  | [] => True
  | c :: r =>
      (is_space c = true ->
       c = SP /\ match r with d :: _ => is_space d = false | [] => True end)
      /\ tidy r
  end.

(** Truthiness of a string value: only the empty string is falsy. *)
Definition truthy (s : jsstring) : bool :=
  match s with [] => false | _ => true end.

(** [s.split(/\s+/)] and [s.split(" ")] followed by
    [.filter(w => w.length > 0)]: the maximal runs of units that do not
    satisfy [sep]. *)
Fixpoint fields (sep : N -> bool) (cur : list N) (s : list N) : list (list N) :=
  match s with
  | [] => match cur with [] => [] | _ => [rev cur] end
  | c :: r =>
      if sep c then
        match cur with [] => fields sep [] r | _ => rev cur :: fields sep [] r end
      else fields sep (c :: cur) r
  end.

Definition words_ws (s : jsstring) : list jsstring := fields is_space [] s.
Definition words_sp (s : jsstring) : list jsstring := fields (fun c => c =? SP) [] s.

End Js.

Export Js.

(** ** The Unicode data the runtime consults *)

Module Unicode.
Local Open Scope N_scope.

(** The character database is part of the JavaScript runtime, not of the
    repository: the engine is defined over any database [ucd]. *)
Record ucd := {
  lower_map : N -> list N;        (* full lower-case mapping of a code point *)
  upper_simple : N -> N;          (* simple upper-case mapping *)
  decomposition : N -> list N;    (* full canonical decomposition *)
  ccc : N -> N;                   (* canonical combining class *)
  is_letter : N -> bool;          (* general category L *)
  is_number : N -> bool;          (* general category N *)
  is_cased : N -> bool;
  is_case_ignorable : N -> bool
}.

Section WithUcd.
Variable U : ucd.

Definition SIGMA : N := 0x3A3.
Definition small_sigma : N := 0x3C3.
Definition final_sigma : N := 0x3C2.

(** Final_Sigma context: a cased letter, then case-ignorable characters,
    lie on the side described by the list. *)
Fixpoint cased_then_ignorable (l : list N) : bool :=
  match l with
  | [] => false
  | c :: r => is_cased U c || (is_case_ignorable U c && cased_then_ignorable r)
  end.

(** [before] is the already converted prefix, nearest code point first. *)
Fixpoint lower_cps (before l : list N) : list N :=
  match l with
  | [] => []
  | c :: r =>
      (if c =? SIGMA then
         if cased_then_ignorable before && negb (cased_then_ignorable r)
         then [final_sigma] else [small_sigma]
       else lower_map U c) ++ lower_cps (c :: before) r
  end.

(** [s.toLowerCase()] *)
Definition toLowerCase (s : jsstring) : jsstring :=
  of_code_points (lower_cps [] (code_points s)).

(** Canonical ordering: a character with a non-zero combining class moves
    left past the characters of larger class that precede it.  [l] is the
    ordered prefix, nearest code point first. *)
Fixpoint canonical_insert (c : N) (l : list N) : list N :=
  match l with
  | [] => [c]
  | d :: r =>
      if negb (ccc U c =? 0) && (ccc U c <? ccc U d)
      then d :: canonical_insert c r else c :: l
  end.

Definition canonical_order (l : list N) : list N :=
  rev (fold_left (fun acc c => canonical_insert c acc) l []).

(** [s.normalize("NFD")] *)
Definition nfd (s : jsstring) : jsstring :=
  of_code_points (canonical_order (flat_map (decomposition U) (code_points s))).

End WithUcd.

(** Facts of the Unicode Character Database that text normalisation relies
    on.  Each one is a property of the published tables: case mappings and
    decompositions stay within scalar values, lower-case mappings and full
    decompositions are closed, decomposing a character without lower-case
    mapping yields letters without lower-case mapping, letters and numbers
    are starters, and the space is left alone. *)
Record ucd_laws (U : ucd) : Prop := {
  lower_scalar :
    forall c d, is_scalar c = true -> In d (lower_map U c) -> is_scalar d = true;
  decomposition_scalar :
    forall c d, is_scalar c = true -> In d (decomposition U c) -> is_scalar d = true;
  lower_closed :
    forall c d, In d (lower_map U c) -> lower_map U d = [d] /\ d <> SIGMA;
  sigma_lower :
    lower_map U small_sigma = [small_sigma] /\ lower_map U final_sigma = [final_sigma];
  decomposition_full :
    forall c d, In d (decomposition U c) -> decomposition U d = [d];
  decomposition_lower :
    forall c d, lower_map U c = [c] -> c <> SIGMA -> In d (decomposition U c) ->
      (is_letter U d || is_number U d) = true -> lower_map U d = [d] /\ d <> SIGMA;
  word_starter :
    forall c, (is_letter U c || is_number U c) = true -> ccc U c = 0;
  space_inert :
    lower_map U 0x20 = [0x20] /\ decomposition U 0x20 = [0x20] /\ ccc U 0x20 = 0
}.

End Unicode.

Export Unicode.

(** ** [lib/utils]: text normalisation *)

Module Utils.
Local Open Scope N_scope.

Section WithUcd.
Variable U : ucd.

Definition is_combining_mark (u : N) : bool := (0x300 <=? u) && (u <=? 0x36F).
Definition is_dash (u : N) : bool := (u =? 0x5F) || (u =? 0x2D).
Definition is_word_char (c : N) : bool :=
  is_letter U c || is_number U c || is_space c.

(** [.replace(/[\u0300-\u036f]/g, "")], on code units *)
Definition strip_marks (s : jsstring) : jsstring :=
  List.filter (fun u => negb (is_combining_mark u)) s.

(** [.replace(/[_-]+/g, " ")], on code units *)
Definition dashes_to_space (s : jsstring) : jsstring :=
  replace_runs is_dash [SP] false s.

(** [.replace(/[^\p{L}\p{N}\s]+/gu, "")], on code points *)
Definition remove_symbols (s : jsstring) : jsstring :=
  of_code_points (List.filter is_word_char (code_points s)).

(** [.replace(/\s+/g, " ")], on code units *)
Definition collapse_spaces (s : jsstring) : jsstring :=
  replace_runs is_space [SP] false s.

(** The pipeline of [normalizeText] read on code points; the two agree on
    well-formed strings. *)
Definition normalize_cps (cs : list N) : list N :=
  trim (replace_runs is_space [SP] false
    (List.filter is_word_char
      (replace_runs is_dash [SP] false
        (List.filter (fun c => negb (is_combining_mark c))
          (canonical_order U
            (flat_map (decomposition U) (lower_cps U [] cs))))))).

(** [normalizeText(text?: string)]: [None] is an absent argument. *)
Definition normalizeText (text : option jsstring) : jsstring :=
  match text with
  | None => []
  | Some [] => []
  | Some s =>
      trim (collapse_spaces (remove_symbols (dashes_to_space
        (strip_marks (nfd U (toLowerCase U s))))))
  end.

End WithUcd.
End Utils.

(** ** An excerpt of the Unicode Character Database

    The excerpt is faithful on Basic Latin, Latin-1 Supplement, Combining
    Diacritical Marks, the basic Greek and Cyrillic alphabets
    (U+0391-03A9, U+03B1-03C9, U+0400-045F) and Deseret (U+10400-1044F);
    every other code point is treated as an unclassified symbol without
    mappings.  It is used to run the engine on concrete strings. *)

Module Excerpt.
Local Open Scope N_scope.

Definition in_range (lo hi c : N) : bool := (lo <=? c) && (c <=? hi).

Definition lower_map (c : N) : list N :=
  if in_range 0x41 0x5A c || in_range 0xC0 0xD6 c || in_range 0xD8 0xDE c
     || in_range 0x391 0x3A1 c || in_range 0x3A3 0x3A9 c || in_range 0x410 0x42F c
  then [c + 32]
  else if in_range 0x400 0x40F c then [c + 80]
  else if in_range 0x10400 0x10427 c then [c + 40]
  else [c].

Definition upper_simple (c : N) : N :=
  if in_range 0x61 0x7A c || in_range 0xE0 0xF6 c || in_range 0xF8 0xFE c
     || in_range 0x3B1 0x3C1 c || in_range 0x3C3 0x3C9 c || in_range 0x430 0x44F c
  then c - 32
  else if c =? 0xB5 then 0x39C
  else if c =? 0xFF then 0x178
  else if c =? 0x345 then 0x399
  else if c =? 0x3C2 then 0x3A3
  else if in_range 0x450 0x45F c then c - 80
  else if in_range 0x10428 0x1044F c then c - 40
  else c.

Definition decomposition_table : list (N * list N) :=
  [ (0xC0, [0x41; 0x300]); (0xC1, [0x41; 0x301]); (0xC2, [0x41; 0x302]);
    (0xC3, [0x41; 0x303]); (0xC4, [0x41; 0x308]); (0xC5, [0x41; 0x30A]);
    (0xC7, [0x43; 0x327]); (0xC8, [0x45; 0x300]); (0xC9, [0x45; 0x301]);
    (0xCA, [0x45; 0x302]); (0xCB, [0x45; 0x308]); (0xCC, [0x49; 0x300]);
    (0xCD, [0x49; 0x301]); (0xCE, [0x49; 0x302]); (0xCF, [0x49; 0x308]);
    (0xD1, [0x4E; 0x303]); (0xD2, [0x4F; 0x300]); (0xD3, [0x4F; 0x301]);
    (0xD4, [0x4F; 0x302]); (0xD5, [0x4F; 0x303]); (0xD6, [0x4F; 0x308]);
    (0xD9, [0x55; 0x300]); (0xDA, [0x55; 0x301]); (0xDB, [0x55; 0x302]);
    (0xDC, [0x55; 0x308]); (0xDD, [0x59; 0x301]); (0xE0, [0x61; 0x300]);
    (0xE1, [0x61; 0x301]); (0xE2, [0x61; 0x302]); (0xE3, [0x61; 0x303]);
    (0xE4, [0x61; 0x308]); (0xE5, [0x61; 0x30A]); (0xE7, [0x63; 0x327]);
    (0xE8, [0x65; 0x300]); (0xE9, [0x65; 0x301]); (0xEA, [0x65; 0x302]);
    (0xEB, [0x65; 0x308]); (0xEC, [0x69; 0x300]); (0xED, [0x69; 0x301]);
    (0xEE, [0x69; 0x302]); (0xEF, [0x69; 0x308]); (0xF1, [0x6E; 0x303]);
    (0xF2, [0x6F; 0x300]); (0xF3, [0x6F; 0x301]); (0xF4, [0x6F; 0x302]);
    (0xF5, [0x6F; 0x303]); (0xF6, [0x6F; 0x308]); (0xF9, [0x75; 0x300]);
    (0xFA, [0x75; 0x301]); (0xFB, [0x75; 0x302]); (0xFC, [0x75; 0x308]);
    (0xFD, [0x79; 0x301]); (0xFF, [0x79; 0x308]); (0x340, [0x300]);
    (0x341, [0x301]); (0x343, [0x313]); (0x344, [0x308; 0x301]);
    (0x400, [0x415; 0x300]); (0x401, [0x415; 0x308]); (0x403, [0x413; 0x301]);
    (0x407, [0x406; 0x308]); (0x40C, [0x41A; 0x301]); (0x40D, [0x418; 0x300]);
    (0x40E, [0x423; 0x306]); (0x419, [0x418; 0x306]); (0x439, [0x438; 0x306]);
    (0x450, [0x435; 0x300]); (0x451, [0x435; 0x308]); (0x453, [0x433; 0x301]);
    (0x457, [0x456; 0x308]); (0x45C, [0x43A; 0x301]); (0x45D, [0x438; 0x300]);
    (0x45E, [0x443; 0x306]) ].

Fixpoint assoc (c : N) (t : list (N * list N)) : option (list N) :=
  match t with
  | [] => None
  | (k, v) :: r => if k =? c then Some v else assoc c r
  end.

Definition decomposition (c : N) : list N :=
  if c <? 0x460 then
    match assoc c decomposition_table with Some d => d | None => [c] end
  else [c].

Definition ccc_table : list (N * N * N) :=
  [ (0x300, 0x314, 230); (0x315, 0x315, 232); (0x316, 0x319, 220);
    (0x31A, 0x31A, 232); (0x31B, 0x31B, 216); (0x31C, 0x320, 220);
    (0x321, 0x322, 202); (0x323, 0x326, 220); (0x327, 0x328, 202);
    (0x329, 0x333, 220); (0x334, 0x338, 1); (0x339, 0x33C, 220);
    (0x33D, 0x344, 230); (0x345, 0x345, 240); (0x346, 0x346, 230);
    (0x347, 0x349, 220); (0x34A, 0x34C, 230); (0x34D, 0x34E, 220);
    (0x350, 0x352, 230); (0x353, 0x356, 220); (0x357, 0x357, 230);
    (0x358, 0x358, 232); (0x359, 0x35A, 220); (0x35B, 0x35B, 230);
    (0x35C, 0x35C, 233); (0x35D, 0x35E, 234); (0x35F, 0x35F, 233);
    (0x360, 0x361, 234); (0x362, 0x362, 233); (0x363, 0x36F, 230) ].

Fixpoint range_lookup (c : N) (t : list (N * N * N)) : N :=
  match t with
  | [] => 0
  | (lo, hi, v) :: r => if in_range lo hi c then v else range_lookup c r
  end.

Definition ccc (c : N) : N :=
  if in_range 0x300 0x36F c then range_lookup c ccc_table else 0.

Definition is_letter (c : N) : bool :=
  in_range 0x41 0x5A c || in_range 0x61 0x7A c || (c =? 0xAA) || (c =? 0xB5)
  || (c =? 0xBA) || in_range 0xC0 0xD6 c || in_range 0xD8 0xF6 c
  || in_range 0xF8 0xFF c || in_range 0x391 0x3A1 c || in_range 0x3A3 0x3A9 c
  || in_range 0x3B1 0x3C9 c || in_range 0x400 0x45F c
  || in_range 0x10400 0x1044F c.

Definition is_number (c : N) : bool :=
  in_range 0x30 0x39 c || in_range 0xB2 0xB3 c || (c =? 0xB9)
  || in_range 0xBC 0xBE c.

Definition is_cased (c : N) : bool :=
  in_range 0x41 0x5A c || in_range 0x61 0x7A c || (c =? 0xAA) || (c =? 0xB5)
  || (c =? 0xBA) || in_range 0xC0 0xD6 c || in_range 0xD8 0xF6 c
  || in_range 0xF8 0xFF c || (c =? 0x345) || in_range 0x391 0x3A1 c
  || in_range 0x3A3 0x3A9 c || in_range 0x3B1 0x3C9 c || in_range 0x400 0x45F c
  || in_range 0x10400 0x1044F c.

Definition is_case_ignorable (c : N) : bool :=
  (c =? 0x27) || (c =? 0x2E) || (c =? 0x3A) || (c =? 0x5E) || (c =? 0x60)
  || (c =? 0xA8) || (c =? 0xAD) || (c =? 0xAF) || (c =? 0xB4)
  || in_range 0xB7 0xB8 c || in_range 0x300 0x36F c.

(** Checks used to establish the database laws for the excerpt by
    enumeration of its code points. *)
Fixpoint all_from (p : N -> bool) (n : nat) (c : N) : bool :=
  match n with
  | O => true
  | S k => p c && all_from p k (N.succ c)
  end.

Definition single (l : list N) (d : N) : bool :=
  match l with [e] => e =? d | _ => false end.

Definition fixed_lower (d : N) : bool :=
  single (lower_map d) d && negb (d =? SIGMA).

Definition law_check (c : N) : bool :=
  implb (is_scalar c)
    (forallb is_scalar (lower_map c) && forallb is_scalar (decomposition c))
  && forallb fixed_lower (lower_map c)
  && forallb (fun d => single (decomposition d) d) (decomposition c)
  && implb (fixed_lower c)
       (forallb (fun d => implb (is_letter d || is_number d) (fixed_lower d))
          (decomposition c))
  && implb (is_letter c || is_number c) (ccc c =? 0).

Definition bound : N := 0x10450.

Definition db : ucd :=
  {| Unicode.lower_map := lower_map;
     Unicode.upper_simple := upper_simple;
     Unicode.decomposition := decomposition;
     Unicode.ccc := ccc;
     Unicode.is_letter := is_letter;
     Unicode.is_number := is_number;
     Unicode.is_cased := is_cased;
     Unicode.is_case_ignorable := is_case_ignorable |}.

End Excerpt.


(** ** [lib/lru-cache]: the bounded LRU cache *)

Module LruCache.

(** [maxSize] is a JavaScript number: a finite one (every double is a
    rational, and the comparisons made with it are exact), [NaN] or an
    infinity. *)
Inductive number := NaN | NegInf | PosInf | Finite (q : Q).

(** [n <= 0] *)
Definition le_zero (n : number) : bool :=
  match n with
  | Finite q => Qle_bool q 0
  | NegInf => true
  | NaN | PosInf => false
  end.

(** [s >= n] for the number of entries [s] *)
Definition reached (s : nat) (n : number) : bool :=
  match n with
  | Finite q => Qle_bool q (inject_Z (Z.of_nat s))
  | NegInf => true
  | NaN | PosInf => false
  end.

(** [Map] compares keys with SameValueZero, the access order is filtered
    with [!==].  A key type stands for the key values up to SameValueZero;
    the two comparisons differ on one of them, the number [NaN], which is
    the same key as itself for [Map] and [!==] to every value, itself
    included. *)
Class Key (K : Type) := isNaN : K -> bool.
#[global] Hint Mode Key ! : typeclass_instances.

(** Strings, the keys of the engine. *)
#[global] Instance string_key : Key (list N) := fun _ => false.

(** Number keys: [NaN] or a whole number. *)
Inductive numkey := KNaN | KInt (z : Z).

#[global] Instance numkey_eq_dec : EqDecision numkey.
Proof. solve_decision. Defined.

#[global] Instance numkey_countable : Countable numkey :=
  inj_countable'
    (fun k => match k with KNaN => None | KInt z => Some z end)
    (fun o => match o with None => KNaN | Some z => KInt z end)
    (fun k => match k with KNaN => eq_refl | KInt _ => eq_refl end).

#[global] Instance numkey_key : Key numkey :=
  fun k => match k with KNaN => true | KInt _ => false end.

Section Cache.
(** A stored value of type [option V] is either a proper value or
    [undefined] ([None]).  The calls to the eviction callback are recorded
    in the order they are made; the callback is taken to return without
    calling the cache itself. *)
Context {K : Type} `{Countable K} `{!Key K} {V : Type}.

Record t := mk {
  cache : gmap K (option V);      (* this.cache *)
  maxSize : number;               (* this.maxSize *)
  onEvict : bool;                 (* was an eviction callback supplied? *)
  accessOrder : list K;           (* this.accessOrder *)
  calls : list (K * V)            (* the calls made to onEvict, oldest first *)
}.

(** [new LRUCache(maxSize, onEvict)]; [None] when the constructor throws. *)
Definition new (maxSize : number) (onEvict : bool) : option t :=
  if le_zero maxSize then None
  else Some (mk ∅ maxSize onEvict [] []).

Definition has (c : t) (key : K) : bool :=
  bool_decide (is_Some (cache c !! key)).

(** [this.cache.get(key)]: [undefined] for a missing key. *)
Definition map_get (m : gmap K (option V)) (key : K) : option V :=
  match m !! key with Some v => v | None => None end.

Definition size (c : t) : nat := base.size (cache c).

(** [k !== key] *)
Definition strict_ne (k key : K) : bool := isNaN k || bool_decide (k ≠ key).

Definition updateAccessOrder (c : t) (key : K) : t :=
  mk (cache c) (maxSize c) (onEvict c)
     (filter (λ k, strict_ne k key) (accessOrder c) ++ [key]) (calls c).

Definition get (c : t) (key : K) : t * option V :=
  if has c key
  then let c' := updateAccessOrder c key in (c', map_get (cache c') key)
  else (c, None).

(** The eviction step of [set]: taken when the store is full and the
    access order is not empty. *)
Definition evict (c : t) : t :=
  if reached (size c) (maxSize c) then
    match accessOrder c with
    | lruKey :: rest =>
        let lruValue := map_get (cache c) lruKey in
        mk (delete lruKey (cache c)) (maxSize c) (onEvict c) rest
           (match lruValue with
            | Some x => if onEvict c then calls c ++ [(lruKey, x)] else calls c
            | None => calls c
            end)
    | [] => c
    end
  else c.

Definition set (c : t) (key : K) (value : option V) : t :=
  if has c key then
    updateAccessOrder
      (mk (<[key := value]> (cache c)) (maxSize c) (onEvict c)
          (accessOrder c) (calls c)) key
  else
    let c1 := evict c in
    mk (<[key := value]> (cache c1)) (maxSize c1) (onEvict c1)
       (accessOrder c1 ++ [key]) (calls c1).

(** Sequences of cache operations. *)
Inductive op := Set_ (key : K) (value : option V) | Get_ (key : K).

Definition step (c : t) (o : op) : t :=
  match o with
  | Set_ key value => set c key value
  | Get_ key => fst (get c key)
  end.

Definition run (c : t) (ops : list op) : t := fold_left step ops c.






End Cache.

Arguments t K {_ _} V.
Arguments op K V : clear implicits.

End LruCache.

(** ** JavaScript numbers

    Byte counts are doubles in the source.  They are idealised here as
    exact rationals with a separate [NaN]: rounding to the nearest double
    and overflow are not modelled.  Both size parsers perform the same
    sequence of floating-point operations up to the final [Math.round], so
    what is proved about their relation does not depend on it. *)

Module Num.

Inductive jsnum := NaN | Num (q : Q).

Definition mul (a b : jsnum) : jsnum :=
  match a, b with
  | Num p, Num q => Num (p * q)
  | _, _ => NaN
  end.

Definition of_Z (z : Z) : jsnum := Num (inject_Z z).

(** [Math.round]: the nearest integer, halves towards positive infinity. *)
Definition round (a : jsnum) : jsnum :=
  match a with
  | Num q => Num (inject_Z (Qfloor (q + (1 # 2))))
  | NaN => NaN
  end.

(** The same number. *)
Definition same (a b : jsnum) : Prop :=
  match a, b with
  | NaN, NaN => True
  | Num p, Num q => (p == q)%Q
  | _, _ => False
  end.

Local Open Scope N_scope.

Definition is_digit (c : N) : bool := (0x30 <=? c) && (c <=? 0x39).

Fixpoint take_digits (s : list N) : list N :=
  match s with
  | c :: r => if is_digit c then c :: take_digits r else []
  | [] => []
  end.

Fixpoint drop_digits (s : list N) : list N :=
  match s with
  | c :: r => if is_digit c then drop_digits r else s
  | [] => []
  end.

Definition decimal (ds : list N) : Z :=
  fold_left (fun acc d => (acc * 10 + Z.of_N (d - 0x30))%Z) ds 0%Z.

(** [Number.parseFloat] on a string of digits and dots: the longest prefix
    that is a decimal literal, [NaN] when there is none. *)
Definition parseFloat (s : jsstring) : jsnum :=
  let ip := take_digits s in
  match drop_digits s with
  | 0x2E :: r =>
      let fp := take_digits r in
      match ip, fp with
      | [], [] => NaN
      | _, _ =>
          Num (Qmake (decimal ip * 10 ^ Z.of_nat (length fp) + decimal fp)
                 (Z.to_pos (10 ^ Z.of_nat (length fp))))
      end
  | _ => match ip with [] => NaN | _ => of_Z (decimal ip) end
  end.

(** [s.match(/[\d.]+/)]: the first maximal run of digits and dots. *)
Definition is_digit_or_dot (c : N) : bool := is_digit c || (c =? 0x2E).

Fixpoint take_run (s : list N) : list N :=
  match s with
  | c :: r => if is_digit_or_dot c then c :: take_run r else []
  | [] => []
  end.

Fixpoint first_number_run (s : list N) : option (list N) :=
  match s with
  | [] => None
  | c :: r => if is_digit_or_dot c then Some (take_run s) else first_number_run r
  end.

End Num.

(** ** The synonym table and the search helpers that go with it *)

Module SearchSynonyms.

Definition SYNONYMS_MAP : list (jsstring * list jsstring) :=
  [
    (js "rpg", [js "role-playing"; js "roleplaying"; js "jrpg"; js "crpg"; js "action-rpg"]);
    (js "skyrim", [js "elder scrolls"; js "tes"; js "bethesda"; js "scrolls"]);
    (js "fallout", [js "vault"; js "bethesda"; js "power armor"; js "vault boy"]);
    (js "witcher", [js "geralt"; js "cdpr"; js "cd projekt"; js "monster hunter"]);
    (js "dragon", [js "dragonborn"; js "dragons"; js "dungeons"]);
    (js "elden", [js "ring"; js "fromsoft"; js "souls"]);
    (js "souls", [js "soulslike"; js "souls-like"; js "dark souls"; js "elden ring"]);
    (js "gta", [js "grand theft auto"; js "rockstar"; js "sandbox crime"]);
    (js "sandbox", [js "open world"; js "freeform"; js "exploration"]);
    (js "minecraft", [js "blocks"; js "crafting"; js "building"; js "voxel"]);
    (js "wow", [js "world of warcraft"; js "mmorpg"; js "blizzard"; js "warcraft"]);
    (js "game", [js "jogo"; js "gaming"; js "video game"]);
    (js "jogo", [js "game"; js "gaming"]);
    (js "fps", [js "first person"; js "shooter"; js "action"]);
    (js "rts", [js "strategy"; js "real-time"; js "command conquer"]);
    (js "simulation", [js "sim"; js "simulator"; js "simulated"]);
    (js "adventure", [js "explorer"; js "exploration"; js "quest"]);
    (js "action", [js "combat"; js "fighting"; js "battle"]);
    (js "puzzle", [js "logic"; js "brain teaser"; js "riddle"]);
    (js "horror", [js "terror"; js "scary"; js "survival horror"]);
    (js "survival", [js "survival horror"; js "crafting"; js "resource management"]);
    (js "platformer", [js "platform"; js "side-scroller"; js "jumping"]);
    (js "racing", [js "race"; js "car"; js "driving"; js "motorsport"]);
    (js "sports", [js "athletic"; js "competition"; js "esports"]);
    (js "fighting", [js "combat"; js "versus"; js "brawler"; js "fighter"]);
    (js "mod", [js "modification"; js "mods"; js "modding"; js "modificação"; js "modificacoes"]);
    (js "patch", [js "update"; js "fixes"; js "fixed"; js "hotfix"; js "correcao"]);
    (js "dlc", [js "expansion"; js "addon"; js "content"; js "pack"; js "season pass"]);
    (js "skin", [js "cosmetic"; js "outfit"; js "appearance"; js "texture pack"]);
    (js "shader", [js "graphics mod"; js "lighting"; js "visual enhancement"]);
    (js "texture", [js "textura"; js "textures"; js "texturas"; js "graphics"; js "visual"]);
    (js "armor", [js "equipment"; js "gear"; js "outfit"; js "suit"]);
    (js "weapon", [js "sword"; js "gun"; js "rifle"; js "tool"; js "item"]);
    (js "magic", [js "spell"; js "sorcery"; js "witchcraft"; js "enchantment"]);
    (js "quest", [js "mission"; js "objective"; js "task"; js "adventure"]);
    (js "fix", [js "fixed"; js "fixing"; js "repair"; js "repaired"; js "correcao"; js "corrigido"]);
    (js "tool", [js "utility"; js "utils"; js "utilities"; js "ferramenta"; js "toolkit"]);
    (js "install", [js "installer"; js "setup"; js "installation"; js "instalacao"]);
    (js "backup", [js "saved"; js "copy"; js "copies"; js "save data"; js "savedata"]);
    (js "save", [js "savedata"; js "savefile"; js "savegame"; js "checkpoint"]);
    (js "launcher", [js "loader"; js "boot"; js "executor"]);
    (js "manager", [js "organizer"; js "controller"; js "handler"]);
    (js "library", [js "collection"; js "database"; js "catalog"]);
    (js "nvidia", [js "geforce"; js "rtx"; js "gtx"; js "graphics card"; js "gpu"]);
    (js "amd", [js "radeon"; js "rx"; js "ryzen"; js "processor"]);
    (js "intel", [js "core"; js "processor"; js "cpu"; js "xeon"]);
    (js "cpu", [js "processor"; js "processador"; js "core"; js "intel"; js "amd"; js "ryzen"]);
    (js "gpu", [js "graphics"; js "video"; js "graphics card"; js "geforce"; js "radeon"]);
    (js "ram", [js "memory"; js "memoria"; js "ddr"]);
    (js "ssd", [js "solid state"; js "storage"; js "disk"]);
    (js "hdd", [js "hard drive"; js "disk"; js "mechanical"]);
    (js "hd", [js "high"; js "definition"; js "resolution"; js "1080p"; js "fullhd"]);
    (js "4k", [js "uhd"; js "ultra"; js "2160p"; js "8k"]);
    (js "1080p", [js "fullhd"; js "hd"; js "1920x1080"]);
    (js "720p", [js "hd ready"; js "720"]);
    (js "resolution", [js "quality"; js "definition"; js "graphics setting"]);
    (js "framerate", [js "frame rate"; js "performance"; js "60fps"; js "144fps"]);
    (js "ultra", [js "maximum"; js "high"; js "quality"; js "4k"]);
    (js "high", [js "quality"; js "settings"; js "ultra"; js "graphics"]);
    (js "low", [js "minimum"; js "settings"; js "performance"; js "lightweight"]);
    (js "sound", [js "audio"; js "som"; js "sound effects"; js "sfx"]);
    (js "music", [js "soundtrack"; js "musica"; js "ost"; js "score"; js "background music"]);
    (js "voice", [js "dialogue"; js "voicepack"; js "voice acting"]);
    (js "subtitle", [js "subtitles"; js "subs"; js "closed caption"]);
    (js "audio", [js "sound"; js "music"; js "voice"; js "sonoro"]);
    (js "video", [js "movie"; js "trailer"; js "cutscene"; js "cinema"]);
    (js "pt", [js "portuguese"; js "portugues"; js "brasil"; js "br"; js "português"]);
    (js "en", [js "english"; js "ingles"; js "us"; js "uk"; js "american"; js "british"]);
    (js "es", [js "spanish"; js "espanol"; js "espanha"; js "español"]);
    (js "fr", [js "french"; js "frances"; js "francais"]);
    (js "de", [js "german"; js "deutsch"; js "alemao"]);
    (js "ru", [js "russian"; js "russo"; js "cyrillic"]);
    (js "ja", [js "japanese"; js "japones"; js "nihongo"]);
    (js "ch", [js "chinese"; js "mandarin"; js "cantonese"]);
    (js "ko", [js "korean"; js "korean language"]);
    (js "br", [js "brazilian"; js "brasil"; js "portuguese"]);
    (js "multilanguage", [js "multi-language"; js "multilingual"; js "localization"]);
    (js "pc", [js "windows"; js "steam"; js "pc gaming"]);
    (js "windows", [js "pc"; js "win"; js "microsoft"]);
    (js "linux", [js "ubuntu"; js "debian"; js "proton"]);
    (js "mac", [js "osx"; js "macos"; js "apple"]);
    (js "steam", [js "valve"; js "platform"; js "pc gaming"]);
    (js "epic", [js "epic games"; js "launcher"]);
    (js "gog", [js "good old games"; js "drm-free"]);
    (js "console", [js "playstation"; js "xbox"; js "nintendo"]);
    (js "playstation", [js "ps4"; js "ps5"; js "sony"]);
    (js "xbox", [js "x360"; js "xone"; js "microsoft"]);
    (js "switch", [js "nintendo switch"; js "portable"]);
    (js "bethesda", [js "skyrim"; js "fallout"; js "oblivion"]);
    (js "cdpr", [js "cd projekt"; js "witcher"; js "cyberpunk"]);
    (js "fromsoft", [js "elden ring"; js "dark souls"; js "bloodborne"]);
    (js "valve", [js "steam"; js "half-life"; js "portal"]);
    (js "blizzard", [js "wow"; js "diablo"; js "starcraft"]);
    (js "rockstar", [js "gta"; js "red dead"; js "max payne"]);
    (js "ubisoft", [js "assassins creed"; js "far cry"; js "splinter cell"]);
    (js "activision", [js "call of duty"; js "world of warcraft"]);
    (js "ea", [js "battlefield"; js "fifa"; js "sims"]);
    (js "2k", [js "bioshock"; js "borderlands"; js "civilization"]);
    (js "capcom", [js "resident evil"; js "monster hunter"; js "devil may cry"]);
    (js "konami", [js "metal gear"; js "castlevania"; js "silent hill"]);
    (js "square", [js "final fantasy"; js "dragon quest"; js "kingdom hearts"]);
    (js "nintendo", [js "mario"; js "zelda"; js "pokemon"; js "switch"]);
    (js "sony", [js "playstation"; js "god of war"; js "uncharted"]);
    (js "microsoft", [js "xbox"; js "halo"; js "gears of war"]);
    (js "complete", [js "full"; js "entire"; js "100%"; js "all dlc"]);
    (js "remaster", [js "remake"; js "enhanced"; js "updated"; js "version"]);
    (js "classic", [js "old"; js "retro"; js "nostalgia"; js "vintage"]);
    (js "new", [js "latest"; js "recent"; js "updated"; js "novo"]);
    (js "free", [js "gratis"; js "opensource"; js "freeware"]);
    (js "multiplayer", [js "mp"; js "online"; js "coop"; js "pvp"]);
    (js "singleplayer", [js "single"; js "offline"; js "campaign"]);
    (js "coop", [js "co-op"; js "cooperative"; js "together"]);
    (js "pvp", [js "player vs player"; js "competitive"; js "multiplayer"]);
    (js "online", [js "internet"; js "network"; js "multiplayer"]);
    (js "offline", [js "local"; js "singleplayer"; js "no connection"])
  ].

(** The property names every object literal inherits from
    [Object.prototype]; their values are functions or objects, none of
    which has a [forEach] method. *)
Definition object_prototype_names : list jsstring :=
  [ js "constructor"; js "__defineGetter__"; js "__defineSetter__";
    js "hasOwnProperty"; js "__lookupGetter__"; js "__lookupSetter__";
    js "isPrototypeOf"; js "propertyIsEnumerable"; js "toString";
    js "valueOf"; js "__proto__"; js "toLocaleString" ].

Inductive property := Own (synonyms : list jsstring) | Inherited | Absent.

Fixpoint own_property (term : jsstring) (tbl : list (jsstring * list jsstring))
    : option (list jsstring) :=
  match tbl with
  | [] => None
  | (key, syns) :: r => if Js.eqb key term then Some syns else own_property term r
  end.

(** [SYNONYMS_MAP[term]] *)
Definition property_of (term : jsstring) : property :=
  match own_property term SYNONYMS_MAP with
  | Some syns => Own syns
  | None =>
      if bool_decide (term ∈ object_prototype_names) then Inherited else Absent
  end.

(** [Set.prototype.add] on a set kept in insertion order. *)
Definition set_add (s : list jsstring) (x : jsstring) : list jsstring :=
  if bool_decide (x ∈ s) then s else s ++ [x].

Definition set_add_all (s : list jsstring) (xs : list jsstring) : list jsstring :=
  fold_left set_add xs s.

(** The reverse scan over [Object.entries(SYNONYMS_MAP)] for one term. *)
Definition add_reverse (term : jsstring) (s : list jsstring) : list jsstring :=
  fold_left
    (fun acc '(key, syns) =>
       if bool_decide (term ∈ syns) then set_add_all (set_add acc key) syns
       else acc)
    SYNONYMS_MAP s.

(** One iteration of the loop over the terms; [None] when
    [directSynonyms.forEach] is not a function and the call throws. *)
Definition expand_term (s : list jsstring) (term : jsstring)
    : option (list jsstring) :=
  match property_of term with
  | Inherited => None
  | Own syns => Some (add_reverse term (set_add_all s syns))
  | Absent => Some (add_reverse term s)
  end.

Fixpoint expand_loop (s : list jsstring) (terms : list jsstring)
    : option (list jsstring) :=
  match terms with
  | [] => Some s
  | term :: r =>
      match expand_term s term with
      | Some s' => expand_loop s' r
      | None => None
      end
  end.

(** The words of the table: its keys and all their synonyms. *)
Definition table_words : list jsstring :=
  flat_map (fun '(key, syns) => key :: syns) SYNONYMS_MAP.

(** [expandSearchTermsWithSynonyms(terms)] *)
Definition expandSearchTermsWithSynonyms (terms : list jsstring)
    : option (list jsstring) :=
  expand_loop (set_add_all [] terms) terms.

End SearchSynonyms.

(** ** [lib/types]: catalog records *)

Module Types.

(** [DownloadType].  [source] is absent on records as they come out of a
    catalog file and is set during processing; the pre-computed search
    fields are optional. *)
Record DownloadType := mkDownload {
  fileSize : jsstring;
  uploadDate : jsstring;
  uris : list jsstring;
  title : jsstring;
  source : option jsstring;
  titleNormalized : option jsstring;
  sourceNormalized : option jsstring;
  urisNormalized : option jsstring;
  fileSizeBytes : option Num.jsnum;
  ingestionSource : option jsstring      (* __ingestionSource *)
}.

(** [GogData] *)
Record GogData := mkGog {
  name : jsstring;
  downloads : list DownloadType
}.

(** [GogSourcesStoreItem], with the backend identifier the store attaches
    to it after an upload. *)
Inductive source_type := file_source | url_source.

Record GogSourcesStoreItem := mkSource {
  s_name : jsstring;
  s_url : jsstring;
  s_type : source_type;
  s_lastUpdated : jsstring;
  s_serverId : option jsstring           (* __serverId *)
}.

End Types.

Export Types.

(** ** [lib/search]: size parsing and de-duplication *)

Module Search.
Import Num.

(** [parseFileSize(sizeStr)] of the search engine *)
Definition parseFileSize (sizeStr : jsstring) : jsnum :=
  if negb (truthy sizeStr) || Js.eqb sizeStr (js "N/A") then of_Z 0
  else match first_number_run sizeStr with
  | None => of_Z 0
  | Some m =>
      let num := parseFloat m in
      if includes sizeStr (js "GB") then mul (mul (mul num (of_Z 1024)) (of_Z 1024)) (of_Z 1024)
      else if includes sizeStr (js "MB") then mul (mul num (of_Z 1024)) (of_Z 1024)
      else if includes sizeStr (js "KB") then mul num (of_Z 1024)
      else num
  end.

(** The key under which a record is remembered:
    [`${dl.title}:${dl.uploadDate}`]. *)
Definition dedup_key (dl : DownloadType) : jsstring :=
  title dl ++ js ":" ++ uploadDate dl.

(** [!dl?.title?.trim() || dl.title === "Wkeynhk"] *)
Definition invalid_title (dl : DownloadType) : bool :=
  negb (truthy (trim (title dl))) || Js.eqb (title dl) (js "Wkeynhk").

(** The [.filter] callback, which records the keys it lets through in the
    [processed] map shared by all catalogs. *)
Fixpoint filter_downloads (processed : list jsstring) (dls : list DownloadType)
    : list DownloadType * list jsstring :=
  match dls with
  | [] => ([], processed)
  | dl :: r =>
      if invalid_title dl then filter_downloads processed r
      else if bool_decide (dedup_key dl ∈ processed) then filter_downloads processed r
      else let '(kept, processed') := filter_downloads (dedup_key dl :: processed) r in
           (dl :: kept, processed')
  end.

(** The [.map] callback: [{...dl, source: gog.name, fileSizeBytes: ...}] *)
Definition stamp (gog : GogData) (dl : DownloadType) : DownloadType :=
  mkDownload (fileSize dl) (uploadDate dl) (uris dl) (title dl)
    (Some (name gog)) (titleNormalized dl) (sourceNormalized dl)
    (urisNormalized dl) (Some (parseFileSize (fileSize dl))) (ingestionSource dl).

(** The [flatMap] over the catalogs. *)
Fixpoint dedup_catalogs (processed : list jsstring) (gogs : list GogData)
    : list DownloadType :=
  match gogs with
  | [] => []
  | gog :: r =>
      if negb (truthy (name gog)) then dedup_catalogs processed r
      else let '(kept, processed') := filter_downloads processed (downloads gog) in
           map (stamp gog) kept ++ dedup_catalogs processed' r
  end.

(** [processAndDeduplicateDownloads(gogs)] *)
Definition processAndDeduplicateDownloads (gogs : list GogData) : list DownloadType :=
  dedup_catalogs [] gogs.

(** The same result described as the specification does: flatten the
    catalogs that have a name, drop the invalid titles, keep the first
    record of every key, stamp. *)
Definition flatten_named (gogs : list GogData) : list (GogData * DownloadType) :=
  flat_map
    (fun gog => if truthy (name gog) then map (fun dl => (gog, dl)) (downloads gog) else [])
    gogs.

Fixpoint first_of_each_key (seen : list jsstring) (l : list (GogData * DownloadType))
    : list (GogData * DownloadType) :=
  match l with
  | [] => []
  | (gog, dl) :: r =>
      if bool_decide (dedup_key dl ∈ seen) then first_of_each_key seen r
      else (gog, dl) :: first_of_each_key (dedup_key dl :: seen) r
  end.

Definition deduplicated_spec (gogs : list GogData) : list DownloadType :=
  map (fun '(gog, dl) => stamp gog dl)
    (first_of_each_key []
       (List.filter (fun '(_, dl) => negb (invalid_title dl)) (flatten_named gogs))).

End Search.

(** ** [hooks/use-data-state]: the size parser of the store *)

Module DataStateSize.
Import Num.

(** The private [parseFileSize(sizeStr?)] of the data store *)
Definition parseFileSize (sizeStr : jsstring) : jsnum :=
  if negb (truthy sizeStr) || Js.eqb sizeStr (js "N/A") then of_Z 0
  else match first_number_run sizeStr with
  | None => of_Z 0
  | Some m =>
      let num := parseFloat m in
      if includes sizeStr (js "GB")
      then round (mul (mul (mul num (of_Z 1024)) (of_Z 1024)) (of_Z 1024))
      else if includes sizeStr (js "MB") then round (mul (mul num (of_Z 1024)) (of_Z 1024))
      else if includes sizeStr (js "KB") then round (mul num (of_Z 1024))
      else round num
  end.

End DataStateSize.

(** ** [lib/lru-cache]: the remaining operations of the cache *)

Module LruCacheOps.
Import LruCache.

Section Ops.
Context {K : Type} `{Countable K} `{!Key K} {V : Type}.

(** [delete(key)]: the cache afterwards and the returned flag. *)
Definition delete (c : LruCache.t K V) (key : K) : LruCache.t K V * bool :=
  if has c key then
    let value := map_get (cache c) key in
    (mk (base.delete key (cache c)) (maxSize c) (onEvict c)
        (filter (λ k, strict_ne k key) (accessOrder c))
        (match value with
         | Some x => if onEvict c then calls c ++ [(key, x)] else calls c
         | None => calls c
         end),
     true)
  else (c, false).

(** [clear()] *)
Definition clear (c : LruCache.t K V) : LruCache.t K V :=
  mk ∅ (maxSize c) (onEvict c) [] (calls c).

(** [keys()] *)
Definition keys (c : LruCache.t K V) : list K := accessOrder c.

(** [entries()]: the pairs in access order, without the keys whose value
    is [undefined]. *)
Definition entries (c : LruCache.t K V) : list (K * V) :=
  omap (fun key => match map_get (cache c) key with
                   | Some v => Some (key, v)
                   | None => None
                   end) (accessOrder c).

(** [values()] *)
Definition values (c : LruCache.t K V) : list V :=
  omap (fun key => map_get (cache c) key) (accessOrder c).

(** [getStats().isFull] *)
Definition isFull (c : LruCache.t K V) : bool :=
  reached (size c) (maxSize c).

(** Sequences of calls to the mutating methods. *)
Inductive action :=
| ASet (key : K) (value : option V)
| AGet (key : K)
| ADelete (key : K)
| AClear.

Definition perform (c : LruCache.t K V) (a : action) : LruCache.t K V :=
  match a with
  | ASet key value => set c key value
  | AGet key => fst (get c key)
  | ADelete key => fst (delete c key)
  | AClear => clear c
  end.

Definition exec (c : LruCache.t K V) (acts : list action) : LruCache.t K V :=
  fold_left perform acts c.




End Ops.

Arguments action K V : clear implicits.

End LruCacheOps.

(** ** [lib/url-cache]: the response cache of URL sources

    The IndexedDB object store, keyed by [url], is a finite map from URLs
    to the cached catalog and its timestamp.  A call that meets a store
    error ([fault]) is caught by the function itself. *)

Module UrlCache.

Definition CACHE_EXPIRY : Z := 24 * 60 * 60 * 1000.

Abbreviation store := (gmap (list N) (GogData * Z)).

(** [getCachedUrl(url)] at clock reading [now]: the store afterwards and
    the result ([None] is [null]). *)
Definition getCachedUrl (db : store) (fault : bool) (now : Z) (url : list N)
    : store * option GogData :=
  if fault then (db, None)
  else match db !! url with
  | None => (db, None)
  | Some (data, timestamp) =>
      if bool_decide (CACHE_EXPIRY < now - timestamp)%Z
      then (delete url db, None)
      else (db, Some data)
  end.

(** [cacheUrlData(url, data)] at clock reading [now] *)
Definition cacheUrlData (db : store) (fault : bool) (now : Z)
    (url : list N) (data : GogData) : store :=
  if fault then db else <[url := (data, now)]> db.

(** [clearExpiredCache()] at clock reading [now], for a run in which the
    store reports no error: the cursor visits every entry and deletes the
    ones stamped before [now - CACHE_EXPIRY]. *)
Definition clearExpiredCache (db : store) (now : Z) : store :=
  filter (fun kv => ¬ (snd (snd kv) < now - CACHE_EXPIRY)%Z) db.

End UrlCache.

(** ** [hooks/use-data-state]: sanitising text from remote catalogs *)

Module DataStateSanitize.
Local Open Scope N_scope.

Definition is_bom (u : N) : bool := u =? 0xFEFF.

Definition is_invisible (u : N) : bool :=
  ((0x200B <=? u) && (u <=? 0x200F)) || ((0x202A <=? u) && (u <=? 0x202E))
  || ((0x2060 <=? u) && (u <=? 0x206F)).

Definition is_control (u : N) : bool :=
  (u <=? 0x1F) || ((0x7F <=? u) && (u <=? 0x9F)).

Definition is_unicode_dash (u : N) : bool :=
  ((0x2010 <=? u) && (u <=? 0x2015)) || (u =? 0x2212).

(** [sanitizeForNormalization(s?)]: [None] is an absent argument. *)
Definition sanitizeForNormalization (s : option jsstring) : jsstring :=
  match s with
  | None => []
  | Some [] => []
  | Some s =>
      let out := List.filter (fun u => negb (is_bom u)) s in
      let out := List.filter (fun u => negb (is_invisible u)) out in
      let out := map (fun u => if is_control u then SP else u) out in
      let out := map (fun u => if is_unicode_dash u then SP else u) out in
      let out := replace_runs is_space [SP] false out in
      trim out
  end.

End DataStateSanitize.

(** ** Exact phrases (the quoted parts of a query) *)

Module SearchPhrases.
Local Open Scope N_scope.

Definition DQ : N := 0x22.   (* the double quote *)
Definition SQ : N := 0x27.   (* the single quote *)

(** [\w] without the [u] and [i] flags *)
Definition is_ascii_word (u : N) : bool :=
  ((0x30 <=? u) && (u <=? 0x39)) || ((0x41 <=? u) && (u <=? 0x5A))
  || ((0x61 <=? u) && (u <=? 0x7A)) || (u =? 0x5F).

(** [s.split(/\s+/)]: the pieces between maximal runs of white space, the
    empty pieces at either end included. *)
Fixpoint split_runs (sep : N -> bool) (in_run : bool) (cur : list N) (s : list N)
    : list (list N) :=
  match s with
  | [] => [rev cur]
  | c :: r =>
      if sep c then
        if in_run then split_runs sep true [] r
        else rev cur :: split_runs sep true [] r
      else split_runs sep false (c :: cur) r
  end.

Definition split_ws (s : jsstring) : list jsstring := split_runs is_space false [] s.

(** [.split(/\s+/).filter(w => w.length > 0)] *)
Definition phrase_words (s : jsstring) : list jsstring :=
  List.filter truthy (split_ws s).

(** The longest prefix without the unit [q], and what follows it. *)
Fixpoint span_until (q : N) (s : list N) : list N * list N :=
  match s with
  | [] => ([], [])
  | c :: r =>
      if c =? q then ([], s)
      else let '(body, rest) := span_until q r in (c :: body, rest)
  end.

(** A match of the phrase pattern starting at the head of [s]: a quote
    (double or single), one or more units other than that quote, and the
    same quote again.  The result is the captured group and the whole
    match. *)
Definition match_at (s : list N) : option (list N * list N) :=
  match s with
  | [] => None
  | c :: r =>
      if (c =? DQ) || (c =? SQ) then
        match span_until c r with
        | ((_ :: _) as body, _ :: _) => Some (body, c :: body ++ [c])
        | _ => None
        end
      else None
  end.

(** The successive matches of the global regular expression; [skip] units
    belong to the match found last. *)
Fixpoint matches (skip : nat) (s : list N) : list (list N * list N) :=
  match s with
  | [] => []
  | _ :: r =>
      match skip with
      | S k => matches k r
      | O =>
          match match_at s with
          | Some (body, whole) => (body, whole) :: matches (length whole - 1) r
          | None => matches 0 r
          end
      end
  end.

(** [s.replace(pat, '')] for a string pattern: the first occurrence goes. *)
Fixpoint remove_first (s pat : list N) : list N :=
  match s with
  | [] => []
  | c :: r => if startsWith s pat then drop (length pat) s else c :: remove_first r pat
  end.

Section WithUcd.
Variable U : ucd.

(** [normalizePhraseForMatching(phrase)] *)
Definition normalizePhraseForMatching (phrase : jsstring) : jsstring :=
  replace_runs is_space [SP] false
    (List.filter (fun u => is_ascii_word u || is_space u)
       (trim (toLowerCase U phrase))).

(** The body of the [while] loop of [extractExactPhrases], over the
    matches in order. *)
Fixpoint extract_loop (ms : list (list N * list N)) (phrases : list jsstring)
    (remaining : jsstring) : list jsstring * jsstring :=
  match ms with
  | [] => (phrases, remaining)
  | (body, whole) :: r =>
      let normalized := normalizePhraseForMatching body in
      extract_loop r
        (if truthy normalized then phrases ++ [normalized] else phrases)
        (remove_first remaining whole)
  end.

(** [extractExactPhrases(query)]: [(exactPhrases, remainingQuery)] *)
Definition extractExactPhrases (query : jsstring) : list jsstring * jsstring :=
  let '(phrases, remaining) := extract_loop (matches 0 query) [] query in
  (phrases, trim remaining).

(** [checkExactPhrases(text, phrases)] *)
Definition checkExactPhrases (text : jsstring) (phrases : list jsstring) : bool :=
  match phrases with
  | [] => true
  | _ =>
      let normalizedText := normalizePhraseForMatching text in
      forallb
        (fun phrase =>
           if includes normalizedText phrase then true
           else
             let phraseWords := phrase_words phrase in
             if (1 <? length phraseWords)%nat then
               forallb
                 (fun word =>
                    includes normalizedText word
                    || existsb (fun w => Js.eqb w word || startsWith w word)
                         (split_ws normalizedText))
                 phraseWords
             else false)
        phrases
  end.

End WithUcd.

(** [getRecencyBonus(uploadDate?)] at clock reading [now].  Parsing a date
    string is the runtime's; [parse_date s] is [new Date(s).getTime()],
    with [None] for an invalid date.  The age in days is the floor of an
    exact quotient of integers in the source as well. *)
Section Recency.
Variable parse_date : jsstring -> option Z.

Definition getRecencyBonus (now : Z) (uploadDate : option jsstring) : Z :=
  match uploadDate with
  | None => 0
  | Some [] => 0
  | Some d =>
      match parse_date d with
      | None => 0
      | Some uploaded =>
          let ageInDays := ((now - uploaded) / (1000 * 60 * 60 * 24))%Z in
          if (ageInDays <=? 7)%Z then 20
          else if (ageInDays <=? 30)%Z then 10
          else if (ageInDays <=? 90)%Z then 5
          else if (ageInDays <=? 365)%Z then 2
          else 0
      end
  end%Z.

End Recency.

End SearchPhrases.

(** ** An excerpt of date parsing

    [new Date(s).getTime()] for date-only ISO strings [YYYY-MM-DD] that
    name a real calendar day (midnight UTC, in milliseconds since the
    epoch).  Every other string is treated as unparseable; the excerpt is
    used to run the engine on concrete dates. *)

Module DateExcerpt.
Local Open Scope Z_scope.

Definition days_from_civil (y m d : Z) : Z :=
  let y' := if m <=? 2 then y - 1 else y in
  let era := y' / 400 in
  let yoe := y' - era * 400 in
  let mp := (m + 9) mod 12 in
  let doy := (153 * mp + 2) / 5 + d - 1 in
  let doe := yoe * 365 + yoe / 4 - yoe / 100 + doy in
  era * 146097 + doe - 719468.

Definition is_leap (y : Z) : bool :=
  (y mod 4 =? 0) && (negb (y mod 100 =? 0) || (y mod 400 =? 0)).

Definition days_in_month (y m : Z) : Z :=
  if m =? 2 then (if is_leap y then 29 else 28)
  else if (m =? 4) || (m =? 6) || (m =? 9) || (m =? 11) then 30
  else 31.

Definition digit (c : N) : option Z :=
  if Num.is_digit c then Some (Z.of_N (c - 0x30)) else None.

Definition parse (s : jsstring) : option Z :=
  match s with
  | [y1; y2; y3; y4; 0x2D%N; m1; m2; 0x2D%N; d1; d2] =>
      match digit y1, digit y2, digit y3, digit y4,
            digit m1, digit m2, digit d1, digit d2 with
      | Some a, Some b, Some c, Some d, Some e, Some f, Some g, Some h =>
          let y := a * 1000 + b * 100 + c * 10 + d in
          let m := e * 10 + f in
          let dd := g * 10 + h in
          if (1 <=? m) && (m <=? 12) && (1 <=? dd) && (dd <=? days_in_month y m)
          then Some (days_from_civil y m dd * 86400000)
          else None
      | _, _, _, _, _, _, _, _ => None
      end
  | _ => None
  end.

End DateExcerpt.

(** ** The loader's stamping of a catalog *)

Module Loader.

(** [processGogData(json)]: every download gets [source: json.name]. *)
Definition processGogData (json : GogData) : GogData :=
  mkGog (name json)
    (map (fun dl =>
            mkDownload (fileSize dl) (uploadDate dl) (uris dl) (title dl)
              (Some (name json)) (titleNormalized dl) (sourceNormalized dl)
              (urisNormalized dl) (fileSizeBytes dl) (ingestionSource dl))
       (downloads json)).

End Loader.

(** ** The results page: pagination *)

Module Page.
Local Open Scope Z_scope.

Definition PAGE_SIZE : Z := 12.

(** [Math.ceil(a / b)] for integers [a] and positive [b] *)
Definition ceil_div (a b : Z) : Z := - ((- a) / b).

(** [Math.max(1, Math.ceil(filteredDownloads.length / PAGE_SIZE))] *)
Definition totalPages {A} (filteredDownloads : list A) : Z :=
  Z.max 1 (ceil_div (Z.of_nat (length filteredDownloads)) PAGE_SIZE).

(** [Array.prototype.slice(start, end)] on integer arguments *)
Definition slice {A} (l : list A) (start end_ : Z) : list A :=
  let len := Z.of_nat (length l) in
  let k := if start <? 0 then Z.max (len + start) 0 else Z.min start len in
  let final := if end_ <? 0 then Z.max (len + end_) 0 else Z.min end_ len in
  take (Z.to_nat (final - k)) (drop (Z.to_nat k) l).

(** [displayedDownloads] for the current page *)
Definition displayedDownloads {A} (filteredDownloads : list A) (page : Z) : list A :=
  let start := (page - 1) * PAGE_SIZE in
  slice filteredDownloads start (start + PAGE_SIZE).

(** The window of page buttons: [(start, end)] as the loop bounds. *)
Definition window (page totalPages : Z) : Z * Z :=
  let maxButtons := 7 in
  let start := Z.max 1 (page - maxButtons / 2) in
  let end_ := start + maxButtons - 1 in
  if totalPages <? end_
  then (Z.max 1 (totalPages - maxButtons + 1), totalPages)
  else (start, end_).

(** The page numbers the loop renders. *)
Definition buttons (page totalPages : Z) : list Z :=
  let '(start, end_) := window page totalPages in
  seqZ start (end_ - start + 1).

End Page.

(** ** [lib/search]: the terms of a query *)

Module SearchTerms.

(** [DEFAULT_STOPWORDS], in the order of the source; membership is all
    that is ever asked of the set. *)
Definition DEFAULT_STOPWORDS : list jsstring :=
  map js
  [
    "the"; "a"; "an"; "and"; "or"; "but"; "if"; "else"; "while"; "for"; "to";
    "of"; "in"; "on"; "at"; "by"; "from"; "with"; "without"; "up"; "down";
    "is"; "am"; "are"; "was"; "were"; "be"; "been"; "being"; "have"; "has";
    "had"; "do"; "does"; "did"; "will"; "would"; "should"; "could"; "can";
    "may"; "might"; "must"; "shall"; "i"; "you"; "he"; "she"; "it"; "we";
    "they"; "me"; "him"; "her"; "us"; "them"; "my"; "your"; "his"; "her";
    "its"; "our"; "their"; "this"; "that"; "these"; "those"; "what"; "which";
    "who"; "whom"; "why"; "how"; "as"; "than"; "into"; "through"; "during";
    "before"; "after"; "above"; "below"; "between"; "under"; "over"; "out";
    "off"; "about"; "against"; "along"; "around"; "such"; "so"; "some"; "no";
    "not"; "only"; "just"; "very"; "too"; "all"; "each"; "o"; "a"; "os"; "as";
    "um"; "uma"; "uns"; "umas"; "de"; "do"; "da"; "dos"; "das"; "e"; "ou";
    "mais"; "menos"; "em"; "no"; "na"; "nos"; "nas"; "por"; "para"; "com";
    "sem"; "é"; "são"; "era"; "eram"; "foi"; "foram"; "ser"; "estar"; "tem";
    "têm"; "tinha"; "tinham"; "teve"; "tiveram"; "ter"; "eu"; "tu"; "você";
    "ele"; "ela"; "nós"; "vós"; "eles"; "elas"; "me"; "te"; "se"; "lhe";
    "nos"; "vos"; "lhes"; "meu"; "teu"; "seu"; "nosso"; "vosso"; "dele";
    "dela"; "este"; "esse"; "aquele"; "este"; "essa"; "aquela"; "que"; "qual";
    "quais"; "quanto"; "quantos"; "quanta"; "quantas"; "como"; "quando";
    "onde"; "porquê"; "porque"; "não"; "sim"; "talvez"; "apenas"; "só";
    "somente"; "muito"; "todo"; "toda"; "и"; "в"; "во"; "не"; "что";
    "он"; "на"; "я"; "с"; "со"; "а"; "то"; "все"; "она";
    "так"; "его"; "но"; "да"; "ты"; "к"; "у"; "же"; "вы";
    "за"; "бы"; "по"; "только"; "ее"; "может"; "они";
    "из"; "ему"; "еще"; "нет"; "от"; "ни"; "быть"; "у";
    "ж"; "вот"; "ведь"; "там"; "тем"; "чем"; "себя";
    "ничего"; "ей"; "может"; "они"; "тот"; "для";
    "потом"; "себе"; "ничего"; "ей"; "может"; "они";
    "этот"; "какая"; "много"; "разве"; "три"; "эту";
    "моя"; "впрочем"; "хоть"; "после"; "над";
    "больше"; "тот"; "через"; "эти"; "нас"; "про";
    "всех"; "них"; "какая"; "много"; "разве"; "три";
    "эту"; "моя"; "впрочем"; "хоть"; "after"; "над";
    "больше"; "тот"; "через"; "эти"; "нас"; "про";
    "всех"; "них" ].

(** [DEFAULT_STOPWORDS.has(t)] *)
Definition is_stopword (t : jsstring) : bool :=
  bool_decide (t ∈ DEFAULT_STOPWORDS).

Section WithUcd.
Variable U : ucd.

(** [normalizeText(remainingQuery).split(/\s+/).filter((term) => term.length > 0)] *)
Definition normalizedTerms (remainingQuery : jsstring) : list jsstring :=
  words_ws (Utils.normalizeText U (Some remainingQuery)).

(** [searchTerms]: the terms that are no stop words, or all the terms
    when nothing else is left. *)
Definition searchTerms (remainingQuery : jsstring) : list jsstring :=
  let normalizedTerms := normalizedTerms remainingQuery in
  match List.filter (fun t => negb (is_stopword t)) normalizedTerms with
  | [] => normalizedTerms
  | searchTerms => searchTerms
  end.

End WithUcd.
End SearchTerms.

(** ** [lib/search]: the size filter of [processDownloads] *)

Module SearchFilters.
Import Num.

(** [a === b], [a < b] and [a > b] on numbers; every comparison with
    [NaN] is false. *)
Definition strict_eq (a b : jsnum) : bool :=
  match a, b with
  | Num p, Num q => Qeq_bool p q
  | _, _ => false
  end.

Definition lt (a b : jsnum) : bool :=
  match a, b with
  | Num p, Num q => match (p ?= q)%Q with Lt => true | _ => false end
  | _, _ => false
  end.

Definition gt (a b : jsnum) : bool := lt b a.

(** [item.fileSizeBytes ?? parseFileSize(item.fileSize)] *)
Definition item_size (item : DownloadType) : jsnum :=
  match fileSizeBytes item with
  | Some n => n
  | None => Search.parseFileSize (fileSize item)
  end.

(** The callback of the size filter; [None] is an undefined bound. *)
Definition size_test (min max : option jsnum) (item : DownloadType) : bool :=
  let size := item_size item in
  if strict_eq size (of_Z 0)
  then match min with None => true | Some m => strict_eq m (of_Z 0) end
  else if match min with Some m => lt size m | None => false end then false
  else if match max with Some m => gt size m | None => false end then false
  else true.

(** The size stage: skipped when both bounds are undefined. *)
Definition size_stage (min max : option jsnum) (results : list DownloadType)
    : list DownloadType :=
  match min, max with
  | None, None => results
  | _, _ => List.filter (size_test min max) results
  end.

(** A range of sizes lies within another.  [None] is an undefined bound;
    the bounds compared are numbers, the lower ones not negative. *)
Definition within (min max min' max' : option Q) : Prop :=
  match min', min with
  | None, _ => True
  | Some a', Some a => (0 <= a' /\ a' <= a)%Q
  | Some _, None => False
  end
  /\ match max', max with
     | None, _ => True
     | Some b', Some b => (b <= b')%Q
     | Some _, None => False
     end.

Definition bound (b : option Q) : option jsnum := option_map Num b.

End SearchFilters.

(** ** [lib/search]: scoring and [filterResults]

    The engine keeps two caches of prepared search texts: a [WeakMap]
    keyed by the record object and the bounded LRU cache keyed by
    [title:uploadDate].  Both outlive a call and are threaded through the
    model; a record is paired with the identity of its object. *)

Module SearchEngine.

Inductive searchMode := all | any.

(** The entries of [weakSearchCache] and of [persistentSearchCache]. *)
Record cached := mkCached {
  c_searchText : jsstring;
  c_words : list jsstring
}.

Record persistent := mkPersistent {
  p_searchText : jsstring;
  p_words : list jsstring;
  p_title : jsstring;
  p_uploadDate : jsstring
}.

Record caches := mkCaches {
  weakSearchCache : gmap positive cached;
  persistentSearchCache : LruCache.t (list N) persistent
}.

(** [a || b] on an optional string: absent and empty strings are falsy. *)
Definition or_else (a : option jsstring) (b : jsstring) : jsstring :=
  match a with
  | Some ((_ :: _) as s) => s
  | _ => b
  end.

(** [Array.prototype.sort(cmp)], which is stable: for a comparator that is
    a consistent ordering its result is the sorted arrangement that keeps
    equal elements in their order, computed here by insertion. *)
Section Sort.
Context {A : Type} (cmp : A -> A -> Z).

Fixpoint insert (x : A) (l : list A) : list A :=
  match l with
  | [] => [x]
  | y :: r => if (cmp x y <=? 0)%Z then x :: l else y :: insert x r
  end.

Definition sort (l : list A) : list A := fold_right insert [] l.

End Sort.

(** *** The pattern [\bterm\b] with the flag [i]

    The pattern is built from the term.  It is read here for terms without
    pattern syntax characters, where it is the term itself between two
    word boundaries.  Without the flag [u] a word character is an ASCII
    letter, digit or underscore, and two units match when the engine's
    [Canonicalize] maps them to the same unit. *)
Section Regex.
Local Open Scope N_scope.
Variable canonicalize : N -> N.

(** The characters with a meaning in a pattern. *)
Definition is_syntax_char (u : N) : bool :=
  (u =? 0x5C) || (u =? 0x5E) || (u =? 0x24) || (u =? 0x2E) || (u =? 0x7C)
  || (u =? 0x3F) || (u =? 0x2A) || (u =? 0x2B) || (u =? 0x28) || (u =? 0x29)
  || (u =? 0x5B) || (u =? 0x5D) || (u =? 0x7B) || (u =? 0x7D).

Definition literal (term : jsstring) : bool :=
  forallb (fun u => negb (is_syntax_char u)) term.

(** Matching the units of a literal at the head of [s]: what it consumed,
    last unit first, and the rest. *)
Fixpoint match_literal (pat s : list N) (consumed : list N)
    : option (list N * list N) :=
  match pat, s with
  | [], _ => Some (consumed, s)
  | _ :: _, [] => None
  | a :: pat', b :: s' =>
      if canonicalize a =? canonicalize b
      then match_literal pat' s' (b :: consumed) else None
  end.

Definition is_word (u : option N) : bool :=
  match u with Some u => SearchPhrases.is_ascii_word u | None => false end.

(** [\b] between the unit before a position and the unit after it. *)
Definition at_boundary (before after : option N) : bool :=
  xorb (is_word before) (is_word after).

(** A match that starts at the head of [s], [before] being the unit in
    front of it. *)
Definition match_here (before : option N) (term s : list N) : bool :=
  at_boundary before (head s)
  && match match_literal term s [] with
     | Some (consumed, rest) =>
         at_boundary (match consumed with last :: _ => Some last | [] => before end)
           (head rest)
     | None => false
     end.

Fixpoint test_from (before : option N) (term s : list N) : bool :=
  match_here before term s
  || match s with
     | [] => false
     | c :: r => test_from (Some c) term r
     end.

(** [new RegExp(`\\b${term}\\b`, 'i').test(searchText)]; [None] when the
    term holds pattern syntax. *)
Definition word_test (term searchText : jsstring) : option bool :=
  if literal term then Some (test_from None term searchText) else None.

(** [scoreForTerm(term)] for a record with the prepared [searchText] and
    [words].  The ratios compared with 0.6 and 0.4 are quotients of string
    lengths, on which the comparison of doubles and the exact one agree. *)
Definition scoreForTerm (searchText : jsstring) (words : list jsstring)
    (term : jsstring) : option Z :=
  if (length term <? 3)%nat then
    match word_test term searchText with
    | Some isWordBoundary => Some (if isWordBoundary then 40 else 0)%Z
    | None => None
    end
  else if includes searchText term then
    match word_test term searchText with
    | None => None
    | Some true => Some 100%Z
    | Some false =>
        if existsb (fun w => startsWith w term) words then Some 75%Z
        else
          match List.find (fun w => includes w term && negb (Js.eqb w term)) words with
          | Some ((_ :: _) as substringWord) =>
              let t := Z.of_nat (length term) in
              let w := Z.of_nat (length substringWord) in
              if (6 * w <? 10 * t)%Z then Some 60%Z
              else if (4 * w <? 10 * t)%Z then Some 45%Z
              else Some 25%Z
          | _ => Some 15%Z
          end
    end
  else Some 0%Z.

End Regex.

Section Engine.
Variable U : ucd.
Variable canonicalize : N -> N.
(** [a.localeCompare(b)] *)
Variable localeCompare : jsstring -> jsstring -> Z.
(** The search helpers imported from [./types].  The expansion returns
    [None] when it throws; the recency bonus receives the reading of the
    clock at the time of the call. *)
Variable extractExactPhrases : jsstring -> list jsstring * jsstring.
Variable checkExactPhrases : jsstring -> list jsstring -> bool.
Variable expandSearchTermsWithSynonyms : list jsstring -> option (list jsstring).
Variable getRecencyBonus : Z -> jsstring -> Z.

(** The text the phrases are looked up in. *)
Definition phrase_text (item : DownloadType) : jsstring :=
  or_else (titleNormalized item) (Utils.normalizeText U (Some (title item)))
  ++ [SP]
  ++ or_else (sourceNormalized item)
       (Utils.normalizeText U (Some (or_else (source item) []))).

(** The phrase gate: a record passes unless there are phrases and the
    check fails. *)
Definition passes_gate (exactPhrases : list jsstring) (item : DownloadType) : bool :=
  match exactPhrases with
  | [] => true
  | _ => checkExactPhrases (phrase_text item) exactPhrases
  end.

(** A record that the loop does not skip: it has a title and passes the
    gate. *)
Definition titled (exactPhrases : list jsstring) (x : positive * DownloadType) : bool :=
  truthy (title (snd x)) && passes_gate exactPhrases (snd x).

(** The search text and words computed when neither cache has them. *)
Definition prepare (item : DownloadType) : cached :=
  let title := or_else (titleNormalized item) (Utils.normalizeText U (Some (title item))) in
  let source :=
    or_else (sourceNormalized item)
      (match source item with
       | Some ((_ :: _) as s) => Utils.normalizeText U (Some s)
       | _ => []
       end) in
  let combined := trim (replace_runs is_space [SP] false (title ++ [SP] ++ source)) in
  mkCached ([SP] ++ combined ++ [SP])
    (if truthy combined then words_sp combined else []).

(** [`${item.title}:${item.uploadDate || ""}`] *)
Definition persistentKey (item : DownloadType) : list N :=
  title item ++ js ":" ++ uploadDate item.

(** Looking the prepared text up: the weak cache first, then the
    persistent one, then the computation, which fills both. *)
Definition lookup (st : caches) (id : positive) (item : DownloadType)
    : caches * cached :=
  match weakSearchCache st !! id with
  | Some cached => (st, cached)
  | None =>
      let '(lru, found) := LruCache.get (persistentSearchCache st) (persistentKey item) in
      match found with
      | Some p =>
          if Js.eqb (p_title p) (title item) && Js.eqb (p_uploadDate p) (uploadDate item)
          then
            let cached := mkCached (p_searchText p) (p_words p) in
            (mkCaches (<[id := cached]> (weakSearchCache st)) lru, cached)
          else
            let newCached := prepare item in
            (mkCaches (<[id := newCached]> (weakSearchCache st))
               (LruCache.set lru (persistentKey item)
                  (Some (mkPersistent (c_searchText newCached) (c_words newCached)
                           (title item) (uploadDate item)))),
             newCached)
      | None =>
          let newCached := prepare item in
          (mkCaches (<[id := newCached]> (weakSearchCache st))
             (LruCache.set lru (persistentKey item)
                (Some (mkPersistent (c_searchText newCached) (c_words newCached)
                         (title item) (uploadDate item)))),
           newCached)
      end
  end.

(** The loop over the original terms: [(totalScore, allMatched)]. *)
Fixpoint score_terms (score : jsstring -> option Z) (terms : list jsstring)
    (totalScore : Z) (allMatched : bool) : option (Z * bool) :=
  match terms with
  | [] => Some (totalScore, allMatched)
  | term :: r =>
      match score term with
      | None => None
      | Some s =>
          score_terms score r (totalScore + s)
            (if (s =? 0)%Z then false else allMatched)
      end
  end.

(** The loop over the synonym terms.  [Math.floor(s * 0.7)] is
    [7 * s / 10] on each of the scores. *)
Fixpoint score_synonyms (score : jsstring -> option Z) (terms : list jsstring)
    (totalScore : Z) : option Z :=
  match terms with
  | [] => Some totalScore
  | synTerm :: r =>
      match score synTerm with
      | None => None
      | Some s =>
          score_synonyms score r
            (if (0 <? s)%Z then totalScore + 7 * s / 10 else totalScore)%Z
      end
  end.

(** The score of one record at clock reading [now]. *)
Definition score_item (searchTerms expandedSearchTerms : list jsstring)
    (now : Z) (e : cached) (item : DownloadType) : option (Z * bool) :=
  let score := scoreForTerm canonicalize (c_searchText e) (c_words e) in
  match score_terms score searchTerms 0 true with
  | None => None
  | Some (totalScore, allMatched) =>
      let synonymTerms :=
        List.filter (fun t => negb (bool_decide (t ∈ searchTerms))) expandedSearchTerms in
      match score_synonyms score synonymTerms totalScore with
      | None => None
      | Some totalScore =>
          Some (if (0 <? totalScore)%Z
                then totalScore + getRecencyBonus now (uploadDate item)
                else totalScore, allMatched)%Z
      end
  end.

Definition dropped (searchMode : searchMode) (totalScore : Z) (allMatched : bool) : bool :=
  match searchMode with
  | all => negb allMatched
  | any => (totalScore =? 0)%Z
  end.

(** The loop over the records; [clock i] is the reading of the clock when
    record [i] is scored. *)
Fixpoint scan (searchMode : searchMode) (exactPhrases searchTerms expanded : list jsstring)
    (clock : nat -> Z) (i : nat) (st : caches)
    (downloads : list (positive * DownloadType))
    : option (caches * list (positive * DownloadType * Z)) :=
  match downloads with
  | [] => Some (st, [])
  | (id, item) :: rest =>
      if negb (truthy (title item))
      then scan searchMode exactPhrases searchTerms expanded clock (S i) st rest
      else if negb (passes_gate exactPhrases item)
      then scan searchMode exactPhrases searchTerms expanded clock (S i) st rest
      else
        let '(st1, e) := lookup st id item in
        match score_item searchTerms expanded (clock i) e item with
        | None => None
        | Some (totalScore, allMatched) =>
            match scan searchMode exactPhrases searchTerms expanded clock (S i) st1 rest with
            | None => None
            | Some (st2, scoredResults) =>
                Some (st2,
                      if dropped searchMode totalScore allMatched then scoredResults
                      else (id, item, totalScore) :: scoredResults)
            end
        end
  end.

(** The comparator of the final sort. *)
Definition by_score_then_title (a b : positive * DownloadType * Z) : Z :=
  if negb (snd b =? snd a)%Z then (snd b - snd a)%Z
  else localeCompare (toLowerCase U (title (snd (fst a))))
                     (toLowerCase U (title (snd (fst b)))).

(** [filterResults(downloads, searchQuery, searchMode)]: the caches after
    the call and the records returned.  The result is [None] when the
    expansion throws, and when a pattern is built from a term that holds
    pattern syntax, which the model does not read. *)
Definition filterResults (st : caches) (clock : nat -> Z)
    (downloads : list (positive * DownloadType)) (searchQuery : jsstring)
    (searchMode : searchMode)
    : option (caches * list (positive * DownloadType)) :=
  if negb (truthy (trim searchQuery)) then Some (st, downloads)
  else match downloads with
  | [] => Some (st, [])
  | _ =>
      let '(exactPhrases, remainingQuery) := extractExactPhrases searchQuery in
      let searchTerms := SearchTerms.searchTerms U remainingQuery in
      match expandSearchTermsWithSynonyms searchTerms with
      | None => None
      | Some expandedSearchTerms =>
          match scan searchMode exactPhrases searchTerms expandedSearchTerms
                  clock 0 st downloads with
          | None => None
          | Some (st', scoredResults) =>
              Some (st', map fst (sort by_score_then_title scoredResults))
          end
      end
  end.

End Engine.

(** The unit a unit is compared as under the flag [i], for the excerpt of
    the character database. *)
Definition excerpt_canonicalize (ch : N) : N :=
  let cu := Excerpt.upper_simple ch in
  if (0xFFFF <? cu)%N then ch
  else if (128 <=? ch)%N && (cu <? 128)%N then ch
  else cu.

End SearchEngine.

(** ** [lib/types]: the search helpers exported beside the types

    The file of the interfaces exports its own, simpler helpers for
    synonyms, exact phrases and recency; they are the ones that
    [lib/search] imports. *)

Module TypesHelpers.
Import SearchSynonyms.
Local Open Scope N_scope.

Definition SYNONYMS_MAP : list (jsstring * list jsstring) :=
  [ (js "skyrim", map js ["elder scrolls"; "tes 5"; "tesv"; "the elder scrolls v"]);
    (js "witcher", map js ["the witcher 3"; "tw3"; "cdpr"]);
    (js "gta", map js ["grand theft auto"; "rockstar games"]);
    (js "minecraft", map js ["mc"; "mojang"]);
    (js "valorant", map js ["riot games"; "tactical shooter"]);
    (js "rpg", map js ["role playing game"; "roleplay"; "character"]);
    (js "fps", map js ["first person shooter"; "shooter"]);
    (js "moba", map js ["multiplayer online battle arena"]);
    (js "mmo", map js ["massively multiplayer online"]);
    (js "pc", map js ["windows"; "steam"; "pc game"]);
    (js "console", map js ["xbox"; "playstation"; "ps"]);
    (js "mobile", map js ["android"; "ios"; "smartphone"]);
    (js "remaster", map js ["remake"; "hd"; "enhanced edition"; "deluxe"]);
    (js "mod", map js ["modification"; "modpack"; "addon"]);
    (js "dlc", map js ["expansion"; "content pack"; "season pass"]);
    (js "jogo", map js ["game"; "videogame"]);
    (js "edição", map js ["version"; "build"; "edition"]);
    (js "completo", map js ["complete"; "full"; "bundled"]) ].

(** The phrase pattern, matched repeatedly over the query: a double
    quote, one or more units other than a double quote (the captured
    group), and a double quote.  The result is the captured groups,
    trimmed.  [inside] holds the units read since the quote at which a
    match may start, last unit first. *)
Fixpoint phrase_scan (inside : option (list N)) (s : list N) : list jsstring :=
  match s with
  | [] => []
  | c :: r =>
      if c =? SearchPhrases.DQ then
        match inside with
        | Some ((_ :: _) as body) => trim (rev body) :: phrase_scan None r
        | _ => phrase_scan (Some []) r
        end
      else
        match inside with
        | Some body => phrase_scan (Some (c :: body)) r
        | None => phrase_scan None r
        end
  end.

(** Removing every match of the second pattern from the query: a double
    quote, any number of units other than a double quote, and a double
    quote.  [pending] holds an opening quote and the units read since,
    last unit first; they stay when no quote closes them. *)
Fixpoint strip_quoted (pending : option (list N)) (s : list N) : list N :=
  match s with
  | [] => match pending with Some p => rev p | None => [] end
  | c :: r =>
      if c =? SearchPhrases.DQ then
        match pending with
        | Some _ => strip_quoted None r
        | None => strip_quoted (Some [c]) r
        end
      else
        match pending with
        | Some p => strip_quoted (Some (c :: p)) r
        | None => c :: strip_quoted None r
        end
  end.

(** [extractExactPhrases(query)]: [(exactPhrases, remainingQuery)] *)
Definition extractExactPhrases (query : jsstring) : list jsstring * jsstring :=
  (phrase_scan None query, trim (strip_quoted None query)).

(** The number of double quotes in a string. *)
Definition quotes (s : jsstring) : nat :=
  length (List.filter (fun c => c =? SearchPhrases.DQ) s).

Section WithUcd.
Variable U : ucd.

(** [SYNONYMS_MAP[term.toLowerCase()]] *)
Definition property_of (term : jsstring) : property :=
  let key := toLowerCase U term in
  match own_property key SYNONYMS_MAP with
  | Some syns => Own syns
  | None => if bool_decide (key ∈ object_prototype_names) then Inherited else Absent
  end.

(** The loop over the terms; [None] when [synonyms.forEach] is not a
    function and the call throws. *)
Fixpoint expand_loop (s : list jsstring) (terms : list jsstring)
    : option (list jsstring) :=
  match terms with
  | [] => Some s
  | term :: r =>
      match property_of term with
      | Inherited => None
      | Own syns => expand_loop (set_add_all s syns) r
      | Absent => expand_loop s r
      end
  end.

(** [expandSearchTermsWithSynonyms(terms)] *)
Definition expandSearchTermsWithSynonyms (terms : list jsstring)
    : option (list jsstring) :=
  expand_loop (set_add_all [] terms) terms.

(** [checkExactPhrases(searchText, exactPhrases)]: every phrase,
    lower-cased and without the combining marks U+0300 to U+036F, is a
    substring of the text treated in the same way. *)
Definition checkExactPhrases (searchText : jsstring) (exactPhrases : list jsstring)
    : bool :=
  let normalized := Utils.strip_marks (toLowerCase U searchText) in
  forallb (fun phrase =>
             includes normalized (Utils.strip_marks (toLowerCase U phrase)))
          exactPhrases.

End WithUcd.

(** [daysSinceUpload(uploadDate)] at clock reading [now]; [parse_date s] is
    [new Date(s).getTime()], with [None] for an invalid date, whose time
    value is [NaN].  The constructor does not throw, so the handler of the
    source is never entered, and the result for an invalid date is [NaN]
    ([None]). *)
Section Recency.
Variable parse_date : jsstring -> option Z.

Definition daysSinceUpload (now : Z) (uploadDate : jsstring) : option Z :=
  match parse_date uploadDate with
  | Some uploadTime => Some ((now - uploadTime) / (1000 * 60 * 60 * 24))%Z
  | None => None
  end.

(** [getRecencyBonus(uploadDate)]: every comparison with [NaN] fails. *)
Definition getRecencyBonus (now : Z) (uploadDate : jsstring) : Z :=
  match daysSinceUpload now uploadDate with
  | Some days =>
      if (days <=? 7)%Z then 50
      else if (days <=? 30)%Z then 30
      else if (days <=? 90)%Z then 15
      else if (days <=? 180)%Z then 5
      else 0
  | None => 0
  end%Z.

End Recency.

End TypesHelpers.

(** ** The engine on the excerpt

    [filterResults] with the helpers for synonyms, phrases and recency that
    it imports from [lib/types], the excerpt of the character database and
    of date parsing, and the order of code units for [localeCompare]: the
    two agree on texts of lower-case ASCII letters, digits and spaces. *)

Module SearchInstance.
Import SearchEngine.

Fixpoint unit_order (a b : jsstring) : Z :=
  match a, b with
  | [], [] => 0
  | [], _ :: _ => -1
  | _ :: _, [] => 1
  | x :: a', y :: b' =>
      if (x <? y)%N then -1 else if (y <? x)%N then 1 else unit_order a' b'
  end%Z.

Definition recency (now : Z) (uploadDate : jsstring) : Z :=
  TypesHelpers.getRecencyBonus DateExcerpt.parse now uploadDate.

Abbreviation filterResults :=
  (SearchEngine.filterResults Excerpt.db excerpt_canonicalize unit_order
     TypesHelpers.extractExactPhrases
     (TypesHelpers.checkExactPhrases Excerpt.db)
     (TypesHelpers.expandSearchTermsWithSynonyms Excerpt.db) recency).

(** The caches of a freshly loaded module. *)
Definition fresh : caches :=
  mkCaches ∅ (LruCache.mk ∅ (LruCache.Finite 5000) true [] []).

(** A record as a catalog file has it. *)
Definition record (title source uploadDate : string) : DownloadType :=
  mkDownload (js "1 GB") (js uploadDate) [] (js title) (Some (js source))
    None None None None None.

(** The records of the test suite of the repository. *)
Definition baseDownloads : list (positive * DownloadType) :=
  [ (1%positive, record "Skyrim Special Edition" "GOG" "2020-01-01");
    (2%positive, record "No Man’s Sky" "GOG" "2020-01-02");
    (3%positive, record "Star Wars" "GOG" "2020-01-03");
    (4%positive, record "Sea of Stars" "GOG" "2020-01-04") ].

Definition titles (r : option (caches * list (positive * DownloadType)))
    : option (list jsstring) :=
  option_map (fun '(_, l) => map (fun x => title (snd x)) l) r.

End SearchInstance.

(** ** [lib/loader]: loading the sources

    [loadSingleSource] is asynchronous: between two of its [await]s other
    calls run.  A call is modelled as a thread that advances by one step
    from an [await] to the next; what the awaited operation delivers, and
    the reading of the clock during the step, are the input of the step.
    The module-level sets, the record of failures, and the store of the
    URL cache are shared by all calls; a look-up in the URL cache is taken
    as a whole at the step that receives its result.  The calls made to the network and
    to the callbacks are recorded in the order in which they happen; the
    callbacks are taken to return normally. *)

Module SourceLoader.

Definition FAILED_URL_RETRY_MS : Z := 10 * 60 * 1000.

Inductive event :=
  | LoadStart                                  (* callbacks.onLoadStart?.() *)
  | LoadEnd                                    (* callbacks.onLoadEnd?.() *)
  | Fetch (url : list N)                       (* fetchWithTimeout(url) *)
  | AddData (data : GogData) (url : list N)    (* callbacks.onAddData(data, url) *)
  | Error.                                     (* callbacks.onError?.(err) *)

Record state := mkState {
  processedUrlLoads : gset (list N);
  recentlyRemovedUrls : gset (list N);
  failedUrlAt : gmap (list N) Z;
  urlCache : UrlCache.store;
  events : list event
}.

(** [failedUrlAt[url]] on the plain object: an own number, a property
    inherited from [Object.prototype], or [undefined]. *)
Inductive failure := Number (t : Z) | Inherited | Undefined.

Definition failed_lookup (m : gmap (list N) Z) (url : list N) : failure :=
  match m !! url with
  | Some t => Number t
  | None =>
      if bool_decide (url ∈ SearchSynonyms.object_prototype_names)
      then Inherited else Undefined
  end.

(** [failedUrlAt[url] = now]; assigning a number to [__proto__] creates no
    property. *)
Definition failed_record (m : gmap (list N) Z) (url : list N) (now : Z)
    : gmap (list N) Z :=
  if Js.eqb url (js "__proto__") then m else <[url := now]> m.

(** [lastFailed && Date.now() - lastFailed < FAILED_URL_RETRY_MS]: an
    inherited property is truthy, and the difference is then [NaN]. *)
Definition backing_off (lastFailed : failure) (now : Z) : bool :=
  match lastFailed with
  | Number t => negb (t =? 0)%Z && (now - t <? FAILED_URL_RETRY_MS)%Z
  | Inherited | Undefined => false
  end.

(** What the network delivers: the outcome of [fetchWithTimeout], and what
    the text of an [ok] response is to [trim().startsWith("<")],
    [JSON.parse] and [isValidGogData]. *)
Inductive response := Rejected | NotOk | Ok.
Inductive body := NonJson | ParseError | NotGogData | Json (data : GogData).

Record input := mkInput {
  now : Z;               (* Date.now() during the step *)
  fault : bool;          (* the store of the URL cache reports an error *)
  arrived : response;
  text : body
}.

(** Where a call stands. *)
Inductive pc :=
  | Start
  | AwaitCache                     (* await getCachedUrl(url) *)
  | AwaitFetch                     (* await fetchWithTimeout(url) *)
  | AwaitText                      (* await res.text().catch(() => "") *)
  | AwaitStore (json : GogData)    (* await cacheUrlData(url, json) *)
  | Done.

Record thread := mkThread {
  t_name : jsstring;       (* source?.name || "" *)
  t_url : list N;          (* source.url *)
  at_ : pc
}.

Definition move (t : thread) (p : pc) : thread := mkThread (t_name t) (t_url t) p.

Definition emit (g : state) (e : event) : state :=
  mkState (processedUrlLoads g) (recentlyRemovedUrls g) (failedUrlAt g) (urlCache g)
    (events g ++ [e]).

Definition fail (g : state) (url : list N) (now : Z) : state :=
  mkState (processedUrlLoads g) (recentlyRemovedUrls g)
    (failed_record (failedUrlAt g) url now) (urlCache g) (events g).

Definition deliver (g : state) (db : UrlCache.store) (data : GogData) (url : list N)
    : state :=
  mkState ({[url]} ∪ processedUrlLoads g) (recentlyRemovedUrls g) (failedUrlAt g) db
    (events g ++ [AddData data url]).

(** The part of a call that runs at once: up to the first [await]. *)
Definition enter (g : state) (t : thread) : thread :=
  if bool_decide (t_url t ∈ processedUrlLoads g) then move t Done else move t AwaitCache.

(** One step of a call. *)
Definition step (g : state) (t : thread) (i : input) : state * thread :=
  let url := t_url t in
  match at_ t with
  | Start => (g, enter g t)
  | AwaitCache =>
      let '(db, cached) := UrlCache.getCachedUrl (urlCache g) (fault i) (now i) url in
      match cached with
      | Some data => (deliver g db data url, move t Done)
      | None =>
          let g :=
            mkState (processedUrlLoads g) (recentlyRemovedUrls g) (failedUrlAt g) db
              (events g) in
          if backing_off (failed_lookup (failedUrlAt g) url) (now i)
          then (g, move t Done)
          else if bool_decide (url ∈ recentlyRemovedUrls g)
                  || bool_decide (t_name t ∈ recentlyRemovedUrls g)
          then (g, move t Done)
          else (emit g (Fetch url), move t AwaitFetch)
      end
  | AwaitFetch =>
      match arrived i with
      | Rejected => (emit (fail g url (now i)) Error, move t Done)
      | NotOk => (fail g url (now i), move t Done)
      | Ok => (g, move t AwaitText)
      end
  | AwaitText =>
      match text i with
      | NonJson => (fail g url (now i), move t Done)
      | ParseError => (emit (fail g url (now i)) Error, move t Done)
      | NotGogData => (fail g url (now i), move t Done)
      | Json json => (g, move t (AwaitStore json))
      end
  | AwaitStore json =>
      (deliver g (UrlCache.cacheUrlData (urlCache g) (fault i) (now i) url json) json url,
       move t Done)
  | Done => (g, t)
  end.

(** Calls in progress advance in the order of a schedule: [(k, i)] lets
    call [k] take a step with input [i]. *)
Fixpoint run (g : state) (ts : list thread) (schedule : list (nat * input))
    : state * list thread :=
  match schedule with
  | [] => (g, ts)
  | (k, i) :: rest =>
      match ts !! k with
      | Some t => let '(g', t') := step g t i in run g' (<[k := t']> ts) rest
      | None => run g ts rest
      end
  end.

(** [loadSingleSource(source, callbacks)] awaited on its own: the call
    takes its steps, of which there are five at most, one after the other;
    [inputs k] is the input of step [k]. *)
Definition call_of (source : GogSourcesStoreItem) : thread :=
  mkThread (s_name source) (s_url source) Start.

Definition loadSingleSource (g : state) (source : GogSourcesStoreItem)
    (inputs : nat -> input) : state :=
  fst (run g [call_of source] (map (fun k => (0%nat, inputs k)) (seq 0 5))).

(** [markSourceAsRemoved(sourceName, url?)] *)
Definition markSourceAsRemoved (g : state) (sourceName : jsstring)
    (url : option jsstring) : state :=
  match url with
  | Some ((_ :: _) as url) =>
      mkState ({[url]} ∪ processedUrlLoads g)
        ({[sourceName]} ∪ ({[url]} ∪ recentlyRemovedUrls g))
        (failedUrlAt g) (urlCache g) (events g)
  | _ =>
      mkState (processedUrlLoads g) ({[sourceName]} ∪ recentlyRemovedUrls g)
        (failedUrlAt g) (urlCache g) (events g)
  end.

(** [isSourceProcessed(url)] and [markSourceAsProcessed(url)] *)
Definition isSourceProcessed (g : state) (url : jsstring) : bool :=
  bool_decide (url ∈ processedUrlLoads g).

Definition markSourceAsProcessed (g : state) (url : jsstring) : state :=
  mkState ({[url]} ∪ processedUrlLoads g) (recentlyRemovedUrls g) (failedUrlAt g)
    (urlCache g) (events g).

(** Loader operations awaited one after the other. *)
Inductive operation :=
  | Load (source : GogSourcesStoreItem) (inputs : nat -> input)
  | Remove (sourceName : jsstring) (url : option jsstring)
  | Processed (url : jsstring).

Definition perform (g : state) (o : operation) : state :=
  match o with
  | Load source inputs => loadSingleSource g source inputs
  | Remove sourceName url => markSourceAsRemoved g sourceName url
  | Processed url => markSourceAsProcessed g url
  end.

Definition exec (g : state) (ops : list operation) : state := fold_left perform ops g.

(** The state of a freshly loaded module, over a given store. *)
Definition initial (db : UrlCache.store) : state := mkState ∅ ∅ ∅ db [].

(** [loadSources(sources, callbacks)]: the calls for the sources of type
    [url] are all started before any of them continues; they then advance
    as the schedule says, and [onLoadEnd] is called once all are done. *)
Definition is_url_source (s : GogSourcesStoreItem) : bool :=
  match s_type s with url_source => true | file_source => false end.

Definition is_done (t : thread) : bool :=
  match at_ t with Done => true | _ => false end.

Definition loadSources (g : state) (sources : list GogSourcesStoreItem)
    (schedule : list (nat * input)) : state * list thread :=
  match sources with
  | [] => (g, [])
  | _ =>
      let g := emit g LoadStart in
      let calls := map (fun s => enter g (call_of s)) (List.filter is_url_source sources) in
      let '(g, calls) := run g calls schedule in
      (if forallb is_done calls then emit g LoadEnd else g, calls)
  end.

(** The URLs handed to [onAddData], in order. *)
Definition delivered (es : list event) : list (list N) :=
  omap (fun e => match e with AddData _ url => Some url | _ => None end) es.

Definition fetched (es : list event) : list (list N) :=
  omap (fun e => match e with Fetch url => Some url | _ => None end) es.

(** How often a URL was handed to [onAddData], and how many calls for it
    are not done. *)
Definition deliveries (u : list N) (es : list event) : nat :=
  length (List.filter (fun v => bool_decide (v = u)) (delivered es)).

Definition pend (u : list N) (t : thread) : nat :=
  if bool_decide (t_url t = u) && negb (is_done t) then 1 else 0.

Definition pending (u : list N) (ts : list thread) : nat :=
  length (List.filter (fun t => bool_decide (t_url t = u) && negb (is_done t)) ts).

(** Every delivered URL is marked processed, and none was delivered
    twice. *)
Definition once (g : state) : Prop :=
  NoDup (delivered (events g))
  /\ forall u, u ∈ delivered (events g) -> u ∈ processedUrlLoads g.

(** A call under way is for a URL that is not processed yet. *)
Definition under_way (g : state) (t : thread) : Prop :=
  at_ t <> Start -> at_ t <> Done -> t_url t ∉ processedUrlLoads g.

(** The network serves every call for the URL: the response is [ok] and
    its text is a valid catalog. *)
Definition served (u : list N) (ts : list thread) (schedule : list (nat * input)) : Prop :=
  forall k i t, In (k, i) schedule -> ts !! k = Some t -> t_url t = u ->
    arrived i = Ok /\ exists d, text i = Json d.

End SourceLoader.

(** ** [hooks/use-data-state]: the store of catalogs

    The store holds the catalogs in memory and the list of saved sources.
    The upload of a catalog that came from a file is asynchronous: it is
    started by [addGogData] and settles later, in a step of its own.
    Notifications, logging and the calls to the server have no effect on
    the store and are left out. *)

Module DataState.

Definition MAX_GOG_SOURCES : nat := 50.
Definition MAX_DOWNLOADS_PER_SOURCE : nat := 200.

Record store := mkStore {
  gogData : list GogData;
  savedSources : list GogSourcesStoreItem;
  uploadInProgress : gset (list N)
}.

(** [uris.join(' ')] *)
Fixpoint join_space (l : list jsstring) : jsstring :=
  match l with
  | [] => []
  | [x] => x
  | x :: r => x ++ [SP] ++ join_space r
  end.

(** [newGogData.slice(-MAX_GOG_SOURCES)] when the list is longer than
    [MAX_GOG_SOURCES] *)
Definition cap {A} (l : list A) : list A :=
  if (MAX_GOG_SOURCES <? length l)%nat then drop (length l - MAX_GOG_SOURCES) l else l.

(** [[...gogData.filter((g) => g.name !== pruned.name), pruned]], capped *)
Definition put (gogData : list GogData) (pruned : GogData) : list GogData :=
  cap (List.filter (fun g => negb (Js.eqb (name g) (name pruned))) gogData ++ [pruned]).

(** [list.findIndex(p)] *)
Fixpoint findIndex {A} (p : A -> bool) (l : list A) : option nat :=
  match l with
  | [] => None
  | x :: r => if p x then Some 0%nat else option_map S (findIndex p r)
  end.

Section WithUcd.
Variable U : ucd.

(** The record [normalizeGogData] makes of a download of the catalog
    named [src_name]. *)
Definition normalize_download (src_name : jsstring) (dl : DownloadType) : DownloadType :=
  mkDownload (fileSize dl) (uploadDate dl) (uris dl) (title dl) (source dl)
    (Some (Utils.normalizeText U (Some (title dl))))
    (Some (Utils.normalizeText U
             (Some (match source dl with Some s => s | None => src_name end))))
    (Some (Utils.normalizeText U (Some (join_space (uris dl)))))
    (Some (DataStateSize.parseFileSize (fileSize dl)))
    None.

(** [normalizeGogData(src)] *)
Definition normalizeGogData (src : GogData) : GogData :=
  mkGog (name src)
    (map (normalize_download (name src)) (take MAX_DOWNLOADS_PER_SOURCE (downloads src))).

(** The second pass over the downloads of a catalog that came from a URL. *)
Definition sanitize_download (dl : DownloadType) : DownloadType :=
  let cleanedTitle := DataStateSanitize.sanitizeForNormalization (Some (title dl)) in
  let cleanedUris := DataStateSanitize.sanitizeForNormalization (Some (join_space (uris dl))) in
  mkDownload (fileSize dl) (uploadDate dl) (uris dl) (title dl) (source dl)
    (Some (Utils.normalizeText U (Some cleanedTitle)))
    (sourceNormalized dl)
    (Some (Utils.normalizeText U (Some cleanedUris)))
    (fileSizeBytes dl) (ingestionSource dl).

Definition tag (sourceTag : jsstring) (dl : DownloadType) : DownloadType :=
  mkDownload (fileSize dl) (uploadDate dl) (uris dl) (title dl) (source dl)
    (titleNormalized dl) (sourceNormalized dl) (urisNormalized dl) (fileSizeBytes dl)
    (Some sourceTag).

(** The catalog [addGogData] stores: normalised, sanitised when it came
    from a URL, and tagged. *)
Definition pruned (data : GogData) (sourceUrl : option jsstring) : GogData :=
  let prunedData := normalizeGogData data in
  match sourceUrl with
  | Some (_ :: _) =>
      mkGog (name prunedData)
        (map (tag (js "url")) (map sanitize_download (downloads prunedData)))
  | _ => mkGog (name prunedData) (map (tag (js "file")) (downloads prunedData))
  end.

(** [addGogData(data, sourceUrl?)]; [lastUpdated] is
    [new Date().toISOString()] at the time of the call.  For a catalog
    from a file the upload is left in progress. *)
Definition addGogData (st : store) (lastUpdated : jsstring) (data : GogData)
    (sourceUrl : option jsstring) : store :=
  if bool_decide (name data ∈ uploadInProgress st) then st
  else
    let prunedData := pruned data sourceUrl in
    let newGogData := put (gogData st) prunedData in
    match sourceUrl with
    | Some ((_ :: _) as url) =>
        let meta := mkSource (name prunedData) url url_source lastUpdated None in
        let newSaved :=
          match findIndex (fun s => Js.eqb (s_url s) url) (savedSources st) with
          | None => savedSources st ++ [meta]
          | Some idx => <[idx := meta]> (savedSources st)
          end in
        mkStore newGogData newSaved (uploadInProgress st)
    | _ =>
        let meta := mkSource (name prunedData) [] file_source lastUpdated None in
        let newSaved :=
          match findIndex
                  (fun s => Js.eqb (s_name s) (name prunedData)
                            && match s_type s with file_source => true | _ => false end)
                  (savedSources st) with
          | None => savedSources st ++ [meta]
          | Some idx => <[idx := meta]> (savedSources st)
          end in
        mkStore newGogData newSaved ({[name data]} ∪ uploadInProgress st)
    end.

(** The upload started for the catalog [name] settles: with the identifier
    the server gave it, or with a failure ([None]). *)
Definition upload_settled (st : store) (name : jsstring) (id : option jsstring) : store :=
  mkStore (gogData st)
    (match id with
     | Some id =>
         map (fun ss =>
                if Js.eqb (s_name ss) name
                then mkSource (s_name ss) (s_url ss) (s_type ss) (s_lastUpdated ss) (Some id)
                else ss)
           (savedSources st)
     | None => savedSources st
     end)
    (uploadInProgress st ∖ {[name]}).

(** [removeSource(sourceName)], as far as the store goes *)
Definition removeSource (st : store) (sourceName : jsstring) : store :=
  mkStore (List.filter (fun g => negb (Js.eqb (name g) sourceName)) (gogData st))
    (List.filter (fun s => negb (Js.eqb (s_name s) sourceName)) (savedSources st))
    (uploadInProgress st).

(** [loadSavedSource(id)]: [data] is what the server sent, [None] when
    the download failed. *)
Definition loadSavedSource (st : store) (data : option GogData) : store :=
  match data with
  | None => st
  | Some data =>
      let pruned := normalizeGogData data in
      let pruned := mkGog (name pruned) (map (tag (js "file")) (downloads pruned)) in
      mkStore (put (gogData st) pruned) (savedSources st) (uploadInProgress st)
  end.

(** The operations on the store. *)
Inductive operation :=
  | Add (lastUpdated : jsstring) (data : GogData) (sourceUrl : option jsstring)
  | Settled (name : jsstring) (id : option jsstring)
  | Remove_ (sourceName : jsstring)
  | LoadSaved (data : option GogData).

Definition perform (st : store) (o : operation) : store :=
  match o with
  | Add lastUpdated data sourceUrl => addGogData st lastUpdated data sourceUrl
  | Settled name id => upload_settled st name id
  | Remove_ sourceName => removeSource st sourceName
  | LoadSaved data => loadSavedSource st data
  end.

Definition exec (st : store) (ops : list operation) : store := fold_left perform ops st.

End WithUcd.

(** The store before anything was added. *)
Definition empty : store := mkStore [] [] ∅.

(** What identifies a saved source: its URL when it is of type [url], its
    name when it is of type [file]. *)
Definition source_key (s : GogSourcesStoreItem) : jsstring + jsstring :=
  match s_type s with
  | url_source => inl (s_url s)
  | file_source => inr (s_name s)
  end.

Definition saved_ok (l : list GogSourcesStoreItem) : Prop :=
  NoDup (map source_key l)
  /\ (forall s, In s l -> s_type s = file_source -> s_url s = []).

(** The saved sources without their time stamps. *)
Definition untimed (s : GogSourcesStoreItem) : jsstring * jsstring * source_type * option jsstring :=
  (s_name s, s_url s, s_type s, s_serverId s).

End DataState.

(* ===================================================================== *)
(** * Part II: properties                                                 *)
(* ===================================================================== *)

(** ** [normalizeText] on the documented examples *)

Example normalizeText_baldur :
  Utils.normalizeText Excerpt.db (Some (js "Baldur's Gate 3")) = js "baldurs gate 3".
Proof. vm_compute. reflexivity. Qed.

Example normalizeText_pokemon :
  Utils.normalizeText Excerpt.db (Some (js "Pokémon")) = js "pokemon".
Proof. vm_compute. reflexivity. Qed.

Example normalizeText_witcher :
  Utils.normalizeText Excerpt.db (Some (js "The-Witcher_3")) = js "the witcher 3".
Proof. vm_compute. reflexivity. Qed.

Example normalizeText_god_of_war :
  Utils.normalizeText Excerpt.db (Some (js "God of War™")) = js "god of war".
Proof. vm_compute. reflexivity. Qed.

(** ** Code units and code points *)

Section CodePoints.
Local Open Scope N_scope.

Lemma code_points_cons2 h l t :
  code_points (h :: l :: t) =
  if is_high h && is_low l then pair_cp h l :: code_points t
  else h :: code_points (l :: t).
Proof. reflexivity. Qed.

Lemma of_code_points_app a b :
  of_code_points (a ++ b) = of_code_points a ++ of_code_points b.
Proof. unfold of_code_points. apply flat_map_app. Qed.

Lemma of_code_points_cons c l :
  of_code_points (c :: l) = encode_cp c ++ of_code_points l.
Proof. reflexivity. Qed.

Lemma is_scalar_cases c :
  is_scalar c = true ->
  (c < 0x10000 /\ is_surrogate c = false /\ encode_cp c = [c])
  \/ (0x10000 <= c /\ exists h l, encode_cp c = [h; l] /\ is_high h = true
      /\ is_low l = true /\ pair_cp h l = c).
Proof.
  unfold is_scalar, is_surrogate, encode_cp. intros H.
  apply andb_true_iff in H as [Hlt Hs]. apply N.ltb_lt in Hlt.
  destruct (c <? 0x10000) eqn:E.
  - left. apply N.ltb_lt in E. split; [exact E|]. split; [|reflexivity].
    now apply negb_true_iff in Hs.
  - right. apply N.ltb_ge in E. split; [exact E|].
    eexists _, _. split; [reflexivity|].
    assert (Hd : (c - 0x10000) / 0x400 < 0x400).
    { apply N.Div0.div_lt_upper_bound. lia. }
    assert (Hm : (c - 0x10000) mod 0x400 < 0x400) by (apply N.mod_lt; lia).
    pose proof (N.div_mod (c - 0x10000) 0x400 ltac:(lia)) as Hdm.
    unfold is_high, is_low, pair_cp.
    generalize dependent ((c - 0x10000) mod 0x400).
    generalize dependent ((c - 0x10000) / 0x400). intros q Hq r Hr Hdm.
    repeat split.
    + apply andb_true_iff; split; apply N.leb_le; lia.
    + apply andb_true_iff; split; apply N.leb_le; lia.
    + lia.
Qed.

Lemma code_points_of_code_points l :
  forallb is_scalar l = true -> code_points (of_code_points l) = l.
Proof.
  induction l as [|a l IH]; [reflexivity|].
  intros H. cbn [forallb] in H. apply andb_true_iff in H as [Ha Hl]. specialize (IH Hl).
  rewrite of_code_points_cons.
  destruct (is_scalar_cases a Ha) as [(Hlt & Hs & ->)|(Hge & h & lo & -> & Hh & Hlo & Hp)].
  - simpl app. destruct (of_code_points l) as [|u t] eqn:E.
    + simpl in *. now rewrite <- IH.
    + rewrite code_points_cons2.
      assert (is_high a = false) as ->.
      { unfold is_high, is_surrogate in *. apply andb_false_iff in Hs.
        apply andb_false_iff. destruct Hs as [Hs|Hs]; [left; exact Hs|].
        right. apply N.leb_gt in Hs. apply N.leb_gt. lia. }
      cbn [andb]. now rewrite IH.
  - simpl app. rewrite code_points_cons2, Hh, Hlo. simpl. now rewrite Hp, IH.
Qed.

Lemma of_code_points_units l :
  forallb is_scalar l = true ->
  forallb (fun u => u <? 0x10000) (of_code_points l) = true.
Proof.
  induction l as [|a l IH]; [reflexivity|].
  intros H. cbn [forallb] in H. apply andb_true_iff in H as [Ha Hl]. specialize (IH Hl).
  rewrite of_code_points_cons, forallb_app, IH, andb_true_r.
  destruct (is_scalar_cases a Ha) as [(Hlt & Hs & ->)|(Hge & h & lo & -> & Hh & Hlo & Hp)].
  - simpl. rewrite andb_true_r. now apply N.ltb_lt.
  - unfold is_high, is_low in *. simpl. rewrite andb_true_r.
    apply andb_true_iff in Hh as [_ Hh], Hlo as [_ Hlo].
    apply N.leb_le in Hh, Hlo. apply andb_true_iff; split; apply N.ltb_lt; lia.
Qed.

Lemma well_formed_of_code_points l :
  forallb is_scalar l = true -> well_formed (of_code_points l) = true.
Proof.
  intros H. unfold well_formed.
  now rewrite of_code_points_units, code_points_of_code_points.
Qed.

Lemma high_low_surrogate h l :
  is_high h = true -> is_low l = true ->
  is_surrogate h = true /\ is_surrogate l = true.
Proof.
  unfold is_high, is_low, is_surrogate. intros H1 H2.
  apply andb_true_iff in H1 as [A B], H2 as [C D].
  apply N.leb_le in A, B, C, D.
  split; apply andb_true_iff; split; apply N.leb_le; lia.
Qed.

Lemma filter_of_code_points p l :
  bmp_pred p -> forallb is_scalar l = true ->
  List.filter (fun u => negb (p u)) (of_code_points l)
  = of_code_points (List.filter (fun u => negb (p u)) l).
Proof.
  intros [Hs Ha]. induction l as [|a l IH]; [reflexivity|].
  intros H. cbn [forallb] in H. apply andb_true_iff in H as [Hsc Hl]. specialize (IH Hl).
  rewrite of_code_points_cons, List.filter_app, IH.
  destruct (is_scalar_cases a Hsc) as [(Hlt & Hsu & He)|(Hge & h & lo & He & Hh & Hlo & Hp)];
    rewrite He; cbn [List.filter].
  - destruct (p a); cbn [negb app]; [reflexivity|].
    now rewrite of_code_points_cons, He.
  - destruct (high_low_surrogate _ _ Hh Hlo) as [S1 S2].
    rewrite (Hs _ S1), (Hs _ S2), (Ha _ Hge). cbn [negb app].
    now rewrite of_code_points_cons, He.
Qed.

Lemma replace_runs_of_code_points p b l :
  bmp_pred p -> forallb is_scalar l = true ->
  replace_runs p [SP] b (of_code_points l)
  = of_code_points (replace_runs p [SP] b l).
Proof.
  intros [Hs Ha]. revert b. induction l as [|a l IH]; [reflexivity|].
  intros b H. cbn [forallb] in H. apply andb_true_iff in H as [Hsc Hl].
  rewrite of_code_points_cons.
  destruct (is_scalar_cases a Hsc) as [(Hlt & Hsu & He)|(Hge & h & lo & He & Hh & Hlo & Hp)];
    rewrite He; cbn [replace_runs app].
  - destruct (p a).
    + rewrite of_code_points_app, IH by exact Hl. now destruct b.
    + now rewrite of_code_points_cons, He, IH.
  - destruct (high_low_surrogate _ _ Hh Hlo) as [S1 S2].
    rewrite (Hs _ S1), (Hs _ S2), (Ha _ Hge).
    now rewrite of_code_points_cons, He, IH.
Qed.

Lemma is_space_bmp : bmp_pred is_space.
Proof.
  split; intros u Hu.
  - unfold is_surrogate in Hu. apply andb_true_iff in Hu as [A B].
    apply N.leb_le in A, B. unfold is_space.
    repeat (apply orb_false_iff; split);
      try (apply N.eqb_neq; lia);
      apply andb_false_iff; ((left; apply N.leb_gt; lia) || (right; apply N.leb_gt; lia)).
  - unfold is_space.
    repeat (apply orb_false_iff; split);
      try (apply N.eqb_neq; lia);
      apply andb_false_iff; ((left; apply N.leb_gt; lia) || (right; apply N.leb_gt; lia)).
Qed.

Lemma trim_start_of_code_points l :
  forallb is_scalar l = true ->
  trim_start (of_code_points l) = of_code_points (trim_start l).
Proof.
  destruct is_space_bmp as [Hs Ha].
  induction l as [|a l IH]; [reflexivity|].
  intros H. cbn [forallb] in H. apply andb_true_iff in H as [Hsc Hl].
  rewrite of_code_points_cons.
  destruct (is_scalar_cases a Hsc) as [(Hlt & Hsu & He)|(Hge & h & lo & He & Hh & Hlo & Hp)];
    rewrite He; cbn [trim_start app].
  - destruct (is_space a); [now apply IH|].
    now rewrite of_code_points_cons, He.
  - destruct (high_low_surrogate _ _ Hh Hlo) as [S1 S2].
    rewrite (Hs _ S1), (Ha _ Hge). now rewrite of_code_points_cons, He.
Qed.

Lemma of_code_points_nil_inv l : of_code_points l = [] -> l = [].
Proof.
  destruct l as [|a l]; [reflexivity|]. rewrite of_code_points_cons.
  unfold encode_cp. destruct (a <? 0x10000); discriminate.
Qed.

Lemma trim_end_of_code_points l :
  forallb is_scalar l = true ->
  trim_end (of_code_points l) = of_code_points (trim_end l).
Proof.
  destruct is_space_bmp as [Hs Ha].
  induction l as [|a l IH]; [reflexivity|].
  intros H. cbn [forallb] in H. apply andb_true_iff in H as [Hsc Hl].
  specialize (IH Hl). rewrite of_code_points_cons.
  destruct (is_scalar_cases a Hsc) as [(Hlt & Hsu & He)|(Hge & h & lo & He & Hh & Hlo & Hp)];
    rewrite He; cbn [trim_end app]; rewrite IH.
  - destruct (trim_end l) as [|d r] eqn:E.
    + cbn [of_code_points flat_map]. destruct (is_space a); [reflexivity|].
      now rewrite of_code_points_cons, He.
    + destruct (of_code_points (d :: r)) eqn:E2.
      * apply of_code_points_nil_inv in E2. discriminate.
      * rewrite <- E2. now rewrite (of_code_points_cons a), He.
  - destruct (high_low_surrogate _ _ Hh Hlo) as [S1 S2].
    destruct (trim_end l) as [|d r] eqn:E.
    + cbn [of_code_points flat_map]. rewrite (Hs _ S2), (Ha _ Hge).
      now rewrite of_code_points_cons, He.
    + destruct (of_code_points (d :: r)) eqn:E2.
      * apply of_code_points_nil_inv in E2. discriminate.
      * rewrite <- E2. now rewrite (of_code_points_cons a), He.
Qed.

End CodePoints.
(** ** Membership through the stages of normalisation *)

Section ListStages.
Local Open Scope N_scope.

Lemma replace_runs_in p sub b l d :
  In d (replace_runs p sub b l) -> In d sub \/ (In d l /\ p d = false).
Proof.
  revert b. induction l as [|c r IH]; intros b; cbn [replace_runs]; [intros []|].
  destruct (p c) eqn:E.
  - rewrite in_app_iff. intros [H|H].
    + destruct b; [destruct H|now left].
    + destruct (IH _ H) as [?|[? ?]]; [now left|right; split; [now right|assumption]].
  - intros [<-|H]; [right; split; [now left|assumption]|].
    destruct (IH _ H) as [?|[? ?]]; [now left|right; split; [now right|assumption]].
Qed.

Lemma replace_runs_none p sub b l :
  (forall c, In c l -> p c = false) -> replace_runs p sub b l = l.
Proof.
  revert b. induction l as [|c r IH]; intros b H; [reflexivity|].
  cbn [replace_runs]. rewrite (H c (or_introl eq_refl)).
  f_equal. apply IH. intros d Hd. apply H. now right.
Qed.

Lemma replace_runs_flag p sub l :
  match l with d :: _ => p d = false | [] => True end ->
  replace_runs p sub true l = replace_runs p sub false l.
Proof. destruct l as [|d r]; [reflexivity|]. cbn [replace_runs]. now intros ->. Qed.

Lemma trim_start_in l d : In d (trim_start l) -> In d l.
Proof.
  induction l as [|c r IH]; [intros []|]. cbn [trim_start].
  destruct (is_space c); [intros H; right; now apply IH|trivial].
Qed.

Lemma trim_end_in l d : In d (trim_end l) -> In d l.
Proof.
  induction l as [|c r IH]; [intros []|]. cbn [trim_end].
  destruct (trim_end r) as [|e r'].
  - destruct (is_space c); [intros []|intros [<-|[]]; now left].
  - intros [<-|H]; [now left|right; now apply IH].
Qed.

Lemma trim_in l d : In d (trim l) -> In d l.
Proof. intros H. now apply trim_start_in, trim_end_in. Qed.

Lemma trim_start_head l :
  match trim_start l with d :: _ => is_space d = false | [] => True end.
Proof.
  induction l as [|c r IH]; [exact I|]. cbn [trim_start].
  destruct (is_space c) eqn:E; [exact IH|exact E].
Qed.

Lemma trim_start_fixed l :
  match l with d :: _ => is_space d = false | [] => True end -> trim_start l = l.
Proof. destruct l as [|d r]; [reflexivity|]. cbn [trim_start]. now intros ->. Qed.

Lemma trim_end_head c r :
  is_space c = false -> exists r', trim_end (c :: r) = c :: r'.
Proof.
  intros H. cbn [trim_end]. destruct (trim_end r); rewrite ?H; eauto.
Qed.

Lemma trim_end_cons_inv l d r' : trim_end l = d :: r' -> exists r, l = d :: r.
Proof.
  destruct l as [|c r]; [discriminate|]. cbn [trim_end].
  destruct (trim_end r); [destruct (is_space c); [discriminate|]|];
    intros [= <- _]; eauto.
Qed.

Lemma trim_end_idempotent l : trim_end (trim_end l) = trim_end l.
Proof.
  induction l as [|c r IH]; [reflexivity|]. cbn [trim_end].
  destruct (trim_end r) as [|d r'] eqn:E.
  - destruct (is_space c) eqn:Ec; [reflexivity|]. cbn [trim_end]. now rewrite Ec.
  - change (trim_end (c :: d :: r')) with
      (match trim_end (d :: r') with [] => if is_space c then [] else [c] | x => c :: x end).
    now rewrite IH.
Qed.

Lemma trim_idempotent l : trim (trim l) = trim l.
Proof.
  unfold trim. pose proof (trim_start_head l) as H.
  destruct (trim_start l) as [|c r]; [reflexivity|].
  destruct (trim_end_head c r H) as [r' E]. rewrite E.
  rewrite trim_start_fixed by exact H. rewrite <- E. apply trim_end_idempotent.
Qed.

Lemma tidy_tail c r : tidy (c :: r) -> tidy r.
Proof. now intros [_ H]. Qed.

Lemma tidy_fixed l : tidy l -> replace_runs is_space [SP] false l = l.
Proof.
  induction l as [|c r IH]; [reflexivity|]. intros [Hc Hr]. specialize (IH Hr).
  cbn [replace_runs]. destruct (is_space c) eqn:E.
  - destruct (Hc eq_refl) as [-> Hd]. cbn [app]. f_equal.
    now rewrite replace_runs_flag.
  - now rewrite IH.
Qed.

Lemma tidy_replace_runs b l :
  tidy (replace_runs is_space [SP] b l)
  /\ (b = true ->
      match replace_runs is_space [SP] b l with
      | d :: _ => is_space d = false | [] => True end).
Proof.
  revert b. induction l as [|c r IH]; intros b; [split; [exact I|intros _; exact I]|].
  cbn [replace_runs]. destruct (is_space c) eqn:E.
  - destruct (IH true) as [Ht Hh]. destruct b; cbn [app].
    + split; [exact Ht|intros _; now apply Hh].
    + split; [|discriminate]. split; [|exact Ht].
      intros _. split; [reflexivity|now apply Hh].
  - destruct (IH false) as [Ht _]. split; [|intros _; exact E].
    split; [|exact Ht]. rewrite E. discriminate.
Qed.

Lemma tidy_trim_start l : tidy l -> tidy (trim_start l).
Proof.
  induction l as [|c r IH]; [trivial|]. intros H. cbn [trim_start].
  destruct (is_space c); [apply IH; now apply tidy_tail in H|exact H].
Qed.

Lemma tidy_trim_end l : tidy l -> tidy (trim_end l).
Proof.
  induction l as [|c r IH]; [trivial|]. intros [Hc Hr]. specialize (IH Hr).
  cbn [trim_end]. destruct (trim_end r) as [|d r'] eqn:E.
  - destruct (is_space c) eqn:Ec; [exact I|]. split; [|exact I].
    rewrite Ec. discriminate.
  - split; [|exact IH]. intros Hs. destruct (Hc Hs) as [-> Hd]. split; [reflexivity|].
    destruct (trim_end_cons_inv _ _ _ E) as [r0 ->]. exact Hd.
Qed.

Lemma filter_fixed (p : N -> bool) l :
  (forall c, In c l -> p c = true) -> List.filter p l = l.
Proof.
  induction l as [|c r IH]; intros H; [reflexivity|]. cbn [List.filter].
  rewrite (H c (or_introl eq_refl)). f_equal. apply IH. intros d Hd. apply H. now right.
Qed.

Lemma flat_map_fixed (f : N -> list N) l :
  (forall c, In c l -> f c = [c]) -> flat_map f l = l.
Proof.
  induction l as [|c r IH]; intros H; [reflexivity|]. cbn [flat_map].
  rewrite (H c (or_introl eq_refl)). cbn [app]. f_equal. apply IH.
  intros d Hd. apply H. now right.
Qed.

End ListStages.

(** ** Case conversion and decomposition under the database laws *)

Section UnicodeStages.
Local Open Scope N_scope.
Variable U : ucd.

Lemma lower_cps_in before l d :
  In d (lower_cps U before l) ->
  d = final_sigma \/ d = small_sigma
  \/ exists c, In c l /\ In d (lower_map U c).
Proof.
  revert before. induction l as [|c r IH]; intros before; [intros []|].
  cbn [lower_cps]. rewrite in_app_iff. intros [H|H].
  - destruct (c =? SIGMA).
    + destruct (_ && _); destruct H as [<-|[]]; auto.
    + right; right. exists c. split; [now left|exact H].
  - destruct (IH _ H) as [?|[?|(c' & ? & ?)]]; auto.
    right; right. exists c'. split; [now right|assumption].
Qed.

Lemma lower_cps_fixed before l :
  (forall c, In c l -> lower_map U c = [c] /\ c <> SIGMA) ->
  lower_cps U before l = l.
Proof.
  revert before. induction l as [|c r IH]; intros before H; [reflexivity|].
  cbn [lower_cps]. destruct (H c (or_introl eq_refl)) as [E Hn].
  apply N.eqb_neq in Hn. rewrite Hn, E. cbn [app]. f_equal.
  apply IH. intros d Hd. apply H. now right.
Qed.

Lemma canonical_insert_in c l d :
  In d (canonical_insert U c l) <-> d = c \/ In d l.
Proof.
  induction l as [|e r IH]; cbn [canonical_insert].
  - split; [intros [<-|[]]; now left|intros [->|[]]; now left].
  - destruct (_ && _); cbn [In]; [rewrite IH|]; intuition congruence.
Qed.

Lemma canonical_fold_in l acc d :
  In d (fold_left (fun a c => canonical_insert U c a) l acc) <-> In d l \/ In d acc.
Proof.
  revert acc. induction l as [|c r IH]; intros acc; cbn [fold_left].
  - intuition. destruct H0.
  - rewrite IH, canonical_insert_in. cbn [In]. intuition congruence.
Qed.

Lemma canonical_order_in l d : In d (canonical_order U l) <-> In d l.
Proof.
  unfold canonical_order. rewrite <- in_rev, canonical_fold_in. cbn [In]. tauto.
Qed.

Lemma canonical_fold_fixed l acc :
  (forall c, In c l -> ccc U c = 0) ->
  fold_left (fun a c => canonical_insert U c a) l acc = rev l ++ acc.
Proof.
  revert acc. induction l as [|c r IH]; intros acc H; [reflexivity|].
  cbn [fold_left rev]. rewrite IH by (intros d Hd; apply H; now right).
  rewrite <- app_assoc. cbn [app]. f_equal.
  assert (E : ccc U c = 0) by (apply H; now left).
  destruct acc as [|e acc]; cbn [canonical_insert]; [reflexivity|].
  now rewrite E.
Qed.

Lemma canonical_order_fixed l :
  (forall c, In c l -> ccc U c = 0) -> canonical_order U l = l.
Proof.
  intros H. unfold canonical_order. rewrite canonical_fold_fixed by exact H.
  now rewrite app_nil_r, rev_involutive.
Qed.

End UnicodeStages.

(** ** [normalizeText] read on code points *)

Section NormalizeText.
Local Open Scope N_scope.
Variable U : ucd.
Hypothesis HU : ucd_laws U.

Lemma is_combining_mark_bmp : bmp_pred Utils.is_combining_mark.
Proof.
  split; intros u Hu; unfold Utils.is_combining_mark.
  - unfold is_surrogate in Hu. apply andb_true_iff in Hu as [A _].
    apply N.leb_le in A. apply andb_false_iff. right. apply N.leb_gt. lia.
  - apply andb_false_iff. right. apply N.leb_gt. lia.
Qed.

Lemma is_dash_bmp : bmp_pred Utils.is_dash.
Proof.
  split; intros u Hu; unfold Utils.is_dash.
  - unfold is_surrogate in Hu. apply andb_true_iff in Hu as [A _].
    apply N.leb_le in A. apply orb_false_iff; split; apply N.eqb_neq; lia.
  - apply orb_false_iff; split; apply N.eqb_neq; lia.
Qed.

Lemma scalar_forall l :
  forallb is_scalar l = true <-> (forall c, In c l -> is_scalar c = true).
Proof. apply forallb_forall. Qed.

Lemma lower_cps_scalar l :
  forallb is_scalar l = true -> forallb is_scalar (lower_cps U [] l) = true.
Proof.
  rewrite !scalar_forall. intros H d Hd.
  destruct (lower_cps_in _ _ _ _ Hd) as [->|[->|(c & Hc & Hdc)]]; [reflexivity..|].
  eapply (lower_scalar U HU); eauto.
Qed.

Lemma decompose_scalar l :
  forallb is_scalar l = true ->
  forallb is_scalar (canonical_order U (flat_map (decomposition U) l)) = true.
Proof.
  rewrite !scalar_forall. intros H d Hd.
  apply canonical_order_in, in_flat_map in Hd as (c & Hc & Hdc).
  eapply (decomposition_scalar U HU); eauto.
Qed.

Lemma filter_scalar (p : N -> bool) l :
  forallb is_scalar l = true -> forallb is_scalar (List.filter p l) = true.
Proof.
  rewrite !scalar_forall. intros H d Hd. apply filter_In in Hd as [Hd _]. auto.
Qed.

Lemma replace_runs_scalar p b l :
  forallb is_scalar l = true ->
  forallb is_scalar (replace_runs p [SP] b l) = true.
Proof.
  rewrite !scalar_forall. intros H d Hd.
  destruct (replace_runs_in _ _ _ _ _ Hd) as [[<-|[]]|[Hl _]]; [reflexivity|auto].
Qed.

Lemma trim_scalar l :
  forallb is_scalar l = true -> forallb is_scalar (trim l) = true.
Proof.
  rewrite !scalar_forall. intros H d Hd. apply H. now apply trim_in.
Qed.

Lemma normalize_cps_scalar xs :
  forallb is_scalar xs = true ->
  forallb is_scalar (Utils.normalize_cps U xs) = true.
Proof.
  intros H. unfold Utils.normalize_cps.
  apply trim_scalar, replace_runs_scalar, filter_scalar, replace_runs_scalar,
    filter_scalar, decompose_scalar, lower_cps_scalar, H.
Qed.

(** On a well-formed string the code-unit pipeline and the code-point
    pipeline compute the same text. *)
Lemma normalizeText_cps x :
  well_formed x = true ->
  Utils.normalizeText U (Some x)
  = of_code_points (Utils.normalize_cps U (code_points x)).
Proof.
  intros Hx. unfold well_formed in Hx. apply andb_true_iff in Hx as [_ Hx].
  destruct x as [|u x']; [reflexivity|].
  set (x := u :: x') in *. unfold Utils.normalizeText.
  change (trim (Utils.collapse_spaces (Utils.remove_symbols U
            (Utils.dashes_to_space (Utils.strip_marks (nfd U (toLowerCase U x))))))
          = of_code_points (Utils.normalize_cps U (code_points x))).
  unfold toLowerCase, nfd.
  pose proof (lower_cps_scalar _ Hx) as H1.
  rewrite code_points_of_code_points by exact H1.
  pose proof (decompose_scalar _ H1) as H2.
  unfold Utils.strip_marks.
  rewrite (filter_of_code_points _ _ is_combining_mark_bmp H2).
  pose proof (filter_scalar (fun u => negb (Utils.is_combining_mark u)) _ H2) as H3.
  unfold Utils.dashes_to_space.
  rewrite (replace_runs_of_code_points _ false _ is_dash_bmp H3).
  pose proof (replace_runs_scalar Utils.is_dash false _ H3) as H4.
  unfold Utils.remove_symbols.
  rewrite code_points_of_code_points by exact H4.
  pose proof (filter_scalar (Utils.is_word_char U) _ H4) as H5.
  unfold Utils.collapse_spaces.
  rewrite (replace_runs_of_code_points _ false _ is_space_bmp H5).
  pose proof (replace_runs_scalar is_space false _ H5) as H6.
  unfold trim at 1.
  rewrite trim_start_of_code_points by exact H6.
  rewrite trim_end_of_code_points
    by (rewrite scalar_forall in *; intros c Hc; apply H6; now apply trim_start_in).
  reflexivity.
Qed.

(** Every code point of a normalised text is a single space or a letter or
    number that case conversion and decomposition leave alone. *)
Lemma normalize_cps_elements xs c :
  In c (Utils.normalize_cps U xs) ->
  (c = SP \/ is_space c = false)
  /\ lower_map U c = [c] /\ c <> SIGMA /\ decomposition U c = [c]
  /\ ccc U c = 0 /\ Utils.is_combining_mark c = false
  /\ Utils.is_dash c = false /\ Utils.is_word_char U c = true.
Proof.
  assert (Hsp : (SP = SP \/ is_space SP = false)
    /\ lower_map U SP = [SP] /\ SP <> SIGMA /\ decomposition U SP = [SP]
    /\ ccc U SP = 0 /\ Utils.is_combining_mark SP = false
    /\ Utils.is_dash SP = false /\ Utils.is_word_char U SP = true).
  { destruct (space_inert U HU) as (A & B & C).
    repeat split; try assumption; try reflexivity; [now left|discriminate|].
    unfold Utils.is_word_char. apply orb_true_iff. now right. }
  unfold Utils.normalize_cps. intros H. apply trim_in in H.
  apply replace_runs_in in H as [[<-|[]]|[H Hns]]; [exact Hsp|].
  apply filter_In in H as [H Hw].
  apply replace_runs_in in H as [[<-|[]]|[H Hnd]]; [exact Hsp|].
  apply filter_In in H as [H Hnm]. apply negb_true_iff in Hnm.
  apply canonical_order_in, in_flat_map in H as (a & Ha & Hca).
  assert (Hln : (is_letter U c || is_number U c) = true).
  { unfold Utils.is_word_char in Hw. rewrite Hns, orb_false_r in Hw. exact Hw. }
  assert (Hlow : lower_map U a = [a] /\ a <> SIGMA).
  { destruct (lower_cps_in _ _ _ _ Ha) as [->|[->|(b & _ & Hb)]].
    - split; [apply (sigma_lower U HU)|discriminate].
    - split; [apply (sigma_lower U HU)|discriminate].
    - eapply (lower_closed U HU); eauto. }
  destruct Hlow as [Hl1 Hl2].
  destruct (decomposition_lower U HU a c Hl1 Hl2 Hca Hln) as [Hc1 Hc2].
  repeat split; auto.
  - eapply (decomposition_full U HU); eauto.
  - now apply (word_starter U HU).
Qed.

Lemma normalize_cps_idempotent xs :
  Utils.normalize_cps U (Utils.normalize_cps U xs) = Utils.normalize_cps U xs.
Proof.
  pose proof (normalize_cps_elements xs) as He.
  assert (Ht : tidy (Utils.normalize_cps U xs)).
  { unfold Utils.normalize_cps, trim.
    apply tidy_trim_end, tidy_trim_start, tidy_replace_runs. }
  assert (Hr : trim (Utils.normalize_cps U xs) = Utils.normalize_cps U xs).
  { unfold Utils.normalize_cps. apply trim_idempotent. }
  set (T := Utils.normalize_cps U xs) in *.
  unfold Utils.normalize_cps.
  rewrite lower_cps_fixed by (intros c Hc; split; apply (He c Hc)).
  rewrite flat_map_fixed by (intros c Hc; apply (He c Hc)).
  rewrite canonical_order_fixed by (intros c Hc; apply (He c Hc)).
  rewrite (filter_fixed (fun c => negb (Utils.is_combining_mark c)))
    by (intros c Hc; apply negb_true_iff; apply (He c Hc)).
  rewrite (replace_runs_none Utils.is_dash) by (intros c Hc; apply (He c Hc)).
  rewrite (filter_fixed (Utils.is_word_char U)) by (intros c Hc; apply (He c Hc)).
  rewrite tidy_fixed by exact Ht.
  exact Hr.
Qed.

End NormalizeText.

(** ** The excerpt satisfies the database laws *)

Section ExcerptLaws.
Local Open Scope N_scope.

Lemma all_from_spec p n a :
  Excerpt.all_from p n a = true ->
  forall c, a <= c -> c < a + N.of_nat n -> p c = true.
Proof.
  revert a. induction n as [|k IH]; intros a H c Hge Hlt; [lia|].
  cbn [Excerpt.all_from] in H. apply andb_true_iff in H as [Ha Hr].
  destruct (N.eq_dec c a) as [->|Hne]; [exact Ha|].
  apply (IH (N.succ a) Hr); lia.
Qed.

Lemma excerpt_checked c : c < Excerpt.bound -> Excerpt.law_check c = true.
Proof.
  intros H.
  apply (all_from_spec Excerpt.law_check (N.to_nat Excerpt.bound) 0);
    [vm_compute; reflexivity|lia|].
  rewrite N2Nat.id. exact H.
Qed.

Lemma in_range_above lo hi c : hi < c -> Excerpt.in_range lo hi c = false.
Proof.
  intros H. unfold Excerpt.in_range. apply andb_false_iff. right.
  apply N.leb_gt. exact H.
Qed.

Lemma excerpt_default c :
  Excerpt.bound <= c ->
  Excerpt.lower_map c = [c] /\ Excerpt.decomposition c = [c]
  /\ Excerpt.ccc c = 0.
Proof.
  unfold Excerpt.bound. intros H.
  unfold Excerpt.lower_map, Excerpt.decomposition, Excerpt.ccc.
  rewrite !in_range_above by lia.
  assert ((c <? 0x460) = false) as -> by (apply N.ltb_ge; lia).
  auto.
Qed.

Lemma single_spec l d : Excerpt.single l d = true <-> l = [d].
Proof.
  unfold Excerpt.single. destruct l as [|e [|? ?]]; try (split; discriminate).
  rewrite N.eqb_eq. split; [now intros ->|now intros [= ->]].
Qed.

Lemma fixed_lower_spec d :
  Excerpt.fixed_lower d = true <-> Excerpt.lower_map d = [d] /\ d <> SIGMA.
Proof.
  unfold Excerpt.fixed_lower.
  rewrite andb_true_iff, single_spec, negb_true_iff, N.eqb_neq. tauto.
Qed.

Lemma excerpt_laws : ucd_laws Excerpt.db.
Proof.
  assert (Hck : forall c, c < Excerpt.bound ->
    (is_scalar c = true ->
       forallb is_scalar (Excerpt.lower_map c) = true
       /\ forallb is_scalar (Excerpt.decomposition c) = true)
    /\ forallb Excerpt.fixed_lower (Excerpt.lower_map c) = true
    /\ forallb (fun d => Excerpt.single (Excerpt.decomposition d) d)
         (Excerpt.decomposition c) = true
    /\ (Excerpt.fixed_lower c = true ->
        forallb (fun d => implb (Excerpt.is_letter d || Excerpt.is_number d)
                            (Excerpt.fixed_lower d))
          (Excerpt.decomposition c) = true)
    /\ ((Excerpt.is_letter c || Excerpt.is_number c) = true -> Excerpt.ccc c = 0)).
  { intros c Hc. pose proof (excerpt_checked c Hc) as H.
    unfold Excerpt.law_check in H.
    apply andb_true_iff in H as [H H5]. apply andb_true_iff in H as [H H4].
    apply andb_true_iff in H as [H H3]. apply andb_true_iff in H as [H1 H2].
    split; [|split; [exact H2|split; [exact H3|split]]].
    - intros Hs. rewrite Hs in H1. cbn [implb] in H1. now apply andb_true_iff in H1.
    - intros Hf. rewrite Hf in H4. exact H4.
    - intros Hw. rewrite Hw in H5. cbn [implb] in H5. now apply N.eqb_eq. }
  assert (Hdef := excerpt_default).
  split; cbn [lower_map decomposition ccc is_letter is_number Excerpt.db].
  - intros c d Hs Hd. destruct (N.lt_ge_cases c Excerpt.bound) as [Hc|Hc].
    + destruct (Hck c Hc) as (A & _). destruct (A Hs) as [A1 _].
      rewrite forallb_forall in A1. auto.
    + destruct (Hdef c Hc) as (E & _). rewrite E in Hd. now destruct Hd as [<-|[]].
  - intros c d Hs Hd. destruct (N.lt_ge_cases c Excerpt.bound) as [Hc|Hc].
    + destruct (Hck c Hc) as (A & _). destruct (A Hs) as [_ A2].
      rewrite forallb_forall in A2. auto.
    + destruct (Hdef c Hc) as (_ & E & _). rewrite E in Hd. now destruct Hd as [<-|[]].
  - intros c d Hd. destruct (N.lt_ge_cases c Excerpt.bound) as [Hc|Hc].
    + destruct (Hck c Hc) as (_ & A & _). rewrite forallb_forall in A.
      now apply fixed_lower_spec, A.
    + destruct (Hdef c Hc) as (E & _). rewrite E in Hd. destruct Hd as [<-|[]].
      split; [exact E|]. unfold Excerpt.bound, SIGMA in *. lia.
  - split; reflexivity.
  - intros c d Hd. destruct (N.lt_ge_cases c Excerpt.bound) as [Hc|Hc].
    + destruct (Hck c Hc) as (_ & _ & A & _). rewrite forallb_forall in A.
      now apply single_spec, A.
    + destruct (Hdef c Hc) as (_ & E & _). rewrite E in Hd. now destruct Hd as [<-|[]].
  - intros c d Hl Hn Hd Hw. destruct (N.lt_ge_cases c Excerpt.bound) as [Hc|Hc].
    + destruct (Hck c Hc) as (_ & _ & _ & A & _).
      assert (Hf : Excerpt.fixed_lower c = true) by now apply fixed_lower_spec.
      specialize (A Hf). rewrite forallb_forall in A. specialize (A d Hd).
      rewrite Hw in A. now apply fixed_lower_spec.
    + destruct (Hdef c Hc) as (_ & E & _). rewrite E in Hd. destruct Hd as [<-|[]]. auto.
  - intros c Hw. destruct (N.lt_ge_cases c Excerpt.bound) as [Hc|Hc].
    + now apply (Hck c Hc).
    + now apply (Hdef c Hc).
  - repeat split; reflexivity.
Qed.

End ExcerptLaws.

(** ** C6: idempotence and empty input *)

(** C6 (as amended): on every well-formed string (one without unpaired
    surrogates) normalising twice gives the same text as normalising once,
    and an absent or empty argument gives the empty string. *)
Theorem normalizeText_idempotent_well_formed (U : ucd) (x : jsstring) :
  ucd_laws U -> well_formed x = true ->
  Utils.normalizeText U (Some (Utils.normalizeText U (Some x)))
  = Utils.normalizeText U (Some x)
  /\ Utils.normalizeText U None = []
  /\ Utils.normalizeText U (Some []) = [].
Proof.
  intros HU Hx. split; [|split; reflexivity].
  rewrite (normalizeText_cps U HU x Hx).
  assert (Hs : forallb is_scalar (Utils.normalize_cps U (code_points x)) = true).
  { apply normalize_cps_scalar; [exact HU|].
    unfold well_formed in Hx. now apply andb_true_iff in Hx as [_ ?]. }
  rewrite (normalizeText_cps U HU _ (well_formed_of_code_points _ Hs)).
  rewrite code_points_of_code_points by exact Hs.
  now rewrite normalize_cps_idempotent.
Qed.

Lemma normalizeText_idempotent_witness :
  well_formed (js "Pokémon Édition") = true
  /\ Utils.normalizeText Excerpt.db
       (Some (Utils.normalizeText Excerpt.db (Some (js "Pokémon Édition"))))
     = Utils.normalizeText Excerpt.db (Some (js "Pokémon Édition")).
Proof.
  split; [reflexivity|].
  apply (normalizeText_idempotent_well_formed Excerpt.db (js "Pokémon Édition")
           excerpt_laws).
  reflexivity.
Defined.

(** C6 as stated fails on a string with unpaired surrogates: stripping the
    combining mark between U+D801 and U+DC00 joins them into the Deseret
    capital U+10400, which only a second pass lower-cases. *)
Lemma normalizeText_not_idempotent :
  let x := [0xD801; 0x301; 0xDC00]%N in
  Utils.normalizeText Excerpt.db (Some x) = [0xD801; 0xDC00]%N
  /\ Utils.normalizeText Excerpt.db (Some (Utils.normalizeText Excerpt.db (Some x)))
     = [0xD801; 0xDC28]%N
  /\ Utils.normalizeText Excerpt.db (Some (Utils.normalizeText Excerpt.db (Some x)))
     <> Utils.normalizeText Excerpt.db (Some x).
Proof.
  cbv zeta. split; [vm_compute; reflexivity|].
  split; [vm_compute; reflexivity|]. vm_compute. discriminate.
Qed.

(** ** The LRU cache *)

Section LruFacts.
Import LruCache.
Context {K : Type} `{Countable K} `{!Key K} {V : Type}.

Local Abbreviation op_t := (LruCache.op K V).

















End LruFacts.



(** The keys must not be [NaN]: [Map] finds the key [NaN], but [!==] never
    removes it from the access order.  At capacity 2, after [set(NaN, 1)],
    [set(7, 2)] and [get(NaN)] the access order holds [NaN] twice; the
    insertion of 8 then evicts [NaN], the key touched last, and keeps 7. *)
Example lru_NaN_key_is_evicted_out_of_turn :
  let c0 : LruCache.t LruCache.numkey nat :=
    LruCache.mk ∅ (LruCache.Finite (inject_Z 2)) true [] [] in
  let c := LruCache.run c0 [LruCache.Set_ LruCache.KNaN (Some 1%nat);
                            LruCache.Set_ (LruCache.KInt 7) (Some 2%nat);
                            LruCache.Get_ LruCache.KNaN] in
  let c2 := LruCache.set c (LruCache.KInt 8) (Some 3%nat) in
  LruCache.accessOrder c = [LruCache.KNaN; LruCache.KInt 7; LruCache.KNaN]
  /\ LruCache.has c2 LruCache.KNaN = false
  /\ LruCache.has c2 (LruCache.KInt 7) = true
  /\ LruCache.calls c2 = [(LruCache.KNaN, 1%nat)]
  /\ LruCache.accessOrder c2 = [LruCache.KInt 7; LruCache.KNaN; LruCache.KInt 8].
Proof. cbv zeta. repeat split; vm_compute; reflexivity. Qed.

(** ** Synonym expansion *)

Example expand_skyrim :
  SearchSynonyms.expandSearchTermsWithSynonyms [js "skyrim"]
  = Some [js "skyrim"; js "elder scrolls"; js "tes"; js "bethesda"; js "scrolls";
          js "fallout"; js "oblivion"].
Proof. vm_compute. reflexivity. Qed.

Example expand_constructor_throws :
  SearchSynonyms.expandSearchTermsWithSynonyms [js "constructor"] = None.
Proof. vm_compute. reflexivity. Qed.

Section SynonymFacts.
Import SearchSynonyms.

Lemma set_add_elem s x y : y ∈ set_add s x <-> y ∈ s \/ y = x.
Proof.
  unfold set_add. case_bool_decide as Hx.
  - split; [now left|intros [?| ->]; assumption].
  - rewrite elem_of_app, list_elem_of_singleton. tauto.
Qed.

Lemma set_add_NoDup s x : NoDup s -> NoDup (set_add s x).
Proof.
  unfold set_add. intros Hs. case_bool_decide as Hx; [exact Hs|].
  apply NoDup_app. split; [exact Hs|]. split; [|apply NoDup_singleton].
  intros y Hy Hy'. apply list_elem_of_singleton in Hy'. now subst.
Qed.

Lemma set_add_all_elem xs s y : y ∈ set_add_all s xs <-> y ∈ s \/ y ∈ xs.
Proof.
  unfold set_add_all. revert s. induction xs as [|x xs IH]; intros s; cbn [fold_left].
  - rewrite elem_of_nil. tauto.
  - rewrite IH, set_add_elem, elem_of_cons. tauto.
Qed.

Lemma set_add_all_NoDup xs s : NoDup s -> NoDup (set_add_all s xs).
Proof.
  unfold set_add_all. revert s. induction xs as [|x xs IH]; intros s Hs; [exact Hs|].
  cbn [fold_left]. now apply IH, set_add_NoDup.
Qed.

Lemma add_reverse_gen term tbl s :
  let r := fold_left
    (fun acc '(key, syns) =>
       if bool_decide (term ∈ syns) then set_add_all (set_add acc key) syns
       else acc) tbl s in
  (NoDup s -> NoDup r)
  /\ (forall y, y ∈ s -> y ∈ r)
  /\ (forall y, y ∈ r -> y ∈ s \/ y ∈ flat_map (fun '(key, syns) => key :: syns) tbl).
Proof.
  cbv zeta. revert s. induction tbl as [|[key syns] tbl IH]; intros s; cbn [fold_left flat_map].
  - repeat split; auto.
  - destruct (IH (if bool_decide (term ∈ syns)
                  then set_add_all (set_add s key) syns else s)) as (A & B & C).
    split; [|split].
    + intros Hs. apply A. case_bool_decide; [|exact Hs].
      now apply set_add_all_NoDup, set_add_NoDup.
    + intros y Hy. apply B. case_bool_decide; [|exact Hy].
      apply set_add_all_elem. left. apply set_add_elem. now left.
    + intros y Hy. apply C in Hy as [Hy|Hy].
      * case_bool_decide; [|now left].
        apply set_add_all_elem in Hy as [Hy|Hy].
        -- apply set_add_elem in Hy as [Hy| ->]; [now left|].
           right. apply elem_of_app. left. apply elem_of_cons. now left.
        -- right. apply elem_of_app. left. apply elem_of_cons. now right.
      * right. apply elem_of_app. now right.
Qed.

Lemma own_property_words term tbl syns :
  own_property term tbl = Some syns ->
  forall y, y ∈ syns -> y ∈ flat_map (fun '(key, syns) => key :: syns) tbl.
Proof.
  induction tbl as [|[key s] tbl IH]; cbn [own_property flat_map]; [discriminate|].
  destruct (Js.eqb key term).
  - intros [= ->] y Hy. apply elem_of_app. left. apply elem_of_cons. now right.
  - intros Hs y Hy. apply elem_of_app. right. eapply IH; eauto.
Qed.

Lemma expand_term_spec s term s' :
  expand_term s term = Some s' ->
  property_of term <> Inherited
  /\ (NoDup s -> NoDup s')
  /\ (forall y, y ∈ s -> y ∈ s')
  /\ (forall y, y ∈ s' -> y ∈ s \/ y ∈ table_words).
Proof.
  unfold expand_term, add_reverse, property_of, table_words.
  generalize SYNONYMS_MAP. intros tbl.
  destruct (own_property term tbl) as [syns|] eqn:E.
  - intros Heq. apply Some_inj in Heq. subst s'.
    destruct (add_reverse_gen term tbl (set_add_all s syns)) as (A & B & C).
    split; [discriminate|]. split; [|split].
    + intros Hs. now apply A, set_add_all_NoDup.
    + intros y Hy. apply B, set_add_all_elem. now left.
    + intros y Hy. apply C in Hy as [Hy|Hy]; [|now right].
      apply set_add_all_elem in Hy as [Hy|Hy]; [now left|right].
      eapply own_property_words; eauto.
  - case_bool_decide; [discriminate|]. intros Heq. apply Some_inj in Heq. subst s'.
    destruct (add_reverse_gen term tbl s) as (A & B & C).
    split; [discriminate|]. auto.
Qed.

Lemma expand_term_total s term :
  property_of term <> Inherited -> is_Some (expand_term s term).
Proof.
  unfold expand_term. destruct (property_of term); [eauto|contradiction|eauto].
Qed.

Lemma expand_loop_spec terms s out :
  expand_loop s terms = Some out ->
  (forall t, t ∈ terms -> property_of t <> Inherited)
  /\ (NoDup s -> NoDup out)
  /\ (forall y, y ∈ s -> y ∈ out)
  /\ (forall y, y ∈ out -> y ∈ s \/ y ∈ table_words).
Proof.
  revert s. induction terms as [|t r IH]; intros s; cbn [expand_loop].
  - intros [= <-]. split; [intros t Ht; inversion Ht|]. auto.
  - destruct (expand_term s t) as [s'|] eqn:E; [|discriminate].
    intros Hout. destruct (expand_term_spec _ _ _ E) as (A & B & C & D).
    destruct (IH _ Hout) as (A' & B' & C' & D').
    split; [|split; [|split]].
    + intros t' Ht'. apply elem_of_cons in Ht' as [->|Ht']; auto.
    + auto.
    + auto.
    + intros y Hy. apply D' in Hy as [Hy|Hy]; [|now right]. now apply D.
Qed.

Lemma expand_loop_total terms s :
  (forall t, t ∈ terms -> property_of t <> Inherited) ->
  is_Some (expand_loop s terms).
Proof.
  revert s. induction terms as [|t r IH]; intros s Ht; cbn [expand_loop]; [eauto|].
  destruct (expand_term_total s t) as [s' ->]; [apply Ht; now left|].
  apply IH. intros t' Ht'. apply Ht. now right.
Qed.

Lemma table_words_not_inherited :
  forall w, w ∈ table_words -> property_of w <> Inherited.
Proof.
  assert (H : forallb (fun w => match property_of w with Inherited => false | _ => true end)
                table_words = true) by (vm_compute; reflexivity).
  rewrite forallb_forall in H. intros w Hw Hp.
  apply list_elem_of_In, H in Hw. now rewrite Hp in Hw.
Qed.

(** C5 (as amended): whenever the expansion returns, its result has no
    duplicate term and contains every input term; expanding the result
    again returns a duplicate-free list that contains it, possibly
    enlarged by the synonyms of the synonyms. *)
Theorem expansion_is_duplicate_free_and_growing (terms out : list jsstring) :
  expandSearchTermsWithSynonyms terms = Some out ->
  NoDup out
  /\ (forall t, In t terms -> In t out)
  /\ exists out2,
       expandSearchTermsWithSynonyms out = Some out2
       /\ NoDup out2 /\ (forall t, In t out -> In t out2).
Proof.
  unfold expandSearchTermsWithSynonyms. intros Hout.
  destruct (expand_loop_spec _ _ _ Hout) as (A & B & C & D).
  assert (Hnd : NoDup out) by (apply B, set_add_all_NoDup, NoDup_nil_2).
  split; [exact Hnd|]. split.
  - intros t Ht. apply list_elem_of_In, C, set_add_all_elem. right.
    now apply list_elem_of_In.
  - assert (Hok : forall t, t ∈ out -> property_of t <> Inherited).
    { intros t Ht. apply D in Ht as [Ht|Ht].
      - apply set_add_all_elem in Ht as [Ht|Ht]; [inversion Ht|now apply A].
      - now apply table_words_not_inherited. }
    destruct (expand_loop_total out (set_add_all [] out) Hok) as [out2 Hout2].
    exists out2. split; [exact Hout2|].
    destruct (expand_loop_spec _ _ _ Hout2) as (_ & B2 & C2 & _).
    split; [apply B2, set_add_all_NoDup, NoDup_nil_2|].
    intros t Ht. apply list_elem_of_In, C2, set_add_all_elem. right.
    now apply list_elem_of_In.
Qed.

End SynonymFacts.

Lemma expansion_is_duplicate_free_and_growing_witness :
  let terms := [js "rpg"; js "mod"] in
  exists out,
    SearchSynonyms.expandSearchTermsWithSynonyms terms = Some out
    /\ NoDup out
    /\ (forall t, In t terms -> In t out)
    /\ exists out2,
         SearchSynonyms.expandSearchTermsWithSynonyms out = Some out2
         /\ NoDup out2 /\ (forall t, In t out -> In t out2).
Proof.
  cbv zeta. eexists. split; [vm_compute; reflexivity|].
  apply (expansion_is_duplicate_free_and_growing [js "rpg"; js "mod"]).
  vm_compute. reflexivity.
Defined.

(** C5 as stated fails: expanding the expansion of ["skyrim"] adds the
    synonyms of "fallout", which the first expansion had reached only as a
    synonym. *)
Lemma expansion_not_idempotent :
  exists out out2,
    SearchSynonyms.expandSearchTermsWithSynonyms [js "skyrim"] = Some out
    /\ SearchSynonyms.expandSearchTermsWithSynonyms out = Some out2
    /\ In (js "vault") out2 /\ ~ In (js "vault") out.
Proof.
  eexists _, _. split; [vm_compute; reflexivity|].
  split; [vm_compute; reflexivity|]. split.
  - vm_compute. tauto.
  - vm_compute. intros H. repeat (destruct H as [H|H]; [discriminate H|]). exact H.
Qed.

(** ** The two size parsers *)

Example parseFileSize_gb :
  Num.same (Search.parseFileSize (js "2.5 GB")) (Num.of_Z 2684354560).
Proof. vm_compute. reflexivity. Qed.

Example parseFileSize_na : Search.parseFileSize (js "N/A") = Num.of_Z 0.
Proof. vm_compute. reflexivity. Qed.

Example parseFileSize_dot : Search.parseFileSize (js "v. 2") = Num.NaN.
Proof. vm_compute. reflexivity. Qed.

Example parseFileSize_trailing_dot :
  Num.same (Search.parseFileSize (js "5. MB")) (Num.of_Z 5242880).
Proof. vm_compute. reflexivity. Qed.

Lemma round_zero : Num.round (Num.of_Z 0) = Num.of_Z 0.
Proof. reflexivity. Qed.

(** C10 (as amended): on every size string the parser of the data store
    returns the byte count of the search engine's parser rounded to the
    nearest integer ([Math.round]); the two byte counts are therefore the
    same exactly when the engine's count is a whole number. *)
Theorem store_size_is_rounded_engine_size (sizeStr : jsstring) :
  DataStateSize.parseFileSize sizeStr = Num.round (Search.parseFileSize sizeStr)
  /\ (Num.same (DataStateSize.parseFileSize sizeStr) (Search.parseFileSize sizeStr)
      <-> Num.same (Num.round (Search.parseFileSize sizeStr))
            (Search.parseFileSize sizeStr)).
Proof.
  assert (E : DataStateSize.parseFileSize sizeStr
              = Num.round (Search.parseFileSize sizeStr)).
  { unfold DataStateSize.parseFileSize, Search.parseFileSize.
    destruct (negb (truthy sizeStr) || Js.eqb sizeStr (js "N/A")); [reflexivity|].
    destruct (Num.first_number_run sizeStr); [|reflexivity].
    repeat match goal with |- context [if ?b then _ else _] => destruct b end;
      reflexivity. }
  split; [exact E|]. now rewrite E.
Qed.

(** C10 as stated fails: on "1.2 KB" the engine returns 1228.8 and the
    store 1229. *)
Lemma parsers_disagree :
  Num.same (Search.parseFileSize (js "1.2 KB")) (Num.Num (12288 # 10))
  /\ Num.same (DataStateSize.parseFileSize (js "1.2 KB")) (Num.of_Z 1229)
  /\ ~ Num.same (DataStateSize.parseFileSize (js "1.2 KB"))
         (Search.parseFileSize (js "1.2 KB")).
Proof.
  split; [vm_compute; reflexivity|]. split; [vm_compute; reflexivity|].
  vm_compute. discriminate.
Qed.

(** ** De-duplication across catalogs *)

Section DedupFacts.
Import Search.

Lemma filter_downloads_spec gog seen dls rest :
  first_of_each_key seen
    (List.filter (fun '(_, dl) => negb (invalid_title dl))
       (map (fun dl => (gog, dl)) dls) ++ rest)
  = map (fun dl => (gog, dl)) (fst (filter_downloads seen dls))
    ++ first_of_each_key (snd (filter_downloads seen dls)) rest.
Proof.
  revert seen. induction dls as [|dl r IH]; intros seen; [reflexivity|].
  cbn [map List.filter filter_downloads].
  destruct (invalid_title dl); cbn [negb app]; [apply IH|].
  cbn [first_of_each_key]. case_bool_decide; [apply IH|].
  specialize (IH (dedup_key dl :: seen)).
  destruct (filter_downloads (dedup_key dl :: seen) r) as [kept processed'].
  cbn [fst snd map app] in *. now rewrite IH.
Qed.

Lemma dedup_catalogs_spec seen gogs :
  dedup_catalogs seen gogs
  = map (fun '(gog, dl) => stamp gog dl)
      (first_of_each_key seen
         (List.filter (fun '(_, dl) => negb (invalid_title dl)) (flatten_named gogs))).
Proof.
  revert seen. induction gogs as [|gog r IH]; intros seen; [reflexivity|].
  unfold flatten_named in *. cbn [dedup_catalogs flat_map].
  destruct (truthy (name gog)); cbn [negb app]; [|apply IH].
  rewrite List.filter_app, filter_downloads_spec.
  destruct (filter_downloads seen (downloads gog)) as [kept processed'].
  cbn [fst snd]. rewrite map_app, IH. f_equal.
  rewrite map_map. reflexivity.
Qed.

Lemma first_of_each_key_keys seen l :
  NoDup (map (fun '(_, dl) => dedup_key dl) (first_of_each_key seen l))
  /\ (forall g dl, In (g, dl) (first_of_each_key seen l) ->
       ~ dedup_key dl ∈ seen /\ In (g, dl) l).
Proof.
  revert seen. induction l as [|[g dl] r IH]; intros seen; cbn [first_of_each_key].
  - split; [constructor|intros ? ? []].
  - case_bool_decide as Hk.
    + destruct (IH seen) as [A B]. split; [exact A|].
      intros g' dl' Hin. destruct (B _ _ Hin). split; [assumption|now right].
    + destruct (IH (dedup_key dl :: seen)) as [A B]. split.
      * cbn [map]. constructor; [|exact A].
        intros Hin. apply list_elem_of_In, in_map_iff in Hin as ([g' dl'] & E & Hin).
        destruct (B _ _ Hin) as [Hn _]. apply Hn. rewrite E. left.
      * intros g' dl' [[= -> ->]|Hin]; [split; [exact Hk|now left]|].
        destruct (B _ _ Hin) as [Hn ?]. split; [|now right].
        intros Hs. apply Hn. now right.
Qed.

Lemma first_of_each_key_complete seen l g dl :
  In (g, dl) l ->
  dedup_key dl ∈ seen
  \/ exists g' dl', In (g', dl') (first_of_each_key seen l)
                    /\ dedup_key dl' = dedup_key dl.
Proof.
  revert seen. induction l as [|[g0 dl0] r IH]; intros seen; [intros []|].
  cbn [first_of_each_key]. intros [[= -> ->]|Hin].
  - case_bool_decide as Hk; [now left|]. right. exists g, dl. split; [now left|reflexivity].
  - case_bool_decide as Hk.
    + apply IH. exact Hin.
    + destruct (IH (dedup_key dl0 :: seen) Hin) as [Hs|(g' & dl' & Hin' & E)].
      * apply elem_of_cons in Hs as [Hs|Hs]; [|now left].
        right. exists g0, dl0. split; [now left|now symmetry].
      * right. exists g', dl'. split; [now right|exact E].
Qed.

Lemma dedup_key_stamp g dl : dedup_key (stamp g dl) = dedup_key dl.
Proof. reflexivity. Qed.

Lemma flatten_named_In gogs g dl :
  In (g, dl) (flatten_named gogs)
  <-> In g gogs /\ truthy (name g) = true /\ In dl (downloads g).
Proof.
  unfold flatten_named. rewrite in_flat_map. split.
  - intros (g' & Hg & Hin). destruct (truthy (name g')) eqn:E; [|destruct Hin].
    apply in_map_iff in Hin as (dl' & [= <- <-] & Hdl). auto.
  - intros (Hg & Ht & Hdl). exists g. split; [exact Hg|]. rewrite Ht.
    apply in_map_iff. eauto.
Qed.

(** C4 (as amended): the result is the flattened download lists of the
    catalogs that have a non-empty name, without the records whose title
    is empty, blank or the sentinel, keeping the first record of every
    [title:uploadDate] key, each stamped with its catalog's name and its
    parsed byte size.  In particular the keys of the result are pairwise
    distinct, every result is a stamped valid record of a named catalog,
    and the key of every valid record of a named catalog is represented. *)
Theorem dedup_keeps_first_of_each_key (gogs : list GogData) :
  let out := processAndDeduplicateDownloads gogs in
  out = deduplicated_spec gogs
  /\ NoDup (map dedup_key out)
  /\ (forall r, In r out ->
       exists g dl, In g gogs /\ truthy (name g) = true /\ In dl (downloads g)
         /\ invalid_title dl = false /\ r = stamp g dl
         /\ source r = Some (name g)
         /\ fileSizeBytes r = Some (parseFileSize (fileSize dl)))
  /\ (forall g dl, In g gogs -> truthy (name g) = true -> In dl (downloads g) ->
       invalid_title dl = false ->
       exists r, In r out /\ dedup_key r = dedup_key dl).
Proof.
  cbv zeta. unfold processAndDeduplicateDownloads. rewrite dedup_catalogs_spec.
  fold (deduplicated_spec gogs). unfold deduplicated_spec.
  set (cand := List.filter (fun '(_, dl) => negb (invalid_title dl)) (flatten_named gogs)).
  destruct (first_of_each_key_keys [] cand) as [Hnd Hin].
  split; [reflexivity|]. split; [|split].
  - rewrite map_map.
    erewrite map_ext; [exact Hnd|]. intros [g dl]. reflexivity.
  - intros r Hr. apply in_map_iff in Hr as ([g dl] & <- & Hgd).
    destruct (Hin _ _ Hgd) as [_ Hc]. unfold cand in Hc.
    apply filter_In in Hc as [Hf Hv]. apply flatten_named_In in Hf as (Hg & Ht & Hdl).
    apply negb_true_iff in Hv. exists g, dl. repeat split; assumption.
  - intros g dl Hg Ht Hdl Hv.
    assert (Hc : In (g, dl) cand).
    { unfold cand. apply filter_In. split; [now apply flatten_named_In|].
      now rewrite Hv. }
    destruct (first_of_each_key_complete [] cand g dl Hc) as [Hs|(g' & dl' & Hin' & E)];
      [inversion Hs|].
    exists (stamp g' dl'). split; [|exact E].
    apply in_map_iff. exists (g', dl'). split; [reflexivity|exact Hin'].
Qed.

End DedupFacts.

(** C4 as stated fails twice over: the valid record of a catalog without a
    name is dropped, and of two records with different (title, uploadDate)
    pairs but the same joined key only the first survives. *)
Lemma dedup_drops_unnamed_and_colliding :
  let item t d := mkDownload (js "1 GB") (js d) [] (js t) None None None None None None in
  Search.processAndDeduplicateDownloads [mkGog [] [item "Doom" "2020-01-01"]] = []
  /\ (item "x:y" "z" <> item "x" "y:z"
      /\ map title (Search.processAndDeduplicateDownloads
                      [mkGog (js "A") [item "x:y" "z"; item "x" "y:z"]]) = [js "x:y"]).
Proof. cbv zeta. split; [reflexivity|]. split; [discriminate|reflexivity]. Qed.

(** ** The LRU cache under arbitrary sequences of calls *)

Section LruOpsFacts.
Import LruCache LruCacheOps.
Context {K : Type} `{Countable K} `{!Key K} {V : Type}.

Local Abbreviation cache_t := (LruCache.t K V).
Local Abbreviation clean := (Forall (fun k : K => isNaN k = false)).

















(** X2: writing to a key that is already stored updates it in place: nothing
    is evicted, the callback is not called, every other entry keeps its
    value, and the key becomes the most recently used one. *)
Theorem lru_set_existing_updates_in_place (c : cache_t) (key : K) (value : option V) :
  has c key = true ->
  let c' := set c key value in
  size c' = size c
  /\ calls c' = calls c
  /\ (forall k, has c' k = has c k)
  /\ snd (get c' key) = value
  /\ (forall k, k <> key -> map_get (cache c') k = map_get (cache c) k)
  /\ last (keys c') = Some key.
Proof.
  intros Hhas. cbv zeta. unfold set. rewrite Hhas.
  unfold has in Hhas. apply bool_decide_eq_true_1 in Hhas.
  unfold updateAccessOrder, size, keys, has, get. cbn [cache calls accessOrder].
  split; [now apply map_size_insert_Some|]. split; [reflexivity|].
  split; [|split; [|split]].
  - intros k. destruct (decide (key = k)) as [->|Hne].
    + rewrite lookup_insert_eq. rewrite !bool_decide_eq_true_2; eauto.
    + now rewrite lookup_insert_ne.
  - unfold has. cbn [cache]. rewrite lookup_insert_eq.
    rewrite bool_decide_eq_true_2 by eauto.
    cbn [snd updateAccessOrder cache]. unfold map_get. now rewrite lookup_insert_eq.
  - intros k Hne. unfold map_get. now rewrite lookup_insert_ne.
  - apply last_snoc.
Qed.




End LruOpsFacts.


(** Why the key [NaN] is excluded above.  At capacity 1, after
    [set(NaN, 1)] and [get(NaN)] the access order holds [NaN] twice for one
    entry, and the stale copy is what the second of two further insertions
    evicts, so that two entries are stored.  A capacity that is [NaN] is
    accepted by the constructor, and nothing is ever evicted. *)
Example lru_bound_fails_for_NaN :
  let c0 : LruCache.t LruCache.numkey nat :=
    LruCache.mk ∅ (LruCache.Finite (inject_Z 1)) true [] [] in
  let c1 := LruCacheOps.exec c0 [LruCacheOps.ASet LruCache.KNaN (Some 1%nat);
                                 LruCacheOps.AGet LruCache.KNaN] in
  let c2 := LruCacheOps.exec c1 [LruCacheOps.ASet (LruCache.KInt 7) (Some 2%nat);
                                 LruCacheOps.ASet (LruCache.KInt 8) (Some 3%nat)] in
  let d0 : LruCache.t LruCache.numkey nat := LruCache.mk ∅ LruCache.NaN true [] [] in
  let d := LruCacheOps.exec d0 [LruCacheOps.ASet (LruCache.KInt 1) (Some 1%nat);
                                LruCacheOps.ASet (LruCache.KInt 2) (Some 2%nat);
                                LruCacheOps.ASet (LruCache.KInt 3) (Some 3%nat)] in
  LruCache.new (LruCache.Finite (inject_Z 1)) true = Some c0
  /\ LruCacheOps.keys c1 = [LruCache.KNaN; LruCache.KNaN]
  /\ LruCache.size c1 = 1
  /\ LruCache.size c2 = 2
  /\ LruCache.new LruCache.NaN true = Some d0
  /\ LruCache.size d = 3
  /\ LruCache.calls d = [].
Proof. cbv zeta. repeat split; vm_compute; reflexivity. Qed.

Lemma lru_set_existing_updates_in_place_witness :
  let c : LruCache.t LruCache.numkey nat :=
    LruCacheOps.exec (LruCache.mk ∅ (LruCache.Finite (inject_Z 2)) true [] [])
      [LruCacheOps.ASet (LruCache.KInt 1) (Some 10%nat);
       LruCacheOps.ASet (LruCache.KInt 2) (Some 20%nat)] in
  let c' := LruCache.set c (LruCache.KInt 1) (Some 11%nat) in
  LruCache.has c (LruCache.KInt 1) = true
  /\ LruCache.size c' = LruCache.size c
  /\ LruCache.calls c' = LruCache.calls c
  /\ (forall k, LruCache.has c' k = LruCache.has c k)
  /\ snd (LruCache.get c' (LruCache.KInt 1)) = Some 11%nat
  /\ (forall k, k <> LruCache.KInt 1 ->
       LruCache.map_get (LruCache.cache c') k = LruCache.map_get (LruCache.cache c) k)
  /\ last (LruCacheOps.keys c') = Some (LruCache.KInt 1).
Proof.
  intros c c'. split; [vm_compute; reflexivity|].
  apply (lru_set_existing_updates_in_place c (LruCache.KInt 1) (Some 11%nat)).
  vm_compute. reflexivity.
Defined.


(** With the key [NaN], [delete(NaN)] removes the entry and leaves the key
    in [keys()]. *)
Example lru_delete_leaves_NaN :
  let c0 : LruCache.t LruCache.numkey nat :=
    LruCache.mk ∅ (LruCache.Finite (inject_Z 2)) true [] [] in
  let c := LruCacheOps.exec c0 [LruCacheOps.ASet LruCache.KNaN (Some 1%nat)] in
  let c' := fst (LruCacheOps.delete c LruCache.KNaN) in
  snd (LruCacheOps.delete c LruCache.KNaN) = true
  /\ LruCache.has c' LruCache.KNaN = false
  /\ LruCache.size c' = 0
  /\ LruCacheOps.keys c' = [LruCache.KNaN].
Proof. cbv zeta. repeat split; vm_compute; reflexivity. Qed.


(** With the key [NaN], after [set(NaN, 1)] and [get(NaN)] the one entry is
    listed twice. *)
Example lru_entries_repeat_NaN :
  let c0 : LruCache.t LruCache.numkey nat :=
    LruCache.mk ∅ (LruCache.Finite (inject_Z 2)) true [] [] in
  let c := LruCacheOps.exec c0 [LruCacheOps.ASet LruCache.KNaN (Some 1%nat);
                                LruCacheOps.AGet LruCache.KNaN] in
  LruCacheOps.entries c = [(LruCache.KNaN, 1); (LruCache.KNaN, 1)]
  /\ LruCacheOps.values c = [1; 1]
  /\ LruCache.size c = 1.
Proof. cbv zeta. repeat split; vm_compute; reflexivity. Qed.

(** ** The URL response cache *)

Section UrlCacheFacts.
Import UrlCache.

(** X5: a catalog cached at time [t] is returned by a lookup at time [t']
    when at most 24 hours have passed; a later lookup misses and removes
    the entry.  A lookup that meets a store error misses and changes
    nothing. *)
Theorem url_cache_round_trip
    (db : store) (url : list N) (data : GogData) (t t' : Z) :
  let db1 := cacheUrlData db false t url data in
  getCachedUrl db1 false t' url
  = (if bool_decide (t' - t <= CACHE_EXPIRY)%Z then (db1, Some data)
     else (delete url db1, None))
  /\ getCachedUrl db1 true t' url = (db1, None)
  /\ (forall other, other <> url ->
      fst (getCachedUrl db1 false t' url) !! other = db !! other).
Proof.
  cbv zeta. unfold getCachedUrl, cacheUrlData. rewrite lookup_insert_eq.
  split; [|split; [reflexivity|]].
  - repeat case_bool_decide; try reflexivity; lia.
  - intros other Hne. case_bool_decide; cbn [fst].
    + rewrite lookup_delete_ne by congruence. now rewrite lookup_insert_ne.
    + now rewrite lookup_insert_ne.
Qed.

(** X6: clearing the expired entries never changes what a lookup made at the
    same moment returns, and leaves only entries that such a lookup
    accepts. *)
Theorem clear_expired_agrees_with_lookup (db : store) (now : Z) (url : list N) :
  snd (getCachedUrl (clearExpiredCache db now) false now url)
  = snd (getCachedUrl db false now url)
  /\ (forall data timestamp,
      clearExpiredCache db now !! url = Some (data, timestamp) ->
      (now - timestamp <= CACHE_EXPIRY)%Z /\ db !! url = Some (data, timestamp)).
Proof.
  unfold getCachedUrl, clearExpiredCache. split.
  - destruct (db !! url) as [[data ts]|] eqn:E.
    + destruct (decide (ts < now - CACHE_EXPIRY)%Z) as [Hold|Hfresh].
      * rewrite (proj2 (map_lookup_filter_None _ db url)).
        -- rewrite bool_decide_eq_true_2 by lia. reflexivity.
        -- right. intros x Hx. rewrite E in Hx. injection Hx as <-. cbn. tauto.
      * rewrite (map_lookup_filter_Some_2 _ db url (data, ts) E Hfresh).
        now case_bool_decide.
    + rewrite (proj2 (map_lookup_filter_None _ db url)); [reflexivity|]. now left.
  - intros data ts Hl. apply map_lookup_filter_Some in Hl as [Hl Hf].
    cbn in Hf. split; [lia|exact Hl].
Qed.

End UrlCacheFacts.

(** ** Sanitising remote text *)

Section SanitizeFacts.
Import DataStateSanitize.
Local Open Scope N_scope.

Lemma map_fixed (f : N -> N) l : (forall u, In u l -> f u = u) -> map f l = l.
Proof.
  induction l as [|a l IH]; intros Hf; [reflexivity|]. cbn [map].
  rewrite (Hf a (or_introl eq_refl)). f_equal. apply IH. intros u Hu. apply Hf. now right.
Qed.

Lemma sanitize_elements s u :
  In u (sanitizeForNormalization s) ->
  is_bom u = false /\ is_invisible u = false /\ is_control u = false
  /\ is_unicode_dash u = false /\ (is_space u = true -> u = SP).
Proof.
  assert (Hsp : is_bom SP = false /\ is_invisible SP = false /\ is_control SP = false
                /\ is_unicode_dash SP = false /\ (is_space SP = true -> SP = SP))
    by (repeat split; reflexivity).
  destruct s as [[|a s]|]; cbn [sanitizeForNormalization]; try (intros []).
  intros Hu. apply trim_in in Hu.
  apply replace_runs_in in Hu as [[<-|[]]|[Hu Hns]]; [exact Hsp|].
  apply in_map_iff in Hu as (x & Hx & Hu).
  destruct (is_unicode_dash x) eqn:Ed; [subst u; exact Hsp|]. subst x.
  apply in_map_iff in Hu as (x & Hx & Hu).
  destruct (is_control x) eqn:Ec; [subst u; exact Hsp|]. subst x.
  apply filter_In in Hu as [Hu Hi]. apply filter_In in Hu as [Hu Hb].
  apply negb_true_iff in Hi, Hb.
  repeat split; try assumption. intros Hs. congruence.
Qed.

(** X7: sanitising is idempotent; its result contains no byte-order mark, no
    zero-width or bidirectional control character, no C0/C1 control
    character and no Unicode dash, its only white space is single U+0020
    between other characters, and an absent or empty input gives the
    empty string. *)
Theorem sanitize_is_idempotent_and_clean (s : option jsstring) :
  sanitizeForNormalization (Some (sanitizeForNormalization s))
  = sanitizeForNormalization s
  /\ (forall u, In u (sanitizeForNormalization s) ->
      is_bom u = false /\ is_invisible u = false /\ is_control u = false
      /\ is_unicode_dash u = false /\ (is_space u = true -> u = SP))
  /\ tidy (sanitizeForNormalization s)
  /\ trim (sanitizeForNormalization s) = sanitizeForNormalization s
  /\ sanitizeForNormalization None = []
  /\ sanitizeForNormalization (Some []) = [].
Proof.
  pose proof (sanitize_elements s) as He.
  assert (Ht : tidy (sanitizeForNormalization s)).
  { destruct s as [[|a s]|]; cbn [sanitizeForNormalization]; try exact I.
    unfold trim. apply tidy_trim_end, tidy_trim_start, tidy_replace_runs. }
  assert (Hr : trim (sanitizeForNormalization s) = sanitizeForNormalization s).
  { destruct s as [[|a s]|]; cbn [sanitizeForNormalization]; try reflexivity.
    apply trim_idempotent. }
  split; [|repeat split; try assumption; apply (He u); assumption].
  remember (sanitizeForNormalization s) as T eqn:ET. clear ET.
  destruct T as [|a T']; [reflexivity|].
  change (sanitizeForNormalization (Some (a :: T')))
    with (trim (replace_runs is_space [SP] false
        (map (fun u => if is_unicode_dash u then SP else u)
          (map (fun u => if is_control u then SP else u)
            (List.filter (fun u => negb (is_invisible u))
              (List.filter (fun u => negb (is_bom u)) (a :: T'))))))).
  rewrite (filter_fixed (fun u => negb (is_bom u)))
    by (intros u Hu; apply negb_true_iff; apply (He u Hu)).
  rewrite (filter_fixed (fun u => negb (is_invisible u)))
    by (intros u Hu; apply negb_true_iff; apply (He u Hu)).
  rewrite (map_fixed (fun u => if is_control u then SP else u))
    by (intros u Hu; destruct (He u Hu) as (_ & _ & -> & _); reflexivity).
  rewrite (map_fixed (fun u => if is_unicode_dash u then SP else u))
    by (intros u Hu; destruct (He u Hu) as (_ & _ & _ & -> & _); reflexivity).
  rewrite tidy_fixed by exact Ht. exact Hr.
Qed.

End SanitizeFacts.

(** ** Exact phrases *)

Example extract_phrases_example :
  SearchPhrases.extractExactPhrases Excerpt.db
    (js "witcher " ++ [SearchPhrases.DQ] ++ js "Wild Hunt!" ++ [SearchPhrases.DQ]
     ++ js " 'GOTY' x")
  = ([js "wild hunt"; js "goty"], js "witcher   x").
Proof. vm_compute. reflexivity. Qed.

Section SubstringFacts.
Local Open Scope N_scope.

Lemma startsWith_spec s p : startsWith s p = true <-> exists b, s = p ++ b.
Proof.
  revert s. induction p as [|a p IH]; intros s.
  - destruct s; cbn; split; eauto.
  - destruct s as [|c s]; cbn [startsWith app].
    + split; [discriminate|intros [b [=]]].
    + rewrite andb_true_iff, N.eqb_eq, IH. split.
      * intros [-> [b ->]]. eauto.
      * intros [b [= -> ->]]. eauto.
Qed.

Lemma includes_spec s p : includes s p = true <-> exists a b, s = a ++ p ++ b.
Proof.
  induction s as [|c s IH]; cbn [includes].
  - destruct p as [|x p].
    + split; [intros _; exists [], []; reflexivity|reflexivity].
    + split; [discriminate|]. intros (a & b & E). destruct a; cbn in E; discriminate.
  - rewrite orb_true_iff, startsWith_spec, IH. split.
    + intros [[b ->]|(a & b & ->)]; [exists [], b; reflexivity|].
      exists (c :: a), b. reflexivity.
    + intros (a & b & E). destruct a as [|x a].
      * left. exists b. exact E.
      * injection E as -> ->. right. eauto.
Qed.

Lemma split_runs_substring sep b cur s w :
  In w (SearchPhrases.split_runs sep b cur s) ->
  exists a c, rev cur ++ s = a ++ w ++ c.
Proof.
  revert b cur. induction s as [|x r IH]; intros b cur; cbn [SearchPhrases.split_runs].
  - intros [<-|[]]. exists [], []. now rewrite app_nil_r.
  - destruct (sep x).
    + assert (Hrest : In w (SearchPhrases.split_runs sep true [] r) ->
                      exists a c, rev cur ++ x :: r = a ++ w ++ c).
      { intros Hin. destruct (IH _ _ Hin) as (a & c & E). cbn [rev app] in E.
        exists (rev cur ++ x :: a), c. rewrite E, <- app_assoc. reflexivity. }
      destruct b; [exact Hrest|]. intros [<-|Hin]; [|now apply Hrest].
      exists [], (x :: r). reflexivity.
    + intros Hin. destruct (IH _ _ Hin) as (a & c & E). cbn [rev] in E.
      rewrite <- app_assoc in E. cbn [app] in E. eauto.
Qed.

Lemma word_test_is_redundant nt word :
  existsb (fun w => Js.eqb w word || startsWith w word) (SearchPhrases.split_ws nt) = true ->
  includes nt word = true.
Proof.
  intros He. apply existsb_exists in He as (w & Hw & Ht).
  unfold SearchPhrases.split_ws in Hw.
  apply split_runs_substring in Hw as (a & c & E). cbn [rev app] in E.
  apply includes_spec. apply orb_true_iff in Ht as [Ht|Ht].
  - unfold Js.eqb in Ht. apply bool_decide_eq_true_1 in Ht. subst w. eauto.
  - apply startsWith_spec in Ht as [b ->]. exists a, (b ++ c).
    rewrite E, <- !app_assoc. reflexivity.
Qed.

End SubstringFacts.

Section PhraseFacts.
Import SearchPhrases.
Local Open Scope N_scope.
Variable U : ucd.

Lemma forallb_pointwise {A} (f g : A -> bool) l :
  (forall x, f x = g x) -> forallb f l = forallb g l.
Proof.
  intros Hfg. induction l as [|a l IH]; [reflexivity|]. cbn [forallb].
  now rewrite Hfg, IH.
Qed.

Lemma normalizePhrase_shape phrase :
  (forall u, In u (normalizePhraseForMatching U phrase) ->
     is_ascii_word u = true \/ u = SP)
  /\ tidy (normalizePhraseForMatching U phrase).
Proof.
  unfold normalizePhraseForMatching. split; [|apply tidy_replace_runs].
  intros u Hu. apply replace_runs_in in Hu as [[<-|[]]|[Hu Hns]]; [now right|].
  apply filter_In in Hu as [_ Hu]. rewrite Hns, orb_false_r in Hu. now left.
Qed.

Lemma remove_first_length s pat : (length (remove_first s pat) <= length s)%nat.
Proof.
  induction s as [|c r IH]; cbn [remove_first]; [auto|].
  destruct (startsWith (c :: r) pat).
  - rewrite length_drop. lia.
  - cbn [length]. lia.
Qed.

Lemma trim_start_length s : (length (trim_start s) <= length s)%nat.
Proof.
  induction s as [|c r IH]; cbn [trim_start]; [auto|].
  destruct (is_space c); cbn [length]; lia.
Qed.

Lemma trim_end_length s : (length (trim_end s) <= length s)%nat.
Proof.
  induction s as [|c r IH]; cbn [trim_end]; [auto|].
  destruct (trim_end r); [destruct (is_space c)|]; cbn [length] in *; lia.
Qed.

Lemma trim_length s : (length (trim s) <= length s)%nat.
Proof.
  unfold trim. etransitivity; [apply trim_end_length|apply trim_start_length].
Qed.

Lemma extract_loop_spec ms phrases remaining (P : jsstring -> Prop) :
  (forall body, P (normalizePhraseForMatching U body)) ->
  Forall (fun p => truthy p = true /\ P p) phrases ->
  Forall (fun p => truthy p = true /\ P p) (fst (extract_loop U ms phrases remaining))
  /\ (length (snd (extract_loop U ms phrases remaining)) <= length remaining)%nat
  /\ (length (fst (extract_loop U ms phrases remaining))
      <= length phrases + length ms)%nat.
Proof.
  intros HP. revert phrases remaining.
  induction ms as [|[body whole] r IH]; intros phrases remaining Hph; cbn [extract_loop].
  - cbn [fst snd length]. split; [exact Hph|]. split; lia.
  - set (n := normalizePhraseForMatching U body).
    assert (Hph' : Forall (fun p => truthy p = true /\ P p)
                     (if truthy n then phrases ++ [n] else phrases)).
    { destruct (truthy n) eqn:E; [|exact Hph].
      apply Forall_app. split; [exact Hph|]. constructor; [|constructor].
      split; [exact E|apply HP]. }
    destruct (IH _ (remove_first remaining whole) Hph') as (A & B & C).
    split; [exact A|]. split.
    + etransitivity; [exact B|apply remove_first_length].
    + etransitivity; [exact C|]. destruct (truthy n); rewrite ?length_app; cbn [length]; lia.
Qed.

(** X8: every exact phrase taken from a query is non-empty and consists only
    of ASCII word characters and single spaces (punctuation and every
    non-ASCII letter are removed, so a quoted phrase without ASCII word
    characters yields no phrase at all); the remaining query is never
    longer than the query. *)
Theorem extracted_phrases_are_ascii_words (query : jsstring) :
  let '(phrases, remaining) := extractExactPhrases U query in
  (forall p, In p phrases ->
     p <> []
     /\ (forall u, In u p -> is_ascii_word u = true \/ u = SP)
     /\ tidy p)
  /\ (length remaining <= length query)%nat.
Proof.
  unfold extractExactPhrases.
  pose proof (extract_loop_spec (matches 0 query) [] query
    (fun p => (forall u, In u p -> is_ascii_word u = true \/ u = SP) /\ tidy p)
    (fun body => normalizePhrase_shape body) (Forall_nil_2 _)) as (A & B & _).
  destruct (extract_loop U (matches 0 query) [] query) as [phrases remaining].
  cbn [fst snd] in *. split.
  - intros p Hp. rewrite List.Forall_forall in A. destruct (A p Hp) as (Ht & Hs & Hti).
    split; [intros ->; discriminate|]. split; assumption.
  - etransitivity; [apply trim_length|exact B].
Qed.

Lemma matches_no_quotes s :
  (forall c, In c s -> c <> DQ /\ c <> SQ) -> matches 0 s = [].
Proof.
  induction s as [|c r IH]; intros Hq; [reflexivity|].
  cbn [matches]. unfold match_at.
  destruct (Hq c (or_introl eq_refl)) as [H1 H2].
  apply N.eqb_neq in H1, H2. rewrite H1, H2. cbn [orb].
  apply IH. intros d Hd. apply Hq. now right.
Qed.

(** X9: a query without any quote character has no exact phrase, and all of
    it (trimmed) remains for the term pipeline. *)
Theorem unquoted_query_has_no_phrases (query : jsstring) :
  (forall c, In c query -> c <> DQ /\ c <> SQ) ->
  extractExactPhrases U query = ([], trim query).
Proof.
  intros Hq. unfold extractExactPhrases. now rewrite matches_no_quotes.
Qed.

(** X10: a phrase passes [checkExactPhrases] exactly when it occurs in the
    normalised text or, having at least two words, each of its words
    occurs somewhere in the text, in any order; the additional test
    against the words of the text never admits anything more. *)
Theorem checkExactPhrases_is_a_substring_test (text : jsstring) (phrases : list jsstring) :
  let normalizedText := normalizePhraseForMatching U text in
  checkExactPhrases U text phrases
  = forallb
      (fun phrase =>
         includes normalizedText phrase
         || ((1 <? length (phrase_words phrase))%nat
             && forallb (fun word => includes normalizedText word)
                  (phrase_words phrase)))
      phrases.
Proof.
  cbv zeta. unfold checkExactPhrases.
  destruct phrases as [|p0 ps]; [reflexivity|].
  apply forallb_pointwise. intros phrase.
  destruct (includes (normalizePhraseForMatching U text) phrase); [reflexivity|].
  cbn [orb]. destruct (1 <? length (phrase_words phrase))%nat; [|reflexivity].
  cbn [andb]. apply forallb_pointwise. intros word.
  destruct (includes (normalizePhraseForMatching U text) word) eqn:E; [reflexivity|].
  cbn [orb].
  destruct (existsb _ _) eqn:Ex; [|reflexivity].
  apply word_test_is_redundant in Ex. congruence.
Qed.

End PhraseFacts.

Lemma unquoted_query_has_no_phrases_witness :
  (forall c, In c (js " witcher 3 ") -> c <> SearchPhrases.DQ /\ c <> SearchPhrases.SQ)
  /\ SearchPhrases.extractExactPhrases Excerpt.db (js " witcher 3 ")
     = ([], trim (js " witcher 3 ")).
Proof.
  assert (H : forall c, In c (js " witcher 3 ") ->
                c <> SearchPhrases.DQ /\ c <> SearchPhrases.SQ).
  { intros c Hc. vm_compute in Hc.
    repeat (destruct Hc as [<-|Hc]; [split; discriminate|]). destruct Hc. }
  split; [exact H|].
  exact (unquoted_query_has_no_phrases Excerpt.db (js " witcher 3 ") H).
Defined.

(** ** The recency bonus *)

Example parse_epoch : DateExcerpt.parse (js "1970-01-01") = Some 0%Z.
Proof. vm_compute. reflexivity. Qed.

Example parse_2020 : DateExcerpt.parse (js "2020-03-01") = Some 1583020800000%Z.
Proof. vm_compute. reflexivity. Qed.

Section RecencyFacts.
Import SearchPhrases.
Local Open Scope Z_scope.
Variable parse_date : jsstring -> option Z.

Lemma bonus_tiers now ud :
  In (getRecencyBonus parse_date now ud) [20; 10; 5; 2; 0].
Proof.
  unfold getRecencyBonus. destruct ud as [[|c d]|]; cbn [In]; auto 6.
  destruct (parse_date (c :: d)); cbn [In]; auto 6.
  repeat match goal with |- context [if ?b then _ else _] => destruct b end;
    cbn [In]; auto 6.
Qed.

(** X11: an upload that is not older never earns a smaller bonus; the bonus is
    one of 0, 2, 5, 10 and 20, and it is 0 for an absent, empty or
    unparseable date.  An upload date in the future earns the full 20. *)
Theorem recency_bonus_is_monotone (now : Z) (d1 d2 : jsstring) (t1 t2 : Z) :
  parse_date [] = None ->
  parse_date d1 = Some t1 -> parse_date d2 = Some t2 -> t1 <= t2 ->
  getRecencyBonus parse_date now (Some d1) <= getRecencyBonus parse_date now (Some d2)
  /\ (forall ud, In (getRecencyBonus parse_date now ud) [20; 10; 5; 2; 0])
  /\ (forall d, parse_date d = None -> getRecencyBonus parse_date now (Some d) = 0)
  /\ getRecencyBonus parse_date now None = 0
  /\ (now <= t2 -> getRecencyBonus parse_date now (Some d2) = 20).
Proof.
  intros Hempty H1 H2 Hle.
  split; [|split; [intros ud; apply bonus_tiers|split; [|split; [reflexivity|]]]].
  - unfold getRecencyBonus.
    destruct d1 as [|c1 r1]; [congruence|]. destruct d2 as [|c2 r2]; [congruence|].
    rewrite H1, H2.
    assert (Hage : (now - t2) / (1000 * 60 * 60 * 24) <= (now - t1) / (1000 * 60 * 60 * 24))
      by (apply Z.div_le_mono; lia).
    repeat match goal with |- context [if (?a <=? ?b) then _ else _] =>
      destruct (Z.leb_spec a b) end; lia.
  - intros d Hd. unfold getRecencyBonus. destruct d; [reflexivity|]. now rewrite Hd.
  - intros Hfut. unfold getRecencyBonus. destruct d2 as [|c2 r2]; [congruence|].
    rewrite H2.
    assert ((now - t2) / (1000 * 60 * 60 * 24) <= 0).
    { apply Z.div_le_upper_bound; lia. }
    destruct (Z.leb_spec ((now - t2) / (1000 * 60 * 60 * 24)) 7); [reflexivity|lia].
Qed.

End RecencyFacts.

Lemma recency_bonus_is_monotone_witness :
  let parse := DateExcerpt.parse in
  let now := 1583020800000%Z in
  parse [] = None
  /\ parse (js "2019-06-01") = Some 1559347200000%Z
  /\ parse (js "2020-02-25") = Some 1582588800000%Z
  /\ (SearchPhrases.getRecencyBonus parse now (Some (js "2019-06-01"))
      <= SearchPhrases.getRecencyBonus parse now (Some (js "2020-02-25")))%Z
  /\ (forall ud, In (SearchPhrases.getRecencyBonus parse now ud) [20; 10; 5; 2; 0]%Z)
  /\ (forall d, parse d = None -> SearchPhrases.getRecencyBonus parse now (Some d) = 0%Z)
  /\ SearchPhrases.getRecencyBonus parse now None = 0%Z
  /\ (now <= 1582588800000 ->
      SearchPhrases.getRecencyBonus parse now (Some (js "2020-02-25")) = 20)%Z.
Proof.
  intros parse now.
  split; [reflexivity|]. split; [vm_compute; reflexivity|].
  split; [vm_compute; reflexivity|].
  apply (recency_bonus_is_monotone parse now (js "2019-06-01") (js "2020-02-25")
           1559347200000 1582588800000).
  - reflexivity.
  - vm_compute. reflexivity.
  - vm_compute. reflexivity.
  - vm_compute. discriminate.
Defined.

(** ** Stamping a catalog before de-duplication *)

Section ProcessGogFacts.
Import Search Loader.

Lemma filter_downloads_map (f : DownloadType -> DownloadType) seen dls :
  (forall dl, title (f dl) = title dl /\ uploadDate (f dl) = uploadDate dl) ->
  filter_downloads seen (map f dls)
  = (map f (fst (filter_downloads seen dls)), snd (filter_downloads seen dls)).
Proof.
  intros Hf. revert seen. induction dls as [|dl r IH]; intros seen; [reflexivity|].
  cbn [map filter_downloads]. destruct (Hf dl) as [Ht Hd].
  unfold invalid_title, dedup_key. rewrite Ht, Hd.
  fold (invalid_title dl) (dedup_key dl).
  destruct (invalid_title dl); [apply IH|].
  case_bool_decide; [apply IH|]. rewrite IH.
  destruct (filter_downloads (dedup_key dl :: seen) r). reflexivity.
Qed.

(** X12: stamping the catalogs with [processGogData] first does not change the
    de-duplicated result, stamping is idempotent, and it keeps the number
    and order of the downloads while setting the source of each one to
    the catalog's name. *)
Theorem processGogData_is_absorbed_by_dedup (gogs : list GogData) :
  processAndDeduplicateDownloads (map processGogData gogs)
  = processAndDeduplicateDownloads gogs
  /\ (forall json, processGogData (processGogData json) = processGogData json)
  /\ (forall json,
      map title (downloads (processGogData json)) = map title (downloads json)
      /\ Forall (fun dl => source dl = Some (name json))
           (downloads (processGogData json))).
Proof.
  split; [|split].
  - unfold processAndDeduplicateDownloads. generalize (@nil jsstring).
    induction gogs as [|gog r IH]; intros seen; [reflexivity|].
    cbn [map dedup_catalogs].
    change (name (processGogData gog)) with (name gog).
    destruct (truthy (name gog)); cbn [negb]; [|apply IH].
    change (downloads (processGogData gog))
      with (map (fun dl =>
                   mkDownload (fileSize dl) (uploadDate dl) (uris dl) (title dl)
                     (Some (name gog)) (titleNormalized dl) (sourceNormalized dl)
                     (urisNormalized dl) (fileSizeBytes dl) (ingestionSource dl))
              (downloads gog)).
    rewrite filter_downloads_map by (intros dl; split; reflexivity).
    destruct (filter_downloads seen (downloads gog)) as [kept seen'].
    cbn [fst snd]. rewrite IH, map_map. reflexivity.
  - intros json. unfold processGogData. cbn [name downloads].
    now rewrite map_map.
  - intros json. unfold processGogData. cbn [downloads]. split.
    + now rewrite map_map.
    + apply List.Forall_forall. intros dl Hdl.
      apply in_map_iff in Hdl as (x & <- & _). reflexivity.
Qed.

End ProcessGogFacts.

(** ** Pagination of the results *)

Section PageFacts.
Import Page.
Local Open Scope Z_scope.

(** X13: for a current page within range the window of page buttons lies
    within the existing pages, contains the current page, and shows
    exactly seven buttons, or all pages when there are fewer. *)
Theorem page_window_is_centered (page total : Z) :
  1 <= page <= total ->
  let '(start, end_) := window page total in
  1 <= start /\ start <= page <= end_ /\ end_ <= total
  /\ end_ - start + 1 = Z.min 7 total
  /\ In page (buttons page total)
  /\ Z.of_nat (length (buttons page total)) = Z.min 7 total.
Proof.
  intros Hp. unfold buttons, window.
  change (7 / 2) with 3.
  destruct (Z.ltb_spec total (Z.max 1 (page - 3) + 7 - 1)) as [Hlt|Hge].
  - repeat split; try lia.
    + apply list_elem_of_In, elem_of_seqZ. lia.
    + rewrite length_seqZ. lia.
  - repeat split; try lia.
    + apply list_elem_of_In, elem_of_seqZ. lia.
    + rewrite length_seqZ. lia.
Qed.

Lemma displayed_is_chunk {A} (l : list A) (i : nat) :
  displayedDownloads l (Z.of_nat i + 1) = take 12 (drop (12 * i) l).
Proof.
  unfold displayedDownloads, slice, PAGE_SIZE.
  replace ((Z.of_nat i + 1 - 1) * 12) with (Z.of_nat (12 * i)) by lia.
  destruct (Z.ltb_spec (Z.of_nat (12 * i)) 0) as [?|_]; [lia|].
  destruct (Z.ltb_spec (Z.of_nat (12 * i) + 12) 0) as [?|_]; [lia|].
  destruct (Nat.le_gt_cases (length l) (12 * i)) as [Hshort|Hlong].
  - rewrite !Z.min_r by lia. rewrite Z.sub_diag. cbn [Z.to_nat take].
    rewrite Nat2Z.id. rewrite (drop_ge l (12 * i)) by lia. now rewrite take_nil.
  - rewrite (Z.min_l (Z.of_nat (12 * i))) by lia. rewrite Nat2Z.id.
    destruct (Z.le_gt_cases (Z.of_nat (12 * i) + 12) (Z.of_nat (length l))) as [H1|H1].
    + rewrite Z.min_l by lia. f_equal. lia.
    + rewrite Z.min_r by lia.
      rewrite (take_ge (drop (12 * i) l) 12) by (rewrite length_drop; lia).
      apply take_ge. rewrite length_drop. lia.
Qed.

Lemma chunks_concat {A} (k : nat) (l : list A) :
  (length l <= 12 * k)%nat ->
  concat (map (fun i => take 12 (drop (12 * i) l)) (seq 0 k)) = l.
Proof.
  revert l. induction k as [|k IH]; intros l Hl.
  - destruct l; [reflexivity|cbn in Hl; lia].
  - cbn [seq map concat]. rewrite <- seq_shift, map_map.
    rewrite Nat.mul_0_r, drop_0.
    rewrite <- (take_drop 12 l) at 2. f_equal.
    rewrite <- (IH (drop 12 l)) by (rewrite length_drop; lia).
    f_equal. apply map_ext. intros i. rewrite drop_drop. do 2 f_equal. lia.
Qed.

(** X14: the pages partition the results: showing page 1 up to the last page
    one after the other gives back every result exactly once and in
    order; no page holds more than twelve results and a page beyond the
    last one is empty. *)
Theorem pages_partition_the_results {A} (l : list A) :
  concat (map (displayedDownloads l) (seqZ 1 (totalPages l))) = l
  /\ (forall page, (length (displayedDownloads l page) <= 12)%nat)
  /\ (forall page, totalPages l < page -> displayedDownloads l page = []).
Proof.
  assert (Htp : 1 <= totalPages l /\ Z.of_nat (length l) <= 12 * totalPages l
                /\ (12 * (totalPages l - 1) < Z.of_nat (length l) \/ totalPages l = 1)).
  { unfold totalPages, ceil_div, PAGE_SIZE.
    pose proof (Z.div_mod (- Z.of_nat (length l)) 12 ltac:(lia)) as Hdm.
    pose proof (Z.mod_pos_bound (- Z.of_nat (length l)) 12 ltac:(lia)) as Hmb.
    lia. }
  destruct Htp as (H1 & H2 & H3).
  split; [|split].
  - set (k := Z.to_nat (totalPages l)).
    assert (Hseq : seqZ 1 (totalPages l) = map (fun i => Z.of_nat i + 1) (seq 0 k)).
    { reflexivity. }
    rewrite Hseq, map_map.
    erewrite map_ext; [apply (chunks_concat k); lia|].
    intros i. apply displayed_is_chunk.
  - intros page. unfold displayedDownloads, slice, PAGE_SIZE.
    rewrite length_take. 
    destruct (Z.ltb_spec ((page - 1) * 12) 0), (Z.ltb_spec ((page - 1) * 12 + 12) 0); lia.
  - intros page Hp. unfold displayedDownloads, slice, PAGE_SIZE.
    destruct (Z.ltb_spec ((page - 1) * 12) 0) as [?|_]; [lia|].
    destruct (Z.ltb_spec ((page - 1) * 12 + 12) 0) as [?|_]; [lia|].
    rewrite !Z.min_r by lia. rewrite Z.sub_diag. reflexivity.
Qed.

End PageFacts.

Lemma page_window_is_centered_witness :
  (1 <= 9 <= 10)%Z
  /\ let '(start, end_) := Page.window 9 10 in
     (1 <= start /\ start <= 9 <= end_ /\ end_ <= 10
      /\ end_ - start + 1 = Z.min 7 10
      /\ In 9 (Page.buttons 9 10)
      /\ Z.of_nat (length (Page.buttons 9 10)) = Z.min 7 10)%Z.
Proof.
  split; [lia|]. apply (page_window_is_centered 9 10). lia.
Defined.

(** ** The alphabet of a normalised text *)

Section NormalizedAlphabet.
Local Open Scope N_scope.
Variable U : ucd.
Hypothesis HU : ucd_laws U.

(** A text whose code points normalisation leaves alone, with single
    spaces inside only, is a fixed point of the pipeline. *)
Lemma normalize_cps_fixed T :
  (forall c, In c T ->
     lower_map U c = [c] /\ c <> SIGMA /\ decomposition U c = [c]
     /\ ccc U c = 0 /\ Utils.is_combining_mark c = false
     /\ Utils.is_dash c = false /\ Utils.is_word_char U c = true) ->
  tidy T -> trim T = T -> Utils.normalize_cps U T = T.
Proof.
  intros He Ht Hr. unfold Utils.normalize_cps.
  rewrite lower_cps_fixed by (intros c Hc; split; apply (He c Hc)).
  rewrite flat_map_fixed by (intros c Hc; apply (He c Hc)).
  rewrite canonical_order_fixed by (intros c Hc; apply (He c Hc)).
  rewrite (filter_fixed (fun c => negb (Utils.is_combining_mark c)))
    by (intros c Hc; apply negb_true_iff; apply (He c Hc)).
  rewrite (replace_runs_none Utils.is_dash) by (intros c Hc; apply (He c Hc)).
  rewrite (filter_fixed (Utils.is_word_char U)) by (intros c Hc; apply (He c Hc)).
  rewrite tidy_fixed by exact Ht.
  exact Hr.
Qed.

Lemma normalize_cps_tidy xs :
  tidy (Utils.normalize_cps U xs)
  /\ trim (Utils.normalize_cps U xs) = Utils.normalize_cps U xs.
Proof.
  split.
  - unfold Utils.normalize_cps, trim.
    apply tidy_trim_end, tidy_trim_start, tidy_replace_runs.
  - unfold Utils.normalize_cps. apply trim_idempotent.
Qed.

Lemma trim_of_code_points l :
  forallb is_scalar l = true -> trim (of_code_points l) = of_code_points (trim l).
Proof.
  intros H. unfold trim. rewrite trim_start_of_code_points by exact H.
  rewrite trim_end_of_code_points; [reflexivity|].
  rewrite scalar_forall in *. intros c Hc. apply H. now apply trim_start_in.
Qed.

(** X15: on a well-formed string the normalised text is well-formed and
    consists of letters and numbers that are their own lower case and
    their own decomposition, none of them a combining mark, a hyphen or an
    underscore, separated by single spaces U+0020, without a space at
    either end. *)
Theorem normalized_text_is_words_and_single_spaces (x : jsstring) :
  well_formed x = true ->
  let r := Utils.normalizeText U (Some x) in
  well_formed r = true
  /\ (forall c, In c (code_points r) ->
        c = SP
        \/ ((is_letter U c || is_number U c) = true
            /\ lower_map U c = [c] /\ decomposition U c = [c]
            /\ Utils.is_combining_mark c = false /\ Utils.is_dash c = false))
  /\ tidy (code_points r)
  /\ trim r = r.
Proof.
  intros Hx r. subst r. rewrite (normalizeText_cps U HU x Hx).
  assert (Hs : forallb is_scalar (Utils.normalize_cps U (code_points x)) = true).
  { apply normalize_cps_scalar; [exact HU|].
    unfold well_formed in Hx. now apply andb_true_iff in Hx as [_ ?]. }
  rewrite code_points_of_code_points by exact Hs.
  destruct (normalize_cps_tidy (code_points x)) as [Ht Hr].
  split; [now apply well_formed_of_code_points|].
  split; [|split; [exact Ht|]].
  - intros c Hc.
    destruct (normalize_cps_elements U HU _ _ Hc)
      as ([Hsp|Hns] & Hl & _ & Hd & _ & Hm & Hda & Hw); [now left|right].
    unfold Utils.is_word_char in Hw. rewrite Hns, orb_false_r in Hw. auto.
  - rewrite trim_of_code_points by exact Hs. now rewrite Hr.
Qed.

End NormalizedAlphabet.

Lemma normalized_text_is_words_and_single_spaces_witness :
  well_formed (js "  The_Witcher-3:  Édition ") = true
  /\ trim (Utils.normalizeText Excerpt.db (Some (js "  The_Witcher-3:  Édition ")))
     = Utils.normalizeText Excerpt.db (Some (js "  The_Witcher-3:  Édition ")).
Proof.
  split; [reflexivity|].
  apply (normalized_text_is_words_and_single_spaces Excerpt.db excerpt_laws
           (js "  The_Witcher-3:  Édition ")).
  reflexivity.
Defined.

(** ** The terms of a query *)

Example search_terms_portuguese :
  SearchTerms.searchTerms Excerpt.db (js "O jogo NÃO é para você")
  = [js "jogo"; js "nao"; js "voce"].
Proof. vm_compute. reflexivity. Qed.

Example search_terms_only_stopwords :
  SearchTerms.searchTerms Excerpt.db (js "The Who") = [js "the"; js "who"].
Proof. vm_compute. reflexivity. Qed.

Section TermFacts.
Local Open Scope N_scope.

Lemma encode_cp_not_nil c : encode_cp c <> [].
Proof. unfold encode_cp. destruct (c <? 0x10000); discriminate. Qed.

Lemma of_code_points_not_nil c l : of_code_points (l ++ [c]) <> [].
Proof.
  rewrite of_code_points_app. cbn. rewrite app_nil_r. intros H.
  apply app_eq_nil in H as [_ H]. now apply encode_cp_not_nil in H.
Qed.

(** Splitting at white space reads the same on code units and on code
    points. *)
Lemma fields_of_code_points T cur :
  forallb is_scalar T = true ->
  fields is_space (rev (of_code_points (rev cur))) (of_code_points T)
  = map of_code_points (fields is_space cur T).
Proof.
  destruct is_space_bmp as [Hsur Hsup].
  revert cur. induction T as [|c T IH]; intros cur HT.
  - cbn [of_code_points flat_map fields].
    destruct cur as [|d cur]; [reflexivity|].
    cbn [rev]. destruct (rev (of_code_points (rev cur ++ [d]))) eqn:E.
    + apply (f_equal (@rev N)) in E. rewrite rev_involutive in E. cbn in E.
      now apply of_code_points_not_nil in E.
    + rewrite <- E, rev_involutive. reflexivity.
  - cbn [forallb] in HT. apply andb_true_iff in HT as [Hc HT].
    rewrite of_code_points_cons.
    assert (Hpush : forall us, rev (of_code_points (rev cur)) = us ->
              rev (of_code_points (rev (c :: cur))) = rev (encode_cp c) ++ us).
    { intros us <-. cbn [rev]. rewrite of_code_points_app, rev_app_distr.
      cbn. now rewrite app_nil_r. }
    destruct (is_scalar_cases c Hc) as [(Hlt & Hns & He)|(Hge & h & l & He & Hh & Hl & Hp)];
      rewrite He in *.
    + cbn [app fields]. destruct (is_space c) eqn:Es.
      * destruct cur as [|d cur].
        -- cbn [rev of_code_points flat_map]. exact (IH [] HT).
        -- cbn [rev]. destruct (rev (of_code_points (rev cur ++ [d]))) eqn:E.
           ++ apply (f_equal (@rev N)) in E. rewrite rev_involutive in E. cbn in E.
              now apply of_code_points_not_nil in E.
           ++ rewrite <- E, rev_involutive. cbn [map]. f_equal. exact (IH [] HT).
      * rewrite <- (IH (c :: cur) HT). f_equal.
        rewrite (Hpush _ eq_refl). reflexivity.
    + destruct (high_low_surrogate h l Hh Hl) as [Sh Sl].
      cbn [app fields]. rewrite (Hsur h Sh), (Hsur l Sl), (Hsup c Hge).
      rewrite <- (IH (c :: cur) HT). f_equal.
      rewrite (Hpush _ eq_refl). reflexivity.
Qed.

(** Every field is a non-empty run of units that are no separators. *)
Lemma fields_elements (sep : N -> bool) (P : N -> Prop) T cur w :
  (forall c, In c cur -> P c) ->
  (forall c, In c T -> sep c = false -> P c) ->
  In w (fields sep cur T) -> w <> [] /\ (forall c, In c w -> P c).
Proof.
  revert cur. induction T as [|c T IH]; intros cur Hcur HT; cbn [fields].
  - destruct cur as [|d cur]; [intros []|]. intros [<-|[]]. split.
    + cbn [rev]. intros H. now apply app_eq_nil in H as [_ H].
    + intros e He. apply Hcur. now apply in_rev.
  - assert (HT' : forall e, In e T -> sep e = false -> P e)
      by (intros e He; apply HT; now right).
    destruct (sep c) eqn:Es.
    + assert (Hnil : forall e, In e (@nil N) -> P e) by (intros e []).
      destruct cur as [|d cur]; [now apply IH|].
      intros [<-|H]; [|now apply (IH [])]. split.
      * cbn [rev]. intros H. now apply app_eq_nil in H as [_ H].
      * intros e He. apply Hcur. now apply in_rev.
    + apply IH; [|exact HT'].
      intros e [<-|He]; [apply HT; [now left|exact Es]|now apply Hcur].
Qed.

Lemma trim_end_nospace l :
  (forall c, In c l -> is_space c = false) -> trim_end l = l.
Proof.
  induction l as [|c r IH]; intros H; [reflexivity|]. cbn [trim_end].
  rewrite IH by (intros d Hd; apply H; now right).
  destruct r; [|reflexivity]. now rewrite (H c (or_introl eq_refl)).
Qed.

Lemma tidy_nospace l : (forall c, In c l -> is_space c = false) -> tidy l.
Proof.
  induction l as [|c r IH]; intros H; [exact I|]. split.
  - rewrite (H c (or_introl eq_refl)). discriminate.
  - apply IH. intros d Hd. apply H. now right.
Qed.

Variable U : ucd.
Hypothesis HU : ucd_laws U.

(** The words of a normalised text are normalised texts themselves. *)
Lemma normalized_words_fixed (x t : jsstring) :
  well_formed x = true ->
  In t (words_ws (Utils.normalizeText U (Some x))) ->
  t <> [] /\ (forall u, In u t -> is_space u = false)
  /\ Utils.normalizeText U (Some t) = t.
Proof.
  intros Hx. rewrite (normalizeText_cps U HU x Hx).
  assert (Hs : forallb is_scalar (Utils.normalize_cps U (code_points x)) = true).
  { apply normalize_cps_scalar; [exact HU|].
    unfold well_formed in Hx. now apply andb_true_iff in Hx as [_ ?]. }
  set (T := Utils.normalize_cps U (code_points x)) in *.
  unfold words_ws. pose proof (fields_of_code_points T [] Hs) as Hf.
  cbn [rev of_code_points flat_map] in Hf. rewrite Hf. clear Hf.
  intros Ht. apply in_map_iff in Ht as (w & <- & Hw).
  destruct (fields_elements is_space
              (fun c => In c T /\ is_space c = false) T [] w) as [Hne Hel];
    [intros c []|intros c Hc Hsp; now split|exact Hw|].
  assert (Hws : forallb is_scalar w = true).
  { rewrite scalar_forall in *. intros c Hc. apply Hs. now apply Hel. }
  split; [|split].
  - intros H. now apply of_code_points_nil_inv in H.
  - intros u Hu. destruct is_space_bmp as [Hsur Hsup].
    unfold of_code_points in Hu. apply in_flat_map in Hu as (c & Hc & Hu).
    assert (Hcs : is_scalar c = true) by (rewrite scalar_forall in Hws; auto).
    destruct (is_scalar_cases c Hcs) as [(_ & _ & He)|(_ & h & l & He & Hh & Hl & _)];
      rewrite He in Hu.
    + destruct Hu as [<-|[]]. now apply Hel.
    + destruct (high_low_surrogate h l Hh Hl) as [Sh Sl].
      destruct Hu as [<-|[<-|[]]]; auto.
  - rewrite (normalizeText_cps U HU _ (well_formed_of_code_points _ Hws)).
    rewrite code_points_of_code_points by exact Hws. f_equal.
    assert (Hnsp : forall c, In c w -> is_space c = false) by (intros c Hc; now apply Hel).
    apply normalize_cps_fixed; [ |now apply tidy_nospace|].
    + intros c Hc. destruct (Hel c Hc) as [HcT _].
      destruct (normalize_cps_elements U HU _ _ HcT) as (_ & H). exact H.
    + unfold trim. rewrite trim_start_fixed.
      * now apply trim_end_nospace.
      * destruct w as [|d w']; [exact I|]. apply Hnsp. now left.
Qed.

(** X16: the search terms of a well-formed query are words of its
    normalised text; there are none only when the text has no word; stop
    words are removed unless every word is one; each term is a non-empty
    fixed point of normalisation without white space, so that an entry of
    the stop-word list that normalisation would change never matches. *)
Theorem search_terms_are_normalised_words (q : jsstring) :
  well_formed q = true ->
  let normalizedTerms := SearchTerms.normalizedTerms U q in
  let searchTerms := SearchTerms.searchTerms U q in
  (forall t, In t searchTerms -> In t normalizedTerms)
  /\ (searchTerms = [] <-> normalizedTerms = [])
  /\ ((exists t, In t normalizedTerms /\ SearchTerms.is_stopword t = false) ->
      forall t, In t searchTerms -> SearchTerms.is_stopword t = false)
  /\ (forall t, In t normalizedTerms ->
        t <> [] /\ (forall u, In u t -> is_space u = false)
        /\ Utils.normalizeText U (Some t) = t)
  /\ (forall w, In w SearchTerms.DEFAULT_STOPWORDS ->
        Utils.normalizeText U (Some w) <> w -> ~ In w normalizedTerms).
Proof.
  intros Hq nt st. subst st. unfold SearchTerms.searchTerms. fold nt. cbv zeta.
  assert (Hfix : forall t, In t nt ->
            t <> [] /\ (forall u, In u t -> is_space u = false)
            /\ Utils.normalizeText U (Some t) = t)
    by (intros t Ht; now apply (normalized_words_fixed q t Hq)).
  destruct (List.filter (fun t => negb (SearchTerms.is_stopword t)) nt)
    as [|s0 st] eqn:E.
  - split; [auto|]. split; [tauto|]. split; [|split; [exact Hfix|]].
    + intros (t & Ht & Hst).
      assert (Hin : In t (List.filter (fun t => negb (SearchTerms.is_stopword t)) nt))
        by (apply filter_In; split; [exact Ht|now rewrite Hst]).
      rewrite E in Hin. destruct Hin.
    + intros w _ Hw Hin. now destruct (Hfix w Hin) as (_ & _ & ?).
  - assert (Hsub : forall t, In t (s0 :: st) ->
              In t nt /\ SearchTerms.is_stopword t = false).
    { intros t Ht. rewrite <- E in Ht. apply filter_In in Ht as [? Hn].
      split; [assumption|now apply negb_true_iff in Hn]. }
    split; [intros t Ht; now apply Hsub|]. split.
    + split; [discriminate|]. intros Hnil.
      destruct (Hsub s0 (or_introl eq_refl)) as [Hin _]. rewrite Hnil in Hin.
      destruct Hin.
    + split; [intros _ t Ht; now apply Hsub|]. split; [exact Hfix|].
      intros w _ Hw Hin. now destruct (Hfix w Hin) as (_ & _ & ?).
Qed.

End TermFacts.

Lemma search_terms_are_normalised_words_witness :
  well_formed (js "O jogo NÃO é para você") = true
  /\ forall t, In t (SearchTerms.searchTerms Excerpt.db (js "O jogo NÃO é para você")) ->
       In t (SearchTerms.normalizedTerms Excerpt.db (js "O jogo NÃO é para você")).
Proof.
  split; [reflexivity|].
  exact (proj1 (search_terms_are_normalised_words Excerpt.db excerpt_laws
                  (js "O jogo NÃO é para você") eq_refl)).
Defined.

(** The entries of the stop-word list that normalisation changes. *)
Example dead_stopwords :
  List.filter
    (fun w => negb (Js.eqb (Utils.normalizeText Excerpt.db (Some w)) w))
    SearchTerms.DEFAULT_STOPWORDS
  = map js ["é"; "são"; "têm"; "você"; "nós"; "vós"; "porquê"; "não"; "só";
            "ей"; "ей"].
Proof. vm_compute. reflexivity. Qed.

(** ** The size filter *)

Example size_filter_unknown_size :
  let item := mkDownload (js "N/A") (js "2024-01-01") [] (js "Doom") None None None
                None None None in
  SearchFilters.size_test None (Some (Num.of_Z 1)) item = true
  /\ SearchFilters.size_test (Some (Num.of_Z 1)) None item = false.
Proof. vm_compute. split; reflexivity. Qed.

Section SizeFilterFacts.
Import Num SearchFilters.

Lemma lt_spec p q : lt (Num p) (Num q) = true <-> (p < q)%Q.
Proof.
  unfold lt. rewrite Qlt_alt. destruct (p ?= q)%Q; split; congruence.
Qed.

Lemma lt_false p q : lt (Num p) (Num q) = false <-> (q <= p)%Q.
Proof.
  rewrite <- not_true_iff_false, lt_spec. split; [apply Qnot_lt_le|apply Qle_not_lt].
Qed.

Lemma zero_spec p : strict_eq (Num p) (of_Z 0) = true <-> (p == 0)%Q.
Proof. unfold strict_eq, of_Z. apply Qeq_bool_iff. Qed.

Lemma size_test_within (min max min' max' : option Q) (item : DownloadType) :
  within min max min' max' ->
  size_test (bound min) (bound max) item = true ->
  size_test (bound min') (bound max') item = true.
Proof.
  intros [Hmin Hmax]. unfold size_test.
  destruct (item_size item) as [|s]; [intros _; destruct min', max'; reflexivity|].
  destruct (strict_eq (Num s) (of_Z 0)) eqn:Ez.
  - destruct min' as [a'|]; [|reflexivity]. destruct min as [a|]; [|destruct Hmin].
    cbn [bound option_map]. rewrite !zero_spec. intros Ha. destruct Hmin as [H0 Hle].
    rewrite Ha in Hle. now apply Qle_antisym.
  - destruct (match bound min with Some m => lt (Num s) m | None => false end) eqn:E1;
      [discriminate|].
    destruct (match bound max with Some m => gt (Num s) m | None => false end) eqn:E2;
      [discriminate|]. intros _.
    assert (G1 : match bound min' with Some m => lt (Num s) m | None => false end = false).
    { destruct min' as [a'|]; [|reflexivity]. destruct min as [a|]; [|destruct Hmin].
      cbn [bound option_map] in *. rewrite lt_false in *. destruct Hmin as [_ Hle].
      now apply Qle_trans with a. }
    assert (G2 : match bound max' with Some m => gt (Num s) m | None => false end = false).
    { destruct max' as [b'|]; [|reflexivity]. destruct max as [b|]; [|destruct Hmax].
      cbn [bound option_map] in *. unfold gt in *. rewrite lt_false in *.
      now apply Qle_trans with b. }
    now rewrite G1, G2.
Qed.

Lemma size_stage_incl min max results : incl (size_stage min max results) results.
Proof.
  unfold size_stage. intros item.
  destruct min, max; try (intros H; apply filter_In in H; tauto); auto.
Qed.

(** X17: widening the range of the size filter never loses a record, as
    long as the lower bounds are not negative; a record of size zero, as an
    unknown size is parsed, passes whatever the upper bound is exactly when
    the lower bound is undefined or zero; a record whose size is not a
    number passes every range. *)
Theorem size_filter_is_monotone (min max min' max' : option Q)
    (results : list DownloadType) :
  within min max min' max' ->
  incl (size_stage (bound min) (bound max) results)
       (size_stage (bound min') (bound max') results)
  /\ (forall item, strict_eq (item_size item) (of_Z 0) = true ->
        size_test (bound min) (bound max) item
        = match min with None => true | Some a => Qeq_bool a 0 end)
  /\ (forall item, item_size item = NaN ->
        size_test (bound min) (bound max) item = true).
Proof.
  intros Hw. split; [|split].
  - intros item Hin.
    assert (Hres : In item results) by (eapply size_stage_incl; eauto).
    assert (Hpass : size_test (bound min) (bound max) item = true
                    -> In item (size_stage (bound min') (bound max') results)).
    { intros Hp. pose proof (size_test_within _ _ _ _ item Hw Hp) as Hp'.
      unfold size_stage.
      destruct (bound min'), (bound max'); try (apply filter_In; split; assumption).
      exact Hres. }
    unfold size_stage in Hin.
    destruct min as [a|], max as [b|]; cbn [bound option_map] in *;
      try (apply filter_In in Hin as [_ Hp]; now apply Hpass).
    destruct Hw as [Hmin Hmax].
    destruct min'; [destruct Hmin|]. destruct max'; [destruct Hmax|]. exact Hin.
  - intros item Hz. unfold size_test. rewrite Hz. now destruct min.
  - intros item Hn. unfold size_test. rewrite Hn.
    destruct min, max; reflexivity.
Qed.

End SizeFilterFacts.

Lemma size_filter_is_monotone_witness :
  let item size t := mkDownload (js size) (js "2024-01-01") [] (js t) None None None
                       None None None in
  let small := item "700 MB" "Doom" in
  let medium := item "1.5 GB" "Quake" in
  let large := item "40 GB" "Starfield" in
  let narrow := SearchFilters.size_stage (Some (Num.of_Z 1000000000))
                  (Some (Num.of_Z 2000000000)) [small; medium; large] in
  let wide := SearchFilters.size_stage (Some (Num.of_Z 500000000))
                (Some (Num.of_Z 50000000000)) [small; medium; large] in
  SearchFilters.within (Some 1000000000%Q) (Some 2000000000%Q)
    (Some 500000000%Q) (Some 50000000000%Q)
  /\ narrow = [medium]
  /\ incl narrow wide
  /\ In medium wide.
Proof.
  intros item small medium large narrow wide.
  assert (Hw : SearchFilters.within (Some 1000000000%Q) (Some 2000000000%Q)
                 (Some 500000000%Q) (Some 50000000000%Q)).
  { split; [split|]; unfold Qle; cbn; lia. }
  assert (Hn : narrow = [medium]) by (vm_compute; reflexivity).
  pose proof (proj1 (size_filter_is_monotone (Some 1000000000%Q) (Some 2000000000%Q)
                       (Some 500000000%Q) (Some 50000000000%Q)
                       [small; medium; large] Hw)) as Hincl.
  split; [exact Hw|]. split; [exact Hn|]. split; [exact Hincl|].
  apply Hincl. change (In medium narrow). rewrite Hn. now left.
Defined.

(** ** Scoring a term *)

Section ScoreFacts.
Import SearchEngine.
Local Open Scope N_scope.

Lemma fields_substring (sep : N -> bool) cur s w :
  In w (fields sep cur s) -> exists a c, rev cur ++ s = a ++ w ++ c.
Proof.
  revert cur. induction s as [|x r IH]; intros cur; cbn [fields].
  - destruct cur as [|d cur]; [intros []|]. intros [<-|[]].
    exists [], []. now rewrite app_nil_r.
  - destruct (sep x).
    + assert (Hrest : In w (fields sep [] r) ->
                      exists a c, rev cur ++ x :: r = a ++ w ++ c).
      { intros Hin. destruct (IH _ Hin) as (a & c & E). cbn [rev app] in E.
        exists (rev cur ++ x :: a), c. rewrite E, <- app_assoc. reflexivity. }
      destruct cur as [|d cur]; [exact Hrest|]. intros [<-|Hin]; [|now apply Hrest].
      exists [], (x :: r). reflexivity.
    + intros Hin. destruct (IH _ Hin) as (a & c & E). cbn [rev] in E.
      rewrite <- app_assoc in E. cbn [app] in E. eauto.
Qed.

(** An occurrence of a text that avoids [c] lies on one side of [c]. *)
Lemma includes_avoid x c y term :
  ~ In c term -> includes (x ++ c :: y) term = true ->
  includes x term = true \/ includes y term = true.
Proof.
  intros Hc. rewrite !includes_spec. intros (a & b & E).
  apply app_eq_app in E as [l [[Ex E]|[Ea E]]].
  - (* [a] ends inside [x] *)
    apply app_eq_app in E as [l2 [[Et E]|[El E]]].
    + destruct l2 as [|d l2].
      * rewrite app_nil_r in Et. subst l. left. exists a, []. now rewrite app_nil_r.
      * cbn in E. injection E as <- _. exfalso. apply Hc. rewrite Et.
        apply in_or_app. right. now left.
    + left. exists a, l2. rewrite Ex, El. reflexivity.
  - (* [a] reaches beyond [x] *)
    destruct l as [|d l].
    + cbn in E. destruct term as [|t term].
      * left. exists x, []. now rewrite app_nil_r.
      * cbn in E. injection E as -> _. exfalso. apply Hc. now left.
    + cbn in E. injection E as _ ->. right. eauto.
Qed.

(** A text without separators that occurs in a string occurs in one of
    its fields. *)
Lemma fields_cover (sep : N -> bool) term :
  term <> [] -> (forall c, In c term -> sep c = false) ->
  forall s cur, includes (rev cur ++ s) term = true ->
  exists w, In w (fields sep cur s) /\ includes w term = true.
Proof.
  intros Hne Hterm. induction s as [|c r IH]; intros cur Hin; cbn [fields].
  - rewrite app_nil_r in Hin. destruct cur as [|d cur].
    + cbn in Hin. destruct term; [now destruct Hne|discriminate].
    + exists (rev (d :: cur)). split; [now left|exact Hin].
  - destruct (sep c) eqn:Es.
    + assert (Hc : ~ In c term) by (intros H; apply Hterm in H; congruence).
      destruct (includes_avoid _ _ _ _ Hc Hin) as [H|H].
      * destruct cur as [|d cur].
        -- cbn in H. destruct term; [now destruct Hne|discriminate].
        -- exists (rev (d :: cur)). split; [now left|exact H].
      * destruct (IH [] H) as (w & Hw & Hi). exists w. split; [|exact Hi].
        destruct cur; [exact Hw|now right].
    + apply IH. cbn [rev]. now rewrite <- app_assoc.
Qed.

Lemma includes_app_l x y term : includes x term = true -> includes (y ++ x) term = true.
Proof.
  rewrite !includes_spec. intros (a & b & ->). exists (y ++ a), b.
  now rewrite <- app_assoc.
Qed.

Lemma includes_app_r x y term : includes x term = true -> includes (x ++ y) term = true.
Proof.
  rewrite !includes_spec. intros (a & b & ->). exists a, (b ++ y).
  now rewrite <- !app_assoc.
Qed.

Variable U : ucd.
Variable canonicalize : N -> N.

(** A term without spaces occurs in the prepared search text exactly when
    it occurs in one of the prepared words. *)
Lemma prepared_includes (item : DownloadType) term :
  term <> [] -> (forall u, In u term -> u <> SP) ->
  includes (c_searchText (prepare U item)) term = true
  <-> exists w, In w (c_words (prepare U item)) /\ includes w term = true.
Proof.
  intros Hne Hsp. unfold prepare. cbn [c_searchText c_words].
  set (combined := trim _).
  assert (Hw : (if truthy combined then words_sp combined else []) = words_sp combined)
    by (destruct combined; reflexivity).
  rewrite Hw. clear Hw.
  assert (Hns : ~ In SP term) by (intros H; now apply Hsp in H).
  assert (Hsep : forall c, In c term -> (c =? SP) = false)
    by (intros c Hc; apply N.eqb_neq; now apply Hsp).
  split.
  - intros H. change ([SP] ++ combined ++ [SP]) with ([] ++ SP :: (combined ++ [SP])) in H.
    apply includes_avoid in H as [H|H]; [|apply includes_avoid in H as [H|H]|]; try assumption.
    + cbn in H. destruct term; [now destruct Hne|discriminate].
    + apply (fields_cover (fun c => c =? SP) term Hne Hsep combined []). exact H.
    + cbn in H. destruct term; [now destruct Hne|discriminate].
  - intros (w & Hin & Hi). unfold words_sp in Hin.
    apply fields_substring in Hin as (a & c & E). cbn [rev app] in E.
    apply (includes_app_l _ [SP]), includes_app_r. rewrite E.
    apply includes_app_l, includes_app_r. exact Hi.
Qed.

(** X18: for a term of three or more units without a space, as every term
    of a query is, the score against a prepared record is 0, 25, 45, 60,
    75 or 100, never the fallback 15, and it is positive exactly when the
    term occurs inside one of the words of the record. *)
Theorem single_word_terms_score_on_words (item : DownloadType) (term : jsstring) (s : Z) :
  (3 <= length term)%nat -> (forall u, In u term -> u <> SP) ->
  scoreForTerm canonicalize (c_searchText (prepare U item))
    (c_words (prepare U item)) term = Some s ->
  In s [0; 25; 45; 60; 75; 100]%Z
  /\ ((0 < s)%Z <->
      exists w, In w (c_words (prepare U item)) /\ includes w term = true).
Proof.
  intros Hlen Hsp. pose proof (prepared_includes item term) as Hinc.
  assert (Hne : term <> []) by (intros ->; cbn in Hlen; lia).
  specialize (Hinc Hne Hsp).
  unfold scoreForTerm.
  assert (E3 : (length term <? 3)%nat = false) by (apply Nat.ltb_ge; exact Hlen).
  rewrite E3.
  destruct (includes (c_searchText (prepare U item)) term) eqn:Ei.
  - assert (Hex : exists w, In w (c_words (prepare U item)) /\ includes w term = true)
      by (now apply Hinc).
    destruct (word_test canonicalize term _) as [[|]|]; [| |discriminate].
    + intros [= <-]. split; [cbn; tauto|]. split; [intros _; exact Hex|lia].
    + destruct (existsb _ _) eqn:Ep.
      * intros [= <-]. split; [cbn; tauto|]. split; [intros _; exact Hex|lia].
      * destruct (List.find _ _) as [[|c0 w0]|] eqn:Ef.
        -- apply find_some in Ef as [_ Hf]. apply andb_true_iff in Hf as [Hf _].
           cbn in Hf. destruct term; [now destruct Hne|discriminate].
        -- destruct (_ <? _)%Z; [|destruct (_ <? _)%Z]; intros [= <-];
             (split; [cbn; tauto|]); (split; [intros _; exact Hex|lia]).
        -- exfalso. destruct Hex as (w & Hw & Hi).
           pose proof (find_none _ _ Ef w Hw) as Hn. cbn beta in Hn.
           rewrite Hi in Hn. cbn [andb] in Hn. apply negb_false_iff in Hn.
           unfold Js.eqb in Hn. apply bool_decide_eq_true_1 in Hn. subst w.
           assert (Hs : startsWith term term = true)
             by (apply startsWith_spec; exists []; now rewrite app_nil_r).
           assert (Hp : existsb (fun w => startsWith w term) (c_words (prepare U item)) = true)
             by (apply existsb_exists; eauto).
           congruence.
  - intros [= <-]. split; [cbn; tauto|]. split; [lia|].
    intros Hex. apply Hinc in Hex. discriminate.
Qed.

(** In a text without ASCII letters, digits and underscores there is no
    word boundary. *)
Lemma test_from_without_ascii before term text :
  is_word before = false ->
  (forall u, In u text -> SearchPhrases.is_ascii_word u = false) ->
  test_from canonicalize before term text = false.
Proof.
  revert before. induction text as [|c r IH]; intros before Hb Ht.
  - cbn [test_from]. unfold match_here, at_boundary. cbn [head is_word].
    rewrite Hb. reflexivity.
  - cbn [test_from]. apply orb_false_iff. split.
    + unfold match_here, at_boundary. cbn [head is_word].
      rewrite Hb, (Ht c (or_introl eq_refl)). reflexivity.
    + apply IH; [cbn; apply Ht; now left|]. intros u Hu. apply Ht. now right.
Qed.

(** X19: a word boundary lies next to an ASCII letter, digit or
    underscore only.  Against a record whose search text has none of them
    (a title and source in Cyrillic, say) no term is a whole word: a term
    shorter than three units scores 0, no term scores 100, and a term of
    three or more units that is one of the words of the record scores 75. *)
Theorem whole_word_needs_ascii (searchText : jsstring) (words : list jsstring)
    (term : jsstring) (s : Z) :
  (forall u, In u searchText -> SearchPhrases.is_ascii_word u = false) ->
  scoreForTerm canonicalize searchText words term = Some s ->
  ((length term < 3)%nat -> s = 0%Z)
  /\ (s <= 75)%Z
  /\ ((3 <= length term)%nat -> In term words -> includes searchText term = true ->
      s = 75%Z).
Proof.
  intros Ht. unfold scoreForTerm, word_test.
  rewrite (test_from_without_ascii None term searchText eq_refl Ht).
  destruct (length term <? 3)%nat eqn:E3.
  - destruct (literal term); [|discriminate]. intros [= <-].
    apply Nat.ltb_lt in E3. split; [reflexivity|]. split; [lia|]. lia.
  - apply Nat.ltb_ge in E3. destruct (includes searchText term) eqn:Ei.
    + destruct (literal term); [|discriminate].
      destruct (existsb _ _) eqn:Ep.
      * intros [= <-]. split; [lia|]. split; [lia|]. reflexivity.
      * destruct (List.find _ _) as [[|c0 w0]|];
          [|destruct (_ <? _)%Z; [|destruct (_ <? _)%Z]|]; intros [= <-];
          (split; [lia|]); (split; [lia|]); intros _ Hin _; exfalso;
          (assert (Hp : existsb (fun w => startsWith w term) words = true)
             by (apply existsb_exists; exists term; split; [exact Hin|];
                 apply startsWith_spec; exists []; now rewrite app_nil_r));
          congruence.
    + intros [= <-]. split; [lia|]. split; [lia|]. intros _ _ H. discriminate.
Qed.

End ScoreFacts.

Example score_cyrillic_word :
  let item := mkDownload (js "1 GB") (js "2024-01-01") [] (js "Ад и рай") None None None
                None None None in
  let e := SearchEngine.prepare Excerpt.db item in
  SearchEngine.c_searchText e = js " ад и раи "
  /\ SearchEngine.scoreForTerm SearchEngine.excerpt_canonicalize
       (SearchEngine.c_searchText e) (SearchEngine.c_words e) (js "ад") = Some 0%Z
  /\ SearchEngine.scoreForTerm SearchEngine.excerpt_canonicalize
       (SearchEngine.c_searchText e) (SearchEngine.c_words e) (js "раи") = Some 75%Z.
Proof. vm_compute. repeat split. Qed.

Example score_latin_word :
  let item := mkDownload (js "1 GB") (js "2024-01-01") [] (js "Doom II") (Some (js "GOG"))
                None None None None None in
  let e := SearchEngine.prepare Excerpt.db item in
  SearchEngine.c_searchText e = js " doom ii gog "
  /\ map (SearchEngine.scoreForTerm SearchEngine.excerpt_canonicalize
            (SearchEngine.c_searchText e) (SearchEngine.c_words e))
       [js "ii"; js "doom"; js "doo"; js "oom"; js "om"; js "quake"]
     = [Some 40; Some 100; Some 75; Some 60; Some 0; Some 0]%Z.
Proof. vm_compute. split; reflexivity. Qed.

Lemma single_word_terms_score_on_words_witness :
  let item := mkDownload (js "1 GB") (js "2024-01-01") [] (js "Doom II") (Some (js "GOG"))
                None None None None None in
  (3 <= length (js "oom"))%nat
  /\ (forall u, In u (js "oom") -> u <> SP)
  /\ SearchEngine.scoreForTerm SearchEngine.excerpt_canonicalize
       (SearchEngine.c_searchText (SearchEngine.prepare Excerpt.db item))
       (SearchEngine.c_words (SearchEngine.prepare Excerpt.db item)) (js "oom")
     = Some 60%Z
  /\ In 60%Z [0; 25; 45; 60; 75; 100]%Z.
Proof.
  intros item.
  assert (H1 : (3 <= length (js "oom"))%nat) by (vm_compute; lia).
  assert (H2 : forall u, In u (js "oom") -> u <> SP).
  { intros u Hu. vm_compute in Hu. intros ->. 
    destruct Hu as [Hu|[Hu|[Hu|[]]]]; discriminate. }
  assert (H3 : SearchEngine.scoreForTerm SearchEngine.excerpt_canonicalize
       (SearchEngine.c_searchText (SearchEngine.prepare Excerpt.db item))
       (SearchEngine.c_words (SearchEngine.prepare Excerpt.db item)) (js "oom")
     = Some 60%Z) by (vm_compute; reflexivity).
  split; [exact H1|]. split; [exact H2|]. split; [exact H3|].
  exact (proj1 (single_word_terms_score_on_words Excerpt.db
                  SearchEngine.excerpt_canonicalize item (js "oom") 60%Z H1 H2 H3)).
Defined.

Lemma whole_word_needs_ascii_witness :
  (forall u, In u (js " ад и раи ") -> SearchPhrases.is_ascii_word u = false)
  /\ SearchEngine.scoreForTerm SearchEngine.excerpt_canonicalize (js " ад и раи ")
       [js "ад"; js "и"; js "раи"] (js "ад") = Some 0%Z
  /\ ((length (js "ад") < 3)%nat -> 0%Z = 0%Z).
Proof.
  assert (H1 : forall u, In u (js " ад и раи ") -> SearchPhrases.is_ascii_word u = false).
  { intros u Hu. vm_compute in Hu.
    repeat (destruct Hu as [<-|Hu]; [reflexivity|]). destruct Hu. }
  assert (H2 : SearchEngine.scoreForTerm SearchEngine.excerpt_canonicalize (js " ад и раи ")
       [js "ад"; js "и"; js "раи"] (js "ад") = Some 0%Z) by (vm_compute; reflexivity).
  split; [exact H1|]. split; [exact H2|].
  exact (proj1 (whole_word_needs_ascii SearchEngine.excerpt_canonicalize (js " ад и раи ")
                  [js "ад"; js "и"; js "раи"] (js "ад") 0%Z H1 H2)).
Defined.

(** ** [filterResults] *)

Section EngineFacts.
Import SearchEngine.
Local Open Scope Z_scope.

Lemma insert_perm {A} (cmp : A -> A -> Z) x l : Permutation (insert cmp x l) (x :: l).
Proof.
  induction l as [|y r IH]; cbn [insert]; [reflexivity|].
  destruct (cmp x y <=? 0); [reflexivity|].
  rewrite IH. apply perm_swap.
Qed.

Lemma sort_perm {A} (cmp : A -> A -> Z) l : Permutation (sort cmp l) l.
Proof.
  induction l as [|x r IH]; cbn [sort fold_right]; [reflexivity|].
  fold (sort cmp r). now rewrite insert_perm, IH.
Qed.

Variable U : ucd.
Variable canonicalize : N -> N.
Variable localeCompare : jsstring -> jsstring -> Z.
Variable extractExactPhrases : jsstring -> list jsstring * jsstring.
Variable checkExactPhrases : jsstring -> list jsstring -> bool.
Variable expandSearchTermsWithSynonyms : list jsstring -> option (list jsstring).
Variable getRecencyBonus : Z -> jsstring -> Z.

Lemma scoreForTerm_range searchText words term s :
  scoreForTerm canonicalize searchText words term = Some s -> 0 <= s <= 100.
Proof.
  unfold scoreForTerm.
  destruct (length term <? 3)%nat.
  - destruct (word_test _ _ _) as [[|]|]; intros [= <-]; lia.
  - destruct (includes searchText term); [|intros [= <-]; lia].
    destruct (word_test _ _ _) as [[|]|]; [intros [= <-]; lia| |discriminate].
    destruct (existsb _ _); [intros [= <-]; lia|].
    destruct (List.find _ _) as [[|c0 w0]|];
      [|destruct (_ <? _); [|destruct (_ <? _)]|]; intros [= <-]; lia.
Qed.

Section Loops.
Variable score : jsstring -> option Z.
Hypothesis score_range : forall term s, score term = Some s -> 0 <= s.

Lemma score_terms_facts terms t0 a0 t a :
  score_terms score terms t0 a0 = Some (t, a) ->
  t0 <= t /\ (a = true -> a0 = true /\ (terms <> [] -> t0 < t)).
Proof.
  revert t0 a0. induction terms as [|term r IH]; intros t0 a0; cbn [score_terms].
  - intros [= <- <-]. split; [lia|]. intros Hat. split; [exact Hat|congruence].
  - destruct (score term) as [s|] eqn:Es; [|discriminate].
    pose proof (score_range _ _ Es) as Hs. intros H.
    destruct (IH _ _ H) as [Hle Ha]. split; [lia|].
    intros Hat. destruct (Ha Hat) as [Ha0 Hlt].
    destruct (s =? 0) eqn:Ez; [discriminate|]. apply Z.eqb_neq in Ez.
    split; [exact Ha0|]. intros _. lia.
Qed.

Lemma score_synonyms_facts terms t0 t :
  score_synonyms score terms t0 = Some t -> t0 <= t.
Proof.
  revert t0. induction terms as [|term r IH]; intros t0; cbn [score_synonyms].
  - intros [= <-]. lia.
  - destruct (score term) as [s|] eqn:Es; [|discriminate].
    pose proof (score_range _ _ Es) as Hs. intros H. apply IH in H.
    destruct (0 <? s) eqn:E; [|exact H]. 
    assert (0 <= 7 * s / 10) by (apply Z.div_pos; lia). lia.
Qed.

End Loops.

Hypothesis bonus_range : forall now d, 0 <= getRecencyBonus now d.

(** The score of a record: it is not negative, it is positive when every
    one of at least one term matched, and the clock decides neither whether
    it is zero nor whether all terms matched. *)
Lemma score_item_facts searchTerms expanded now e item t a :
  score_item canonicalize getRecencyBonus searchTerms expanded now e item = Some (t, a) ->
  0 <= t
  /\ (a = true -> searchTerms <> [] -> 0 < t)
  /\ forall now', exists t',
       score_item canonicalize getRecencyBonus searchTerms expanded now' e item = Some (t', a)
       /\ (t = 0 <-> t' = 0).
Proof.
  unfold score_item.
  set (score := scoreForTerm canonicalize (c_searchText e) (c_words e)).
  assert (Hr : forall term s, score term = Some s -> 0 <= s)
    by (intros term s H; now apply scoreForTerm_range in H).
  destruct (score_terms score searchTerms 0 true) as [[t1 a1]|] eqn:E1; [|discriminate].
  destruct (score_terms_facts score Hr _ _ _ _ _ E1) as [H1 Ha].
  destruct (score_synonyms score _ t1) as [t2|] eqn:E2; [|discriminate].
  pose proof (score_synonyms_facts score Hr _ _ _ E2) as H2.
  intros [= <- <-]. split; [|split].
  - destruct (0 <? t2) eqn:E; [|lia]. pose proof (bonus_range now (uploadDate item)). lia.
  - intros Hat Hne. destruct (Ha Hat) as [_ Hlt]. specialize (Hlt Hne).
    assert (E : (0 <? t2) = true) by (apply Z.ltb_lt; lia). rewrite E.
    pose proof (bonus_range now (uploadDate item)). lia.
  - intros now'. eexists. split; [reflexivity|].
    pose proof (bonus_range now (uploadDate item)).
    pose proof (bonus_range now' (uploadDate item)).
    destruct (0 <? t2) eqn:E; [apply Z.ltb_lt in E|apply Z.ltb_ge in E]; lia.
Qed.

#[local] Abbreviation scan_ := (scan U canonicalize checkExactPhrases getRecencyBonus).
#[local] Abbreviation filterResults_ :=
  (filterResults U canonicalize localeCompare extractExactPhrases checkExactPhrases
     expandSearchTermsWithSynonyms getRecencyBonus).
#[local] Abbreviation gate := (passes_gate U checkExactPhrases).

#[local] Abbreviation titled := (SearchEngine.titled U checkExactPhrases).

(** The loop keeps records of the list, in their order, that have a title
    and pass the phrase gate. *)
Lemma scan_sub mode P T E clock ds :
  forall i st st' r,
  scan_ mode P T E clock i st ds = Some (st', r) ->
  sublist (map fst r) ds
  /\ (forall x, In x (map fst r) -> titled P x = true).
Proof.
  induction ds as [|[id item] rest IH]; intros i st st' r; cbn [scan].
  - intros [= <- <-]. split; [constructor|intros x []].
  - destruct (truthy (title item)) eqn:Et; cbn [negb].
    2:{ intros H. destruct (IH _ _ _ _ H) as [Hs Hx]. split; [now constructor|exact Hx]. }
    destruct (gate P item) eqn:Eg; cbn [negb].
    2:{ intros H. destruct (IH _ _ _ _ H) as [Hs Hx]. split; [now constructor|exact Hx]. }
    destruct (lookup U st id item) as [st1 e].
    destruct (score_item _ _ _ _ _ _ _) as [[t a]|]; [|discriminate].
    destruct (scan_ mode P T E clock (S i) st1 rest) as [[st2 r2]|] eqn:Er; [|discriminate].
    destruct (IH _ _ _ _ Er) as [Hs Hx].
    destruct (dropped mode t a); intros [= <- <-].
    + split; [now constructor|exact Hx].
    + cbn [map fst]. split; [now constructor|].
      intros x [<-|Hin]; [|now apply Hx]. unfold titled. cbn [snd].
      now rewrite Et, Eg.
Qed.

(** X20: [filterResults] adds no record and repeats none: what it returns
    is, up to its order, a part of the list it was given.  A blank query
    returns the list itself and leaves the caches alone; any other query
    returns only records with a title that pass the phrase gate. *)
Theorem filterResults_selects_records st clock downloads searchQuery mode st' r :
  filterResults_ st clock downloads searchQuery mode = Some (st', r) ->
  r ⊆+ downloads
  /\ (truthy (trim searchQuery) = false -> r = downloads /\ st' = st)
  /\ (truthy (trim searchQuery) = true ->
      forall x, In x r -> titled (fst (extractExactPhrases searchQuery)) x = true).
Proof.
  unfold filterResults. destruct (truthy (trim searchQuery)) eqn:Eq; cbn [negb].
  2:{ intros [= <- <-]. split; [reflexivity|]. split; [auto|discriminate]. }
  destruct downloads as [|d ds].
  { intros [= <- <-]. split; [reflexivity|]. split; [discriminate|intros _ x []]. }
  destruct (extractExactPhrases searchQuery) as [P R]. cbn [fst].
  destruct (expandSearchTermsWithSynonyms _) as [E|]; [|discriminate].
  destruct (scan_ mode P _ E clock 0%nat st (d :: ds)) as [[st2 sr]|] eqn:Es; [|discriminate].
  intros [= <- <-]. destruct (scan_sub _ _ _ _ _ _ _ _ _ _ Es) as [Hsub Hx].
  pose proof (sort_perm (by_score_then_title U localeCompare) sr) as Hp.
  split; [|split; [discriminate|]].
  - apply sublist_submseteq in Hsub. rewrite <- Hsub.
    apply Permutation_submseteq. now apply Permutation_map.
  - intros _ x Hin. apply Hx. eapply Permutation_in; [|exact Hin].
    now apply Permutation_map.
Qed.

Lemma scan_all_any P T E clock clock' ds :
  T <> [] ->
  forall i st st1 r1,
  scan_ all P T E clock i st ds = Some (st1, r1) ->
  exists r2, scan_ any P T E clock' i st ds = Some (st1, r2)
    /\ forall x, In x (map fst r1) -> In x (map fst r2).
Proof.
  intros HT. induction ds as [|[id item] rest IH]; intros i st st1 r1; cbn [scan].
  - intros [= <- <-]. exists []. split; [reflexivity|auto].
  - destruct (negb (truthy (title item))); [apply IH|].
    destruct (negb (gate P item)); [apply IH|].
    destruct (lookup U st id item) as [st0 e].
    destruct (score_item _ _ _ _ (clock i) _ _) as [[t a]|] eqn:Esc; [|discriminate].
    destruct (score_item_facts _ _ _ _ _ _ _ Esc) as (Hpos & Hall & Hclock).
    destruct (Hclock (clock' i)) as (t' & Esc' & Hz). rewrite Esc'.
    destruct (scan_ all P T E clock (S i) st0 rest) as [[st2 r]|] eqn:Er; [|discriminate].
    destruct (IH _ _ _ _ Er) as (r2 & Er2 & Hin). rewrite Er2.
    unfold dropped. destruct a; cbn [negb]; intros [= <- <-].
    + specialize (Hall eq_refl HT).
      assert (Ez : (t' =? 0) = false) by (apply Z.eqb_neq; lia). rewrite Ez.
      eexists. split; [reflexivity|]. cbn [map fst].
      intros x [<-|Hx]; [now left|right; now apply Hin].
    + destruct (t' =? 0); eexists; (split; [reflexivity|]); [exact Hin|].
      cbn [map fst]. intros x Hx. right. now apply Hin.
Qed.

(** X21: for a query with at least one search term, every record the mode
    [all] returns is returned by the mode [any] as well, whatever the
    clock shows, and both calls leave the same caches behind. *)
Theorem all_results_are_any_results st clock clock' downloads searchQuery st1 r1 :
  SearchTerms.searchTerms U (snd (extractExactPhrases searchQuery)) <> [] ->
  filterResults_ st clock downloads searchQuery all = Some (st1, r1) ->
  exists r2, filterResults_ st clock' downloads searchQuery any = Some (st1, r2)
    /\ forall x, In x r1 -> In x r2.
Proof.
  unfold filterResults. intros HT.
  destruct (negb (truthy (trim searchQuery))); [intros [= <- <-]; eauto|].
  destruct downloads as [|d ds]; [intros [= <- <-]; eauto|].
  destruct (extractExactPhrases searchQuery) as [P R]. cbn [snd] in HT.
  destruct (expandSearchTermsWithSynonyms _) as [E|]; [|discriminate].
  destruct (scan_ all P _ E clock 0%nat st (d :: ds)) as [[st2 sr]|] eqn:Es; [|discriminate].
  intros [= <- <-].
  destruct (scan_all_any P _ E clock clock' (d :: ds) HT _ _ _ _ Es) as (sr2 & Es2 & Hin).
  rewrite Es2. eexists. split; [reflexivity|]. intros x Hx.
  eapply Permutation_in;
    [apply Permutation_map; symmetry; apply sort_perm|].
  apply Hin. eapply Permutation_in; [|exact Hx].
  apply Permutation_map, sort_perm.
Qed.

End EngineFacts.

Section NoTermFacts.
Import SearchEngine.
Local Open Scope Z_scope.
Variable U : ucd.
Variable canonicalize : N -> N.
Variable localeCompare : jsstring -> jsstring -> Z.
Variable extractExactPhrases : jsstring -> list jsstring * jsstring.
Variable checkExactPhrases : jsstring -> list jsstring -> bool.
Variable expandSearchTermsWithSynonyms : list jsstring -> option (list jsstring).
Variable getRecencyBonus : Z -> jsstring -> Z.

#[local] Abbreviation scan_ := (scan U canonicalize checkExactPhrases getRecencyBonus).
#[local] Abbreviation filterResults_ :=
  (filterResults U canonicalize localeCompare extractExactPhrases checkExactPhrases
     expandSearchTermsWithSynonyms getRecencyBonus).

Lemma scan_no_terms P clock ds :
  forall i st, exists st' r,
    scan_ all P [] [] clock i st ds = Some (st', r)
    /\ scan_ any P [] [] clock i st ds = Some (st', [])
    /\ map fst r = List.filter (titled U checkExactPhrases P) ds.
Proof.
  induction ds as [|[id item] rest IH]; intros i st; cbn [scan List.filter].
  - exists st, []. auto.
  - unfold titled at 1. cbn [snd].
    destruct (truthy (title item)); cbn [negb andb]; [|apply IH].
    destruct (passes_gate U checkExactPhrases P item); cbn [negb]; [|apply IH].
    destruct (lookup U st id item) as [st0 e].
    destruct (IH (S i) st0) as (st' & r & Ha & Hb & Hm).
    unfold score_item. cbn [score_terms List.filter score_synonyms].
    change (0 <? 0) with false. cbv iota. rewrite Ha, Hb. cbn [dropped negb].
    change (0 =? 0) with true. cbv iota.
    exists st', ((id, item, 0) :: r). split; [reflexivity|]. split; [reflexivity|].
    cbn [map fst]. now rewrite Hm.
Qed.

(** X22: a query that leaves no search term, as one made of quoted
    phrases only, finds nothing in the mode [any], while the mode [all]
    returns every record with a title that passes the phrase gate; the
    expansion is taken to add nothing to an empty list of terms. *)
Theorem query_without_terms st clock downloads searchQuery :
  truthy (trim searchQuery) = true ->
  SearchTerms.searchTerms U (snd (extractExactPhrases searchQuery)) = [] ->
  expandSearchTermsWithSynonyms [] = Some [] ->
  exists st' r,
    filterResults_ st clock downloads searchQuery any = Some (st', [])
    /\ filterResults_ st clock downloads searchQuery all = Some (st', r)
    /\ Permutation r
         (List.filter (titled U checkExactPhrases (fst (extractExactPhrases searchQuery)))
            downloads).
Proof.
  intros Hq HT HE. unfold filterResults. rewrite Hq. cbn [negb].
  destruct downloads as [|d ds]; [exists st, []; auto|].
  destruct (extractExactPhrases searchQuery) as [P R]. cbn [fst snd] in *.
  rewrite HT, HE.
  destruct (scan_no_terms P clock (d :: ds) 0%nat st) as (st' & r & Ha & Hb & Hm).
  rewrite Ha, Hb. exists st'. eexists. split; [reflexivity|]. split; [reflexivity|].
  rewrite <- Hm. apply Permutation_map, sort_perm.
Qed.

End NoTermFacts.

(** The cases of the test suite of the repository, on the model. *)
Example repository_test_suite :
  let clock := fun _ : nat => 1600000000000%Z in
  let run q := SearchInstance.titles
    (SearchInstance.filterResults SearchInstance.fresh clock
       SearchInstance.baseDownloads (js q) SearchEngine.any) in
  run "skyrim" = Some [js "Skyrim Special Edition"]
  /\ run "sky" = Some [js "No Man’s Sky"; js "Skyrim Special Edition"]
  /\ run "st" = Some []
  /\ run "star" = Some [js "Star Wars"; js "Sea of Stars"].
Proof. vm_compute. repeat split. Qed.

Lemma recency_range now d : (0 <= SearchInstance.recency now d)%Z.
Proof.
  unfold SearchInstance.recency, TypesHelpers.getRecencyBonus,
    TypesHelpers.daysSinceUpload.
  destruct (DateExcerpt.parse _); [|lia].
  repeat (destruct (_ <=? _)%Z; [lia|]). lia.
Qed.

Lemma star_search_returns :
  match SearchInstance.filterResults SearchInstance.fresh (fun _ => 1600000000000%Z)
          SearchInstance.baseDownloads (js "star") SearchEngine.any with
  | Some _ => true
  | None => false
  end = true.
Proof. vm_compute. reflexivity. Qed.

Lemma sea_search_returns :
  match SearchInstance.filterResults SearchInstance.fresh (fun _ => 1600000000000%Z)
          SearchInstance.baseDownloads (js "the sea") SearchEngine.all with
  | Some _ => true
  | None => false
  end = true.
Proof. vm_compute. reflexivity. Qed.

Lemma filterResults_selects_records_witness :
  exists st' r,
    SearchInstance.filterResults SearchInstance.fresh (fun _ => 1600000000000%Z)
      SearchInstance.baseDownloads (js "star") SearchEngine.any = Some (st', r)
    /\ r ⊆+ SearchInstance.baseDownloads.
Proof.
  pose proof star_search_returns as Hr.
  destruct (SearchInstance.filterResults SearchInstance.fresh (fun _ => 1600000000000%Z)
              SearchInstance.baseDownloads (js "star") SearchEngine.any)
    as [[st' r]|] eqn:E; [|discriminate Hr].
  exists st', r. split; [reflexivity|].
  exact (proj1 (filterResults_selects_records Excerpt.db SearchEngine.excerpt_canonicalize
                  SearchInstance.unit_order TypesHelpers.extractExactPhrases
                  (TypesHelpers.checkExactPhrases Excerpt.db)
                  (TypesHelpers.expandSearchTermsWithSynonyms Excerpt.db)
                  SearchInstance.recency
                  SearchInstance.fresh (fun _ => 1600000000000%Z)
                  SearchInstance.baseDownloads (js "star") SearchEngine.any st' r E)).
Defined.

Lemma sea_query_has_terms :
  SearchTerms.searchTerms Excerpt.db
    (snd (TypesHelpers.extractExactPhrases (js "the sea"))) <> [].
Proof. vm_compute. discriminate. Qed.

Lemma all_results_are_any_results_witness :
  SearchTerms.searchTerms Excerpt.db
    (snd (TypesHelpers.extractExactPhrases (js "the sea"))) <> []
  /\ exists st1 r1 r2,
       SearchInstance.filterResults SearchInstance.fresh (fun _ => 1600000000000%Z)
         SearchInstance.baseDownloads (js "the sea") SearchEngine.all = Some (st1, r1)
       /\ SearchInstance.filterResults SearchInstance.fresh (fun _ => 1700000000000%Z)
            SearchInstance.baseDownloads (js "the sea") SearchEngine.any = Some (st1, r2)
       /\ forall x, In x r1 -> In x r2.
Proof.
  split; [exact sea_query_has_terms|].
  pose proof sea_search_returns as Hr.
  destruct (SearchInstance.filterResults SearchInstance.fresh (fun _ => 1600000000000%Z)
              SearchInstance.baseDownloads (js "the sea") SearchEngine.all)
    as [[st1 r1]|] eqn:E; [|discriminate Hr].
  destruct (all_results_are_any_results Excerpt.db SearchEngine.excerpt_canonicalize
              SearchInstance.unit_order TypesHelpers.extractExactPhrases
              (TypesHelpers.checkExactPhrases Excerpt.db)
              (TypesHelpers.expandSearchTermsWithSynonyms Excerpt.db)
              SearchInstance.recency
              recency_range SearchInstance.fresh (fun _ => 1600000000000%Z)
              (fun _ => 1700000000000%Z) SearchInstance.baseDownloads (js "the sea")
              st1 r1 sea_query_has_terms E) as (r2 & E2 & Hin).
  exists st1, r1, r2. split; [reflexivity|]. split; [exact E2|exact Hin].
Defined.

Lemma phrase_query_has_no_terms :
  SearchTerms.searchTerms Excerpt.db
    (snd (TypesHelpers.extractExactPhrases
            ([SearchPhrases.DQ] ++ js "star wars" ++ [SearchPhrases.DQ]))) = [].
Proof. vm_compute. reflexivity. Qed.

Lemma query_without_terms_witness :
  let q := [SearchPhrases.DQ] ++ js "star wars" ++ [SearchPhrases.DQ] in
  truthy (trim q) = true
  /\ SearchTerms.searchTerms Excerpt.db
       (snd (TypesHelpers.extractExactPhrases q)) = []
  /\ TypesHelpers.expandSearchTermsWithSynonyms Excerpt.db [] = Some []
  /\ exists st' r,
       SearchInstance.filterResults SearchInstance.fresh (fun _ => 1600000000000%Z)
         SearchInstance.baseDownloads q SearchEngine.any = Some (st', [])
       /\ SearchInstance.filterResults SearchInstance.fresh (fun _ => 1600000000000%Z)
            SearchInstance.baseDownloads q SearchEngine.all = Some (st', r)
       /\ Permutation r
            (List.filter
               (SearchEngine.titled Excerpt.db (TypesHelpers.checkExactPhrases Excerpt.db)
                  (fst (TypesHelpers.extractExactPhrases q)))
               SearchInstance.baseDownloads).
Proof.
  intros q.
  assert (H1 : truthy (trim q) = true) by reflexivity.
  pose proof phrase_query_has_no_terms as H2.
  assert (H3 : TypesHelpers.expandSearchTermsWithSynonyms Excerpt.db [] = Some [])
    by reflexivity.
  split; [exact H1|]. split; [exact H2|]. split; [exact H3|].
  exact (query_without_terms Excerpt.db SearchEngine.excerpt_canonicalize
           SearchInstance.unit_order TypesHelpers.extractExactPhrases
           (TypesHelpers.checkExactPhrases Excerpt.db)
           (TypesHelpers.expandSearchTermsWithSynonyms Excerpt.db)
           SearchInstance.recency
           SearchInstance.fresh (fun _ => 1600000000000%Z) SearchInstance.baseDownloads q
           H1 H2 H3).
Defined.

(** ** The caches of prepared texts *)

Section CacheFacts.
Import SearchEngine.
Variable U : ucd.

Lemma get_after_set (c : LruCache.t (list N) persistent) key v :
  LruCache.has c key = false ->
  snd (LruCache.get (LruCache.set c key (Some v)) key) = Some v.
Proof.
  intros Hh. unfold LruCache.set. rewrite Hh.
  unfold LruCache.get, LruCache.has. cbn [LruCache.cache].
  rewrite lookup_insert_eq.
  rewrite bool_decide_eq_true_2 by (eexists; reflexivity).
  cbn [snd]. unfold LruCache.updateAccessOrder, LruCache.map_get. cbn [LruCache.cache].
  now rewrite lookup_insert_eq.
Qed.

(** X23: the persistent cache is keyed by title and upload date alone.  Of
    two records with the same title and date the second is searched with
    the text prepared for the first, whatever its own source and
    pre-computed fields are, although alone it would have got its own. *)
Theorem cached_text_ignores_the_source (st : caches) (ida idb : positive)
    (a b : DownloadType) :
  title a = title b -> uploadDate a = uploadDate b -> ida <> idb ->
  weakSearchCache st !! ida = None -> weakSearchCache st !! idb = None ->
  LruCache.has (persistentSearchCache st) (persistentKey a) = false ->
  snd (lookup U st ida a) = prepare U a
  /\ snd (lookup U (fst (lookup U st ida a)) idb b) = prepare U a
  /\ snd (lookup U st idb b) = prepare U b.
Proof.
  intros Ht Hd Hne Ha Hb Hh.
  assert (Hk : persistentKey b = persistentKey a)
    by (unfold persistentKey; now rewrite Ht, Hd).
  assert (Hmiss : forall id x, weakSearchCache st !! id = None ->
            persistentKey x = persistentKey a ->
            lookup U st id x
            = (mkCaches (<[id := prepare U x]> (weakSearchCache st))
                 (LruCache.set (persistentSearchCache st) (persistentKey x)
                    (Some (mkPersistent (c_searchText (prepare U x)) (c_words (prepare U x))
                             (title x) (uploadDate x)))),
               prepare U x)).
  { intros id x Hw Hx. unfold lookup. rewrite Hw. unfold LruCache.get.
    rewrite Hx, Hh. reflexivity. }
  rewrite (Hmiss ida a Ha eq_refl), (Hmiss idb b Hb Hk). cbn [fst snd].
  split; [reflexivity|]. split; [|reflexivity].
  unfold lookup. cbn [weakSearchCache persistentSearchCache].
  rewrite lookup_insert_ne by exact Hne. rewrite Hb, Hk.
  pose proof (get_after_set (persistentSearchCache st) (persistentKey a)
                (mkPersistent (c_searchText (prepare U a)) (c_words (prepare U a))
                   (title a) (uploadDate a)) Hh) as Hg.
  destruct (LruCache.get _ _) as [lru found]. cbn [snd] in Hg. subst found.
  cbn [p_title p_uploadDate p_searchText p_words].
  unfold Js.eqb. rewrite Ht, Hd, !bool_decide_eq_true_2 by reflexivity.
  cbn [andb snd]. now destruct (prepare U a).
Qed.

End CacheFacts.

Lemma cached_text_ignores_the_source_witness :
  let a := SearchInstance.record "Doom" "GOG" "2020-01-01" in
  let b := SearchInstance.record "Doom" "Steam" "2020-01-01" in
  SearchEngine.c_searchText
    (snd (SearchEngine.lookup Excerpt.db
            (fst (SearchEngine.lookup Excerpt.db SearchInstance.fresh 1%positive a))
            2%positive b))
  = js " doom gog ".
Proof.
  intros a b.
  assert (H : forall x, x = SearchEngine.prepare Excerpt.db a ->
            SearchEngine.c_searchText x = js " doom gog ")
    by (intros x ->; vm_compute; reflexivity).
  apply H.
  apply (cached_text_ignores_the_source Excerpt.db SearchInstance.fresh 1%positive
           2%positive a b); try reflexivity.
  discriminate.
Defined.

(** ** The source loader *)

Section LoaderFacts.
Import SourceLoader.

Lemma delivered_app es es' : delivered (es ++ es') = delivered es ++ delivered es'.
Proof. unfold delivered. apply omap_app. Qed.

Lemma fetched_app es es' : fetched (es ++ es') = fetched es ++ fetched es'.
Proof. unfold fetched. apply omap_app. Qed.

(** What a step does to the shared state: the events it appends mention
    the URL of the call only, and a delivery marks that URL processed. *)
Lemma step_events g t i g' t' :
  step g t i = (g', t') ->
  t_url t' = t_url t /\ t_name t' = t_name t
  /\ recentlyRemovedUrls g' = recentlyRemovedUrls g
  /\ (at_ t = Start -> g' = g /\ t' = enter g t)
  /\ (at_ t = Done -> g' = g /\ t' = t)
  /\ exists new, events g' = events g ++ new
       /\ (forall u, u ∈ delivered new \/ u ∈ fetched new -> u = t_url t)
       /\ ((delivered new = [] /\ processedUrlLoads g' = processedUrlLoads g)
           \/ (delivered new = [t_url t] /\ at_ t' = Done
               /\ processedUrlLoads g' = {[t_url t]} ∪ processedUrlLoads g)).
Proof.
  assert (Hquiet : forall (es : list event) (S : gset (list N))
              (Q : list event -> Prop),
       exists new, es = es ++ new
       /\ (forall u, u ∈ delivered new \/ u ∈ fetched new -> u = t_url t)
       /\ ((delivered new = [] /\ S = S) \/ Q new)).
  { intros es S Q. exists []. rewrite app_nil_r. split; [reflexivity|].
    split; [intros u [H|H]; inversion H|]. left. split; reflexivity. }
  assert (Hone : forall (es : list event) e (S : gset (list N))
              (Q : list event -> Prop),
       delivered [e] = [] ->
       (forall u, u ∈ fetched [e] -> u = t_url t) ->
       exists new, es ++ [e] = es ++ new
       /\ (forall u, u ∈ delivered new \/ u ∈ fetched new -> u = t_url t)
       /\ ((delivered new = [] /\ S = S) \/ Q new)).
  { intros es e S Q Hd Hf. exists [e]. split; [reflexivity|].
    split; [intros u [H|H]; [rewrite Hd in H; inversion H|now apply Hf]|].
    left. split; [exact Hd|reflexivity]. }
  assert (Hdel : forall (es : list event) data (P : list event -> Prop)
              (S : gset (list N)),
       exists new, es ++ [AddData data (t_url t)] = es ++ new
       /\ (forall u, u ∈ delivered new \/ u ∈ fetched new -> u = t_url t)
       /\ (P new \/ (delivered new = [t_url t] /\ Done = Done /\ S = S))).
  { intros es data P S. exists [AddData data (t_url t)]. split; [reflexivity|].
    split; [cbn; intros u [H|H]; [apply list_elem_of_singleton in H; exact H|inversion H]|].
    right. cbn. auto. }
  unfold step. destruct (at_ t) eqn:Eat.
  - intros [= <- <-]. unfold enter.
    destruct (bool_decide _); cbn [t_url t_name move];
      repeat (split; [reflexivity|]);
      (split; [intros _; split; reflexivity|]); (split; [discriminate|]);
      apply Hquiet.
  - destruct (UrlCache.getCachedUrl _ _ _ _) as [db [data|]].
    + intros [= <- <-]. cbn. repeat (split; [reflexivity|]).
      split; [discriminate|]. split; [discriminate|]. apply Hdel.
    + cbn [failedUrlAt recentlyRemovedUrls].
      destruct (backing_off _ _); [|destruct (_ || _)]; intros [= <- <-]; cbn;
        repeat (split; [reflexivity|]); (split; [discriminate|]);
        (split; [discriminate|]); try apply Hquiet.
      apply Hone; [reflexivity|].
      cbn. intros u H. apply list_elem_of_singleton in H. exact H.
  - destruct (arrived i); intros [= <- <-]; cbn; repeat (split; [reflexivity|]);
      (split; [discriminate|]); (split; [discriminate|]); try apply Hquiet.
    apply Hone; [reflexivity|]. cbn. intros u H. inversion H.
  - destruct (text i); intros [= <- <-]; cbn; repeat (split; [reflexivity|]);
      (split; [discriminate|]); (split; [discriminate|]); try apply Hquiet.
    apply Hone; [reflexivity|]. cbn. intros u H. inversion H.
  - intros [= <- <-]. cbn. repeat (split; [reflexivity|]).
    split; [discriminate|]. split; [discriminate|]. apply Hdel.
  - intros [= <- <-]. repeat (split; [reflexivity|]).
    split; [discriminate|]. split; [intros _; split; reflexivity|]. rewrite Eat.
    apply Hquiet.
Qed.

Lemma step_once g t i g' t' :
  once g -> under_way g t -> step g t i = (g', t') -> once g' /\ under_way g' t'.
Proof.
  intros [Hnd Hin] Hu Hs.
  destruct (step_events _ _ _ _ _ Hs) as (Hurl & _ & _ & Hstart & Hdone & new & He & _ & Hd).
  assert (Hpc : at_ t = Start \/ at_ t = Done \/ (at_ t <> Start /\ at_ t <> Done))
    by (destruct (at_ t); auto; right; right; split; discriminate).
  destruct Hpc as [Es|[Ed|[Es Ed]]].
  { destruct (Hstart Es) as [-> ->]. split; [now split|].
    unfold under_way, enter. destruct (bool_decide _) eqn:Eb; cbn [at_ move t_url].
    - intros _ H. now destruct H.
    - intros _ _. now apply bool_decide_eq_false_1 in Eb. }
  { destruct (Hdone Ed) as [-> ->]. split; [now split|].
    unfold under_way. intros _ H. now destruct H. }
  assert (Hnp : t_url t ∉ processedUrlLoads g) by (now apply Hu).
  destruct Hd as [[Hd Hp]|(Hd & Hat & Hp)].
  - split.
    + split; rewrite He, delivered_app, Hd, app_nil_r, ?Hp; assumption.
    + unfold under_way. rewrite Hurl, Hp. auto.
  - split; [split|unfold under_way; rewrite Hat; intros _ H; now destruct H].
    + rewrite He, delivered_app, Hd. apply NoDup_app. split; [exact Hnd|].
      split; [|apply NoDup_singleton].
      intros u Hu1 Hu2. apply list_elem_of_singleton in Hu2. subst u.
      apply Hnp. now apply Hin.
    + intros u Hu'. rewrite He, delivered_app, Hd in Hu'. rewrite Hp.
      apply elem_of_app in Hu' as [Hu'|Hu'].
      * apply elem_of_union_r. now apply Hin.
      * apply list_elem_of_singleton in Hu'. subst u.
        apply elem_of_union_l, elem_of_singleton. reflexivity.
Qed.

Lemma run_single g t schedule g' ts :
  once g -> under_way g t -> run g [t] schedule = (g', ts) ->
  exists t', ts = [t'] /\ once g' /\ under_way g' t'.
Proof.
  revert g t. induction schedule as [|[k i] rest IH]; intros g t Ho Hu; cbn [run].
  - intros [= <- <-]. eauto.
  - destruct k as [|k]; cbn [lookup list_lookup].
    + destruct (step g t i) as [g1 t1] eqn:Es.
      destruct (step_once _ _ _ _ _ Ho Hu Es) as [Ho1 Hu1].
      cbn [insert list_insert]. now apply IH.
    + now apply IH.
Qed.

Lemma perform_once g o : once g -> once (perform g o).
Proof.
  intros Ho. destruct o as [source inputs|sourceName url|url]; cbn [perform].
  - unfold loadSingleSource.
    destruct (run g [call_of source] _) as [g' ts] eqn:Er. cbn [fst].
    assert (Hu : under_way g (call_of source)) by (intros H; now destruct H).
    now destruct (run_single _ _ _ _ _ Ho Hu Er) as (t' & _ & Ho' & _).
  - destruct Ho as [Hnd Hin]. unfold markSourceAsRemoved.
    destruct url as [[|c url]|]; split; cbn; try assumption;
      intros u Hu; try (apply elem_of_union_r); now apply Hin.
  - destruct Ho as [Hnd Hin]. split; cbn; [assumption|].
    intros u Hu. apply elem_of_union_r. now apply Hin.
Qed.

(** X24: as long as the calls are awaited one after the other, no URL is
    handed to [onAddData] twice, however loading, removing and marking are
    mixed and whatever the network and the URL cache deliver; and every
    URL handed over is marked processed. *)
Theorem sequential_loads_deliver_once (db : UrlCache.store) (ops : list operation) :
  NoDup (delivered (events (exec (initial db) ops)))
  /\ forall u, u ∈ delivered (events (exec (initial db) ops)) ->
       isSourceProcessed (exec (initial db) ops) u = true.
Proof.
  assert (H : once (exec (initial db) ops)).
  { unfold exec. assert (H0 : once (initial db)).
    { split; cbn; [constructor|intros u Hu; inversion Hu]. }
    revert H0. generalize (initial db). induction ops as [|o ops IH]; intros g Hg.
    - exact Hg.
    - cbn [fold_left]. apply IH. now apply perform_once. }
  destruct H as [Hnd Hin]. split; [exact Hnd|].
  intros u Hu. unfold isSourceProcessed. apply bool_decide_eq_true_2. now apply Hin.
Qed.

Lemma run_single_quiet u schedule :
  forall g t g' ts,
  u ∈ processedUrlLoads g -> (t_url t = u -> at_ t = Start \/ at_ t = Done) ->
  run g [t] schedule = (g', ts) ->
  exists new, events g' = events g ++ new
    /\ (u ∉ delivered new) /\ (u ∉ fetched new) /\ u ∈ processedUrlLoads g'.
Proof.
  induction schedule as [|[k i] rest IH]; intros g t g' ts Hp Ht; cbn [run].
  - intros [= <- <-]. exists []. rewrite app_nil_r.
    split; [reflexivity|]. split; [intros H; inversion H|]. split; [intros H; inversion H|exact Hp].
  - destruct k as [|k]; cbn [lookup list_lookup]; [|now apply IH].
    destruct (step g t i) as [g1 t1] eqn:Es. cbn [insert list_insert].
    destruct (step_events _ _ _ _ _ Es)
      as (Hurl & _ & _ & Hstart & Hdone & new1 & He1 & Hm & Hd).
    assert (Hp1 : u ∈ processedUrlLoads g1).
    { destruct Hd as [[_ ->]|(_ & _ & ->)]; [exact Hp|now apply elem_of_union_r]. }
    assert (Hq : (u ∉ delivered new1) /\ (u ∉ fetched new1) /\
                 (t_url t1 = u -> at_ t1 = Start \/ at_ t1 = Done)).
    { destruct (decide (t_url t = u)) as [E|E].
      - assert (Hst : g1 = g /\ at_ t1 = Done).
        { destruct (Ht E) as [Hs|Hs].
          + destruct (Hstart Hs) as [-> ->]. split; [reflexivity|].
            unfold enter. rewrite E, bool_decide_eq_true_2 by exact Hp. reflexivity.
          + destruct (Hdone Hs) as [-> ->]. split; [reflexivity|exact Hs]. }
        destruct Hst as [-> Hat].
        assert (new1 = []) by (apply (app_inv_head (events g)); now rewrite app_nil_r, <- He1).
        subst new1. split; [intros H; inversion H|]. split; [intros H; inversion H|auto].
      - split; [intros H; apply E; symmetry; apply Hm; now left|].
        split; [intros H; apply E; symmetry; apply Hm; now right|].
        intros H. rewrite Hurl in H. contradiction. }
    destruct Hq as (Hq1 & Hq2 & Hq3). intros Hr.
    destruct (IH _ _ _ _ Hp1 Hq3 Hr) as (new2 & He2 & Hn1 & Hn2 & Hp2).
    exists (new1 ++ new2). rewrite He2, He1, <- app_assoc. split; [reflexivity|].
    rewrite delivered_app, fetched_app, !elem_of_app. tauto.
Qed.

Lemma perform_quiet u g o :
  u ∈ processedUrlLoads g ->
  exists new, events (perform g o) = events g ++ new
    /\ (u ∉ delivered new) /\ (u ∉ fetched new) /\ u ∈ processedUrlLoads (perform g o).
Proof.
  intros Hp. destruct o as [source inputs|sourceName url|url]; cbn [perform].
  - unfold loadSingleSource.
    destruct (run g [call_of source] _) as [g' ts] eqn:Er. cbn [fst].
    eapply run_single_quiet; [exact Hp| |exact Er]. cbn. auto.
  - exists []. rewrite app_nil_r. unfold markSourceAsRemoved.
    destruct url as [[|c url]|]; cbn; (split; [reflexivity|]);
      (split; [intros H; inversion H|]); (split; [intros H; inversion H|]);
      try assumption. now apply elem_of_union_r.
  - exists []. rewrite app_nil_r. cbn. split; [reflexivity|].
    split; [intros H; inversion H|]. split; [intros H; inversion H|].
    now apply elem_of_union_r.
Qed.

(** X25: once a URL is marked processed, as [markSourceAsRemoved] does
    with the URL of a removed source, no later operation fetches it or
    hands it to [onAddData], and it stays processed. *)
Theorem processed_urls_are_left_alone (g : state) (ops : list operation) (u : list N) :
  u ∈ processedUrlLoads g ->
  exists new, events (exec g ops) = events g ++ new
    /\ (u ∉ delivered new) /\ (u ∉ fetched new)
    /\ isSourceProcessed (exec g ops) u = true.
Proof.
  unfold exec. revert g. induction ops as [|o ops IH]; intros g Hp; cbn [fold_left].
  - exists []. rewrite app_nil_r. split; [reflexivity|].
    split; [intros H; inversion H|]. split; [intros H; inversion H|].
    now apply bool_decide_eq_true_2.
  - destruct (perform_quiet u g o Hp) as (new1 & He1 & Hd1 & Hf1 & Hp1).
    destruct (IH _ Hp1) as (new2 & He2 & Hd2 & Hf2 & Hp2).
    exists (new1 ++ new2). rewrite He2, He1, <- app_assoc. split; [reflexivity|].
    rewrite delivered_app, fetched_app, !elem_of_app. tauto.
Qed.

Lemma deliveries_app u es es' :
  deliveries u (es ++ es') = (deliveries u es + deliveries u es')%nat.
Proof. unfold deliveries. now rewrite delivered_app, List.filter_app, length_app. Qed.

Lemma pending_cons u t ts : pending u (t :: ts) = (pend u t + pending u ts)%nat.
Proof.
  unfold pending, pend. cbn [List.filter].
  destruct (bool_decide _ && _); reflexivity.
Qed.

Lemma pending_insert u ts k t t' :
  ts !! k = Some t ->
  (pending u (<[k := t']> ts) + pend u t = pending u ts + pend u t')%nat.
Proof.
  revert k. induction ts as [|x ts IH]; intros k; [discriminate|].
  destruct k as [|k]; cbn [lookup list_lookup].
  - intros [= ->]. change (<[0%nat := t']> (t :: ts)) with (t' :: ts).
    rewrite !pending_cons. lia.
  - intros H. change (<[S k := t']> (x :: ts)) with (x :: <[k := t']> ts).
    rewrite !pending_cons. specialize (IH _ H). lia.
Qed.

(** A step of a call for another URL. *)
Lemma step_other u g t i g' t' :
  t_url t <> u -> step g t i = (g', t') ->
  deliveries u (events g') = deliveries u (events g)
  /\ pend u t' = pend u t
  /\ failedUrlAt g' !! u = failedUrlAt g !! u
  /\ (u ∈ processedUrlLoads g' <-> u ∈ processedUrlLoads g).
Proof.
  intros Hne Hs.
  destruct (step_events _ _ _ _ _ Hs) as (Hurl & _ & _ & _ & _ & new & He & Hm & Hd).
  assert (Hdel : deliveries u new = 0%nat).
  { unfold deliveries. destruct Hd as [[-> _]|(-> & _)]; [reflexivity|].
    cbn. rewrite bool_decide_eq_false_2 by exact Hne. reflexivity. }
  split; [rewrite He, deliveries_app, Hdel; lia|].
  split; [unfold pend; rewrite Hurl, !bool_decide_eq_false_2 by exact Hne; reflexivity|].
  split.
  - assert (Hf : forall m now, failed_record m (t_url t) now !! u = m !! u).
    { intros m now. unfold failed_record. destruct (Js.eqb _ _); [reflexivity|].
      now rewrite lookup_insert_ne. }
    revert Hs. unfold step. destruct (at_ t).
    + now intros [= <- <-].
    + destruct (UrlCache.getCachedUrl _ _ _ _) as [db [data|]]; [now intros [= <- <-]|].
      cbn [failedUrlAt recentlyRemovedUrls].
      destruct (backing_off _ _); [|destruct (_ || _)]; now intros [= <- <-].
    + destruct (arrived i); intros [= <- <-]; cbn; auto.
    + destruct (text i); intros [= <- <-]; cbn; auto.
    + now intros [= <- <-].
    + now intros [= <- <-].
  - destruct Hd as [[_ ->]|(_ & _ & ->)]; [reflexivity|].
    rewrite elem_of_union, elem_of_singleton. split; [intros [E|H]|auto]; [|exact H].
    now destruct Hne.
Qed.

(** A step of a call for the URL, when the network serves it. *)
Lemma step_served u g t i g' t' :
  t_url t = u -> at_ t <> Start ->
  u ∉ recentlyRemovedUrls g -> t_name t ∉ recentlyRemovedUrls g ->
  failedUrlAt g !! u = None ->
  arrived i = Ok -> (exists d, text i = Json d) ->
  step g t i = (g', t') ->
  (deliveries u (events g') + pend u t' = deliveries u (events g) + pend u t)%nat
  /\ failedUrlAt g' = failedUrlAt g /\ at_ t' <> Start.
Proof.
  intros Hu Hns Hr Hn Hf Ha [d Ht]. unfold step.
  replace (t_url t) with u.
  assert (Hadd : forall data, deliveries u (events g ++ [AddData data u])
                              = S (deliveries u (events g))).
  { intros data. rewrite deliveries_app. unfold deliveries at 2. cbn.
    rewrite bool_decide_eq_true_2 by reflexivity. cbn. lia. }
  assert (Hfetch : deliveries u (events g ++ [Fetch u]) = deliveries u (events g)).
  { rewrite deliveries_app. unfold deliveries at 2. cbn. lia. }
  assert (Hpend : forall x, t_url x = u -> pend u x = if is_done x then 0%nat else 1%nat).
  { intros x Hx. unfold pend. rewrite Hx, bool_decide_eq_true_2 by reflexivity.
    now destruct (is_done x). }
  assert (Hmove : forall p, pend u (move t p) = if is_done (move t p) then 0%nat else 1%nat)
    by (intros p; now apply Hpend).
  rewrite (Hpend t Hu).
  destruct (at_ t) eqn:Eat; [now destruct Hns| | | | |].
  - assert (Hnd : is_done t = false) by (unfold is_done; now rewrite Eat).
    rewrite Hnd. destruct (UrlCache.getCachedUrl _ _ _ _) as [db [data|]].
    + intros [= <- <-]. rewrite Hmove.
      cbn [events deliver at_ move is_done failedUrlAt]. rewrite Hadd.
      split; [lia|]. split; [reflexivity|discriminate].
    + cbn [failedUrlAt recentlyRemovedUrls]. unfold failed_lookup. rewrite Hf.
      assert (Hb : forall now, backing_off
                (if bool_decide (u ∈ SearchSynonyms.object_prototype_names)
                 then Inherited else Undefined) now = false)
        by (intros now; destruct (bool_decide _); reflexivity).
      rewrite Hb, !bool_decide_eq_false_2 by assumption. cbn [orb].
      intros [= <- <-]. rewrite Hmove.
      cbn [events emit at_ move is_done failedUrlAt]. rewrite Hfetch.
      split; [lia|]. split; [reflexivity|discriminate].
  - assert (Hnd : is_done t = false) by (unfold is_done; now rewrite Eat).
    rewrite Hnd, Ha. intros [= <- <-]. rewrite Hmove.
    cbn [at_ move is_done]. split; [lia|]. split; [reflexivity|discriminate].
  - assert (Hnd : is_done t = false) by (unfold is_done; now rewrite Eat).
    rewrite Hnd, Ht. intros [= <- <-]. rewrite Hmove.
    cbn [at_ move is_done]. split; [lia|]. split; [reflexivity|discriminate].
  - assert (Hnd : is_done t = false) by (unfold is_done; now rewrite Eat).
    rewrite Hnd. intros [= <- <-]. rewrite Hmove.
    cbn [events deliver at_ move is_done failedUrlAt]. rewrite Hadd.
    split; [lia|]. split; [reflexivity|discriminate].
  - intros [= <- <-]. rewrite (Hpend t Hu).
    split; [lia|]. split; [reflexivity|]. rewrite Eat. discriminate.
Qed.

Lemma run_served u schedule :
  forall g ts g' ts',
  u ∉ recentlyRemovedUrls g ->
  (forall t, In t ts -> t_url t = u ->
     (t_name t ∉ recentlyRemovedUrls g) /\ at_ t <> Start) ->
  failedUrlAt g !! u = None ->
  served u ts schedule ->
  run g ts schedule = (g', ts') ->
  (deliveries u (events g') + pending u ts' = deliveries u (events g) + pending u ts)%nat.
Proof.
  induction schedule as [|[k i] rest IH]; intros g ts g' ts' Hr Hts Hf Hsv; cbn [run].
  - now intros [= <- <-].
  - assert (Hsv' : forall ts1, map t_url ts1 = map t_url ts -> served u ts1 rest).
    { intros ts1 Hm k' i' t1 Hin Hk Hu.
      assert (Hk' : map t_url ts1 !! k' = Some u) by (rewrite list_lookup_fmap, Hk; cbn; now rewrite Hu).
      rewrite Hm, list_lookup_fmap in Hk'.
      destruct (ts !! k') as [t0|] eqn:E0; [|discriminate]. injection Hk' as Hk'.
      apply (Hsv k' i' t0); [now right|exact E0|exact Hk']. }
    destruct (ts !! k) as [t|] eqn:Ek; [|now apply IH; [| | |apply Hsv']].
    destruct (step g t i) as [g1 t1] eqn:Es. intros Hrun.
    destruct (step_events _ _ _ _ _ Es) as (Hurl & Hname & Hrem & _).
    assert (Hin : In t ts) by (apply list_elem_of_In; eapply list_elem_of_lookup_2; eauto).
    pose proof (pending_insert u ts k t t1 Ek) as Hpi.
    assert (Hmap : map t_url (<[k := t1]> ts) = map t_url ts).
    { rewrite list_fmap_insert, Hurl. apply list_insert_id.
      now rewrite list_lookup_fmap, Ek. }
    assert (Hstep : (deliveries u (events g1) + pend u t1
                     = deliveries u (events g) + pend u t)%nat
                    /\ failedUrlAt g1 !! u = None
                    /\ (t_url t1 = u -> at_ t1 <> Start)).
    { destruct (decide (t_url t = u)) as [E|E].
      - destruct (Hts t Hin E) as [Hn Hns].
        destruct (Hsv k i t (or_introl eq_refl) Ek E) as [Ha Hd].
        destruct (step_served u _ _ _ _ _ E Hns Hr Hn Hf Ha Hd Es) as (H1 & H2 & H3).
        split; [exact H1|]. split; [now rewrite H2|auto].
      - destruct (step_other u _ _ _ _ _ E Es) as (H1 & H2 & H3 & _).
        split; [lia|]. split; [now rewrite H3|].
        intros H. rewrite Hurl in H. contradiction. }
    destruct Hstep as (Hs1 & Hs2 & Hs3).
    assert (Hts1 : forall t0, In t0 (<[k := t1]> ts) -> t_url t0 = u ->
              (t_name t0 ∉ recentlyRemovedUrls g1) /\ at_ t0 <> Start).
    { intros t0 Hin0 Hu0. rewrite Hrem. apply list_elem_of_In in Hin0.
      apply list_elem_of_lookup_1 in Hin0 as [j Hj].
      destruct (decide (j = k)) as [->|Hjk].
      - rewrite list_lookup_insert_eq in Hj by (eapply lookup_lt_Some; eauto).
        injection Hj as <-. split; [|now apply Hs3].
        rewrite Hname. apply (Hts t Hin). now rewrite <- Hurl.
      - rewrite list_lookup_insert_ne in Hj by congruence.
        apply (Hts t0); [|exact Hu0].
        apply list_elem_of_In. eapply list_elem_of_lookup_2; eauto. }
    rewrite <- Hrem in Hr.
    pose proof (IH _ _ _ _ Hr Hts1 Hs2 (Hsv' _ Hmap) Hrun) as HI. lia.
Qed.

(** X26: [loadSources] starts the calls for all its URL sources before
    any of them marks its URL processed.  When the network serves a URL
    that is not processed, not removed and has no failure on record, then
    once all calls are done the URL has been handed to [onAddData] as many
    times as the list names it: a URL listed twice is delivered twice. *)
Theorem repeated_url_is_delivered_each_time (g : state)
    (sources : list GogSourcesStoreItem) (schedule : list (nat * input))
    (u : list N) (g' : state) (calls : list thread) :
  u ∉ processedUrlLoads g -> u ∉ recentlyRemovedUrls g ->
  (forall s, In s sources -> s_url s = u -> s_name s ∉ recentlyRemovedUrls g) ->
  failedUrlAt g !! u = None ->
  (forall k i s, In (k, i) schedule ->
     List.filter is_url_source sources !! k = Some s -> s_url s = u ->
     arrived i = Ok /\ exists d, text i = Json d) ->
  loadSources g sources schedule = (g', calls) ->
  forallb is_done calls = true ->
  deliveries u (events g')
  = (deliveries u (events g)
     + length (List.filter (fun s => is_url_source s && bool_decide (s_url s = u))
                 sources))%nat.
Proof.
  intros Hp Hr Hn Hf Hsv.
  set (g1 := emit g LoadStart).
  assert (Henter : forall s, enter g1 (call_of s)
                             = mkThread (s_name s) (s_url s)
                                 (if bool_decide (s_url s ∈ processedUrlLoads g)
                                  then Done else AwaitCache)).
  { intros s. unfold enter, call_of, move. cbn. now destruct (bool_decide _). }
  assert (Hbegin : forall l,
            pending u (map (fun s => enter g1 (call_of s)) (List.filter is_url_source l))
            = length (List.filter
                        (fun s => is_url_source s && bool_decide (s_url s = u)) l)).
  { induction l as [|s ss IH]; [reflexivity|]. cbn [List.filter].
    destruct (is_url_source s) eqn:Eu; cbn [andb map]; [|exact IH].
    rewrite pending_cons, IH. unfold pend. rewrite Henter. cbn [t_url].
    destruct (decide (s_url s = u)) as [Eb|Eb].
    - rewrite !(bool_decide_eq_true_2 (s_url s = u)) by exact Eb. rewrite Eb.
      rewrite bool_decide_eq_false_2 by exact Hp. reflexivity.
    - rewrite !(bool_decide_eq_false_2 (s_url s = u)) by exact Eb. reflexivity. }
  assert (Hend : forall ts, forallb is_done ts = true -> pending u ts = 0%nat).
  { unfold pending. induction ts as [|t ts IH]; [reflexivity|]. intros Hd.
    cbn in Hd. apply andb_true_iff in Hd as [Ht Hts]. cbn [List.filter].
    rewrite Ht, andb_false_r. now apply IH. }
  unfold loadSources.
  destruct sources as [|s0 sources'] eqn:Esrc; [intros [= <- <-] _; cbn; lia|].
  rewrite <- Esrc in *. clear Esrc s0 sources'. fold g1.
  set (calls0 := map (fun s => enter g1 (call_of s)) (List.filter is_url_source sources)).
  destruct (run g1 calls0 schedule) as [g2 calls2] eqn:Er.
  intros [= <- <-] Hdone.
  assert (Hts : forall t, In t calls0 -> t_url t = u ->
            (t_name t ∉ recentlyRemovedUrls g1) /\ at_ t <> Start).
  { intros t Hin Hu. apply in_map_iff in Hin as (s & <- & Hs).
    apply filter_In in Hs as [Hs _]. rewrite Henter in *. cbn in *.
    split; [now apply Hn|]. destruct (bool_decide _); discriminate. }
  assert (Hsv1 : served u calls0 schedule).
  { intros k i t Hin Hk Hu. unfold calls0 in Hk. rewrite list_lookup_fmap in Hk.
    destruct (List.filter is_url_source sources !! k) as [s|] eqn:Es; [|discriminate].
    injection Hk as <-. rewrite Henter in Hu. cbn in Hu. eapply Hsv; eauto. }
  pose proof (run_served u schedule g1 calls0 g2 calls2 Hr Hts Hf Hsv1 Er) as Hrun.
  assert (Hg1 : deliveries u (events g1) = deliveries u (events g)).
  { unfold g1, emit. cbn [events]. rewrite deliveries_app. cbn. lia. }
  assert (Hfin : deliveries u (events (if forallb is_done calls2 then emit g2 LoadEnd else g2))
                 = deliveries u (events g2)).
  { destruct (forallb is_done calls2); [|reflexivity].
    unfold emit. cbn [events]. rewrite deliveries_app. cbn. lia. }
  rewrite Hfin. rewrite (Hend _ Hdone) in Hrun. unfold calls0 in Hrun.
  rewrite Hbegin in Hrun. lia.
Qed.

End LoaderFacts.

(** A source removed together with its URL is not loaded again. *)
Lemma processed_urls_are_left_alone_witness :
  let u := js "https://example.org/gog.json" in
  let source := mkSource (js "GOG") u url_source (js "2024-01-01") None in
  let served := SourceLoader.mkInput 0 false SourceLoader.Ok
                  (SourceLoader.Json (mkGog (js "GOG") [])) in
  let g := SourceLoader.markSourceAsRemoved (SourceLoader.initial ∅) (js "GOG") (Some u) in
  u ∈ SourceLoader.processedUrlLoads g
  /\ exists new,
       SourceLoader.events (SourceLoader.exec g [SourceLoader.Load source (fun _ => served)])
       = SourceLoader.events g ++ new
       /\ (u ∉ SourceLoader.delivered new) /\ (u ∉ SourceLoader.fetched new)
       /\ SourceLoader.isSourceProcessed
            (SourceLoader.exec g [SourceLoader.Load source (fun _ => served)]) u = true.
Proof.
  intros u source served g.
  assert (H : u ∈ SourceLoader.processedUrlLoads g)
    by (apply elem_of_union_l, elem_of_singleton; reflexivity).
  split; [exact H|].
  exact (processed_urls_are_left_alone g [SourceLoader.Load source (fun _ => served)] u H).
Defined.

(** Two sources with the same URL, loaded together from a fresh state with
    a network that serves the catalog: it is fetched twice and delivered
    twice. *)
Example repeated_url_run :
  let u := js "https://example.org/gog.json" in
  let a := mkSource (js "GOG") u url_source (js "2024-01-01") None in
  let b := mkSource (js "GOG mirror") u url_source (js "2024-01-01") None in
  let served := SourceLoader.mkInput 0 false SourceLoader.Ok
                  (SourceLoader.Json (mkGog (js "GOG") [])) in
  let schedule := flat_map (fun _ : nat => [(0%nat, served); (1%nat, served)]) (seq 0 4) in
  let g' := fst (SourceLoader.loadSources (SourceLoader.initial ∅) [a; b] schedule) in
  SourceLoader.fetched (SourceLoader.events g') = [u; u]
  /\ SourceLoader.delivered (SourceLoader.events g') = [u; u]
  /\ forallb SourceLoader.is_done
       (snd (SourceLoader.loadSources (SourceLoader.initial ∅) [a; b] schedule)) = true.
Proof. vm_compute. repeat split. Qed.

Lemma repeated_url_is_delivered_each_time_witness :
  let u := js "https://example.org/gog.json" in
  let a := mkSource (js "GOG") u url_source (js "2024-01-01") None in
  let b := mkSource (js "GOG mirror") u url_source (js "2024-01-01") None in
  let served := SourceLoader.mkInput 0 false SourceLoader.Ok
                  (SourceLoader.Json (mkGog (js "GOG") [])) in
  let schedule := flat_map (fun _ : nat => [(0%nat, served); (1%nat, served)]) (seq 0 4) in
  let r := SourceLoader.loadSources (SourceLoader.initial ∅) [a; b] schedule in
  forallb SourceLoader.is_done (snd r) = true
  /\ SourceLoader.deliveries u (SourceLoader.events (fst r))
     = (SourceLoader.deliveries u (SourceLoader.events (SourceLoader.initial ∅))
        + length (List.filter
                    (fun s => SourceLoader.is_url_source s && bool_decide (s_url s = u))
                    [a; b]))%nat.
Proof.
  intros u a b served schedule r.
  assert (Hdone : forallb SourceLoader.is_done (snd r) = true)
    by (vm_compute; reflexivity).
  split; [exact Hdone|].
  apply (repeated_url_is_delivered_each_time (SourceLoader.initial ∅) [a; b] schedule u
           (fst r) (snd r)).
  - apply not_elem_of_empty.
  - apply not_elem_of_empty.
  - intros s _ _. apply not_elem_of_empty.
  - apply lookup_empty.
  - intros k i s Hin _ _. cbn in Hin.
    repeat (destruct Hin as [[= <- <-]|Hin]; [split; [reflexivity|eexists; reflexivity]|]).
    destruct Hin.
  - apply surjective_pairing.
  - exact Hdone.
Defined.

(** ** The store of catalogs *)

Section StoreFacts.
Import DataState.
Variable U : ucd.

Lemma findIndex_spec {A} (p : A -> bool) l :
  match findIndex p l with
  | Some i => exists x, l !! i = Some x /\ p x = true
              /\ forall j y, (j < i)%nat -> l !! j = Some y -> p y = false
  | None => forall x, In x l -> p x = false
  end.
Proof.
  induction l as [|a l IH]; cbn [findIndex]; [intros x []|].
  destruct (p a) eqn:Ea.
  - exists a. split; [reflexivity|]. split; [exact Ea|]. intros j y Hj. lia.
  - destruct (findIndex p l) as [i|]; cbn [option_map].
    + destruct IH as (x & Hx & Hp & Hlt). exists x. split; [exact Hx|].
      split; [exact Hp|]. intros [|j] y Hj; cbn; [now intros [= <-]|].
      apply Hlt. lia.
    + intros x [<-|Hx]; [exact Ea|now apply IH].
Qed.

Lemma map_insert_same {A B} (f : A -> B) (l : list A) i x y :
  l !! i = Some x -> f y = f x -> map f (<[i := y]> l) = map f l.
Proof.
  intros Hl Hf. rewrite list_fmap_insert, Hf. apply list_insert_id.
  now rewrite list_lookup_fmap, Hl.
Qed.

Lemma cap_short {A} (l : list A) : (length l <= MAX_GOG_SOURCES)%nat -> cap l = l.
Proof.
  intros H. unfold cap. destruct (MAX_GOG_SOURCES <? length l)%nat eqn:E; [|reflexivity].
  apply Nat.ltb_lt in E. lia.
Qed.

Lemma cap_length {A} (l : list A) : (length (cap l) <= MAX_GOG_SOURCES)%nat.
Proof.
  unfold cap. destruct (MAX_GOG_SOURCES <? length l)%nat eqn:E.
  - rewrite length_drop. apply Nat.ltb_lt in E. lia.
  - apply Nat.ltb_ge in E. exact E.
Qed.

(** The capped list ends with the element added last and is otherwise a
    part of the list it was added to. *)
Lemma cap_snoc {A} (l : list A) x :
  exists l', cap (l ++ [x]) = l' ++ [x] /\ sublist l' l.
Proof.
  unfold cap. destruct (MAX_GOG_SOURCES <? length (l ++ [x]))%nat eqn:E.
  - rewrite length_app in *. cbn [length] in *. apply Nat.ltb_lt in E.
    exists (drop (length l + 1 - MAX_GOG_SOURCES) l). split.
    + rewrite drop_app_le by (unfold MAX_GOG_SOURCES in *; lia). reflexivity.
    + apply sublist_drop.
  - exists l. split; reflexivity.
Qed.

Lemma put_shape gogData p :
  exists l', put gogData p = l' ++ [p]
    /\ sublist l' (List.filter (fun g => negb (Js.eqb (name g) (name p))) gogData)
    /\ (length (l' ++ [p]) <= MAX_GOG_SOURCES)%nat.
Proof.
  unfold put. destruct (cap_snoc (List.filter (fun g => negb (Js.eqb (name g) (name p))) gogData) p)
    as (l' & E & Hs).
  exists l'. split; [exact E|]. split; [exact Hs|]. rewrite <- E. apply cap_length.
Qed.

(** Putting the same catalog twice is putting it once. *)
Lemma put_twice gogData p : put (put gogData p) p = put gogData p.
Proof.
  destruct (put_shape gogData p) as (l' & E & Hs & Hlen). rewrite E.
  unfold put. rewrite List.filter_app. cbn [List.filter].
  unfold Js.eqb at 2. rewrite bool_decide_eq_true_2 by reflexivity. cbn [negb].
  rewrite app_nil_r.
  assert (Hf : List.filter (fun g => negb (Js.eqb (name g) (name p))) l' = l').
  { apply forallb_filter_id. apply forallb_forall. intros g Hg.
    apply list_elem_of_In in Hg. apply (elem_of_sublist _ _ _ Hg) in Hs as Hg2. clear Hg. rename Hg2 into Hg.
    apply list_elem_of_In, filter_In in Hg. tauto. }
  rewrite Hf. now apply cap_short.
Qed.

Lemma addGogData_url (st : store) (t : jsstring) (data : GogData) (url : jsstring) :
  url <> [] -> name data ∉ uploadInProgress st ->
  addGogData U st t data (Some url)
  = mkStore (put (gogData st) (pruned U data (Some url)))
      (match findIndex (fun s => Js.eqb (s_url s) url) (savedSources st) with
       | None => savedSources st ++ [mkSource (name data) url url_source t None]
       | Some idx => <[idx := mkSource (name data) url url_source t None]> (savedSources st)
       end)
      (uploadInProgress st).
Proof.
  intros Hurl Hnp. unfold addGogData. rewrite bool_decide_eq_false_2 by exact Hnp.
  destruct url as [|c url']; [now destruct Hurl|]. reflexivity.
Qed.

(** X27: handing the same URL catalog to [addGogData] twice, as happens
    when its URL is delivered twice, leaves the store as handing it over
    once does: the same catalogs in the same order, the same saved sources
    but for the time stamp of the entry of that URL, and no upload in
    progress that was not there before. *)
Theorem url_catalog_added_twice (st : store) (t1 t2 : jsstring) (data : GogData)
    (url : jsstring) :
  url <> [] -> name data ∉ uploadInProgress st ->
  let st1 := addGogData U st t1 data (Some url) in
  let st2 := addGogData U st1 t2 data (Some url) in
  gogData st2 = gogData st1
  /\ map untimed (savedSources st2) = map untimed (savedSources st1)
  /\ uploadInProgress st2 = uploadInProgress st
  /\ exists s, In s (savedSources st1) /\ untimed s = (name data, url, url_source, None).
Proof.
  intros Hurl Hnp. cbv zeta.
  rewrite (addGogData_url st t1 data url Hurl Hnp).
  set (p := pruned U data (Some url)).
  set (S1 := match findIndex _ (savedSources st) with
             | Some idx => _ | None => _ end).
  rewrite addGogData_url by assumption.
  cbn [uploadInProgress gogData savedSources]. fold p.
  split; [apply put_twice|]. split; [|split; [reflexivity|]].
  - pose proof (findIndex_spec (fun s => Js.eqb (s_url s) url) (savedSources st)) as H0.
    pose proof (findIndex_spec (fun s => Js.eqb (s_url s) url) S1) as H1.
    subst S1. destruct (findIndex _ (savedSources st)) as [i|] eqn:E0.
    + destruct H0 as (x & Hx & Hpx & Hlt).
      assert (Hi : (i < length (savedSources st))%nat) by (eapply lookup_lt_Some; eauto).
      destruct (findIndex _ (<[i := _]> (savedSources st))) as [j|] eqn:E1.
      * destruct H1 as (y & Hy & Hpy & Hlt1).
        assert (j = i).
        { destruct (Nat.lt_trichotomy j i) as [H|[H|H]]; [|exact H|].
          - rewrite list_lookup_insert_ne in Hy by lia.
            rewrite (Hlt j y H Hy) in Hpy. discriminate.
          - specialize (Hlt1 i _ H (list_lookup_insert_eq _ _ _ Hi)).
            cbn in Hlt1. unfold Js.eqb in Hlt1.
            rewrite bool_decide_eq_true_2 in Hlt1 by reflexivity. discriminate. }
        subst j. rewrite list_insert_insert_eq.
        rewrite !list_fmap_insert. reflexivity.
      * exfalso. specialize (H1 _ (proj1 (list_elem_of_In _ _)
                                      (list_elem_of_lookup_2 _ _ _
                                         (list_lookup_insert_eq _ _ _ Hi)))).
        cbn in H1. unfold Js.eqb in H1.
        rewrite bool_decide_eq_true_2 in H1 by reflexivity. discriminate.
    + destruct (findIndex _ (savedSources st ++ _)) as [j|] eqn:E1.
      * destruct H1 as (y & Hy & Hpy & Hlt1).
        assert (j = length (savedSources st)).
        { destruct (Nat.lt_trichotomy j (length (savedSources st))) as [H|[H|H]];
            [|exact H|].
          - rewrite lookup_app_l in Hy by exact H.
            rewrite (H0 y) in Hpy; [discriminate|].
            apply list_elem_of_In. eapply list_elem_of_lookup_2; eauto.
          - apply lookup_lt_Some in Hy. rewrite length_app in Hy. cbn in Hy. lia. }
        subst j. rewrite list_fmap_insert, !fmap_app.
        rewrite insert_app_r_alt by (rewrite length_fmap; lia).
        rewrite length_fmap, Nat.sub_diag. reflexivity.
      * exfalso. specialize (H1 (mkSource (name data) url url_source t1 None)).
        cbn in H1. unfold Js.eqb in H1.
        rewrite bool_decide_eq_true_2 in H1 by reflexivity.
        assert (true = false); [|discriminate]. apply H1. apply in_or_app. right. now left.
  - exists (mkSource (name data) url url_source t1 None). split; [|reflexivity].
    subst S1. pose proof (findIndex_spec (fun s => Js.eqb (s_url s) url) (savedSources st)) as H0.
    destruct (findIndex _ (savedSources st)) as [i|].
    + destruct H0 as (x & Hx & _). apply list_elem_of_In.
      eapply list_elem_of_lookup_2. apply list_lookup_insert_eq.
      eapply lookup_lt_Some; eauto.
    + apply in_or_app. right. now left.
Qed.

Lemma insert_In {A} (l : list A) i x y : In y (<[i := x]> l) -> y = x \/ In y l.
Proof.
  intros H. apply list_elem_of_In, list_elem_of_lookup_1 in H as [j Hj].
  destruct (decide (j = i)) as [->|Hne].
  - destruct (decide (i < length l)%nat) as [Hi|Hi].
    + rewrite list_lookup_insert_eq in Hj by exact Hi. injection Hj as <-. now left.
    + rewrite list_insert_ge in Hj by lia. right.
      apply list_elem_of_In. eapply list_elem_of_lookup_2; eauto.
  - rewrite list_lookup_insert_ne in Hj by congruence. right.
    apply list_elem_of_In. eapply list_elem_of_lookup_2; eauto.
Qed.

Lemma NoDup_map_filter {A B} (f : A -> B) (p : A -> bool) l :
  NoDup (map f l) -> NoDup (map f (List.filter p l)).
Proof.
  induction l as [|a l IH]; cbn [map List.filter]; [auto|].
  intros H. apply NoDup_cons in H as [Hn Hd]. destruct (p a); [|auto].
  cbn [map]. apply NoDup_cons. split; [|auto].
  intros Hin. apply Hn. apply list_elem_of_In, in_map_iff in Hin as (x & <- & Hx).
  apply filter_In in Hx as [Hx _]. apply list_elem_of_In, in_map_iff. eauto.
Qed.

(** Replacing or appending the entry of a key keeps the saved sources in
    order, when the entry found has the key of the new one and no entry has
    it if none was found. *)
Lemma saved_ok_update (p : GogSourcesStoreItem -> bool) l meta :
  saved_ok l ->
  (s_type meta = file_source -> s_url meta = []) ->
  (forall s, In s l -> p s = true -> source_key s = source_key meta) ->
  (forall s, In s l -> source_key s = source_key meta -> p s = true) ->
  saved_ok (match findIndex p l with
            | None => l ++ [meta]
            | Some idx => <[idx := meta]> l
            end).
Proof.
  intros [Hnd Hfile] Hmeta Hkey Hfind.
  pose proof (findIndex_spec p l) as Hspec.
  destruct (findIndex p l) as [i|].
  - destruct Hspec as (x & Hx & Hpx & _).
    assert (Hin : In x l) by (apply list_elem_of_In; eapply list_elem_of_lookup_2; eauto).
    split.
    + rewrite (map_insert_same source_key l i x meta Hx); [exact Hnd|].
      symmetry. now apply Hkey.
    + intros s Hs. apply insert_In in Hs as [->|Hs]; [exact Hmeta|now apply Hfile].
  - split.
    + rewrite map_app. cbn [map]. apply NoDup_app. split; [exact Hnd|].
      split; [|apply NoDup_singleton].
      intros k Hk Hk'. apply list_elem_of_singleton in Hk'. subst k.
      apply list_elem_of_In, in_map_iff in Hk as (s & Hs & Hin).
      specialize (Hfind s Hin Hs). rewrite (Hspec s Hin) in Hfind. discriminate.
    + intros s Hs. apply in_app_or in Hs as [Hs|[<-|[]]]; [now apply Hfile|exact Hmeta].
Qed.

Lemma perform_saved_ok st o : saved_ok (savedSources st) -> saved_ok (savedSources (perform U st o)).
Proof.
  intros Hok. destruct o as [t data sourceUrl|n id|n|data]; cbn [perform].
  - unfold addGogData. destruct (bool_decide _); [exact Hok|].
    destruct Hok as [Hnd Hfile].
    destruct sourceUrl as [[|c url]|]; cbn [savedSources].
    + apply saved_ok_update; [now split|reflexivity| |].
      * intros s _ Hp. apply andb_true_iff in Hp as [Hn Ht].
        unfold Js.eqb in Hn. apply bool_decide_eq_true_1 in Hn.
        unfold source_key. destruct (s_type s); [|discriminate]. cbn. now rewrite Hn.
      * intros s _ Hk. unfold source_key in Hk. cbn in Hk.
        destruct (s_type s); [|discriminate]. injection Hk as Hk.
        unfold Js.eqb. now rewrite bool_decide_eq_true_2.
    + apply saved_ok_update; [now split|discriminate| |].
      * intros s Hin Hp. unfold Js.eqb in Hp. apply bool_decide_eq_true_1 in Hp.
        unfold source_key. cbn. destruct (s_type s) eqn:Et.
        -- rewrite (Hfile s Hin Et) in Hp. discriminate.
        -- now rewrite Hp.
      * intros s _ Hk. unfold source_key in Hk. cbn in Hk.
        destruct (s_type s); [discriminate|]. injection Hk as Hk.
        unfold Js.eqb. now rewrite bool_decide_eq_true_2.
    + apply saved_ok_update; [now split|reflexivity| |].
      * intros s _ Hp. apply andb_true_iff in Hp as [Hn Ht].
        unfold Js.eqb in Hn. apply bool_decide_eq_true_1 in Hn.
        unfold source_key. destruct (s_type s); [|discriminate]. cbn. now rewrite Hn.
      * intros s _ Hk. unfold source_key in Hk. cbn in Hk.
        destruct (s_type s); [|discriminate]. injection Hk as Hk.
        unfold Js.eqb. now rewrite bool_decide_eq_true_2.
  - destruct Hok as [Hnd Hfile]. unfold upload_settled. cbn [savedSources].
    destruct id as [id|]; [|now split]. split.
    + rewrite map_map. erewrite map_ext; [exact Hnd|].
      intros s. now destruct (Js.eqb _ _).
    + intros s Hs Ht. apply in_map_iff in Hs as (s0 & <- & Hs0).
      destruct (Js.eqb _ _); cbn in *; now apply Hfile.
  - destruct Hok as [Hnd Hfile]. unfold removeSource. cbn [savedSources]. split.
    + now apply NoDup_map_filter.
    + intros s Hs. apply filter_In in Hs as [Hs _]. now apply Hfile.
  - unfold loadSavedSource. now destruct data.
Qed.

(** X28: however catalogs are added, uploads settle, and sources are
    removed or reloaded, starting from the empty store no two saved
    sources of type [url] have the same URL, no two of type [file] have
    the same name, and a saved source of type [file] has no URL. *)
Theorem saved_sources_stay_distinct (ops : list operation) :
  let saved := savedSources (exec U empty ops) in
  NoDup (map source_key saved)
  /\ forall s, In s saved -> s_type s = file_source -> s_url s = [].
Proof.
  cbv zeta. change (saved_ok (savedSources (exec U empty ops))).
  assert (H0 : saved_ok (savedSources empty)) by (split; [constructor|intros s []]).
  unfold exec. revert H0. generalize empty.
  induction ops as [|o ops IH]; intros st Hst; [exact Hst|].
  cbn [fold_left]. apply IH. now apply perform_saved_ok.
Qed.

End StoreFacts.

Lemma url_catalog_added_twice_witness :
  let data := mkGog (js "GOG") [SearchInstance.record "Doom" "GOG" "2020-01-01"] in
  let url := js "https://example.org/gog.json" in
  let st1 := DataState.addGogData Excerpt.db DataState.empty (js "2024-01-01T00:00:00.000Z")
               data (Some url) in
  let st2 := DataState.addGogData Excerpt.db st1 (js "2024-01-02T00:00:00.000Z")
               data (Some url) in
  url <> [] /\ (name data ∉ DataState.uploadInProgress DataState.empty)
  /\ DataState.gogData st2 = DataState.gogData st1.
Proof.
  intros data url st1 st2.
  assert (H1 : url <> []) by discriminate.
  assert (H2 : name data ∉ DataState.uploadInProgress DataState.empty)
    by apply not_elem_of_empty.
  split; [exact H1|]. split; [exact H2|].
  exact (proj1 (url_catalog_added_twice Excerpt.db DataState.empty
                  (js "2024-01-01T00:00:00.000Z") (js "2024-01-02T00:00:00.000Z")
                  data url H1 H2)).
Defined.

(** What the store makes of a record that came from a URL and of the same
    record that came from a file. *)
Example ingestion_differs :
  let dl := SearchInstance.record "Half–Life" "GOG" "2020-01-01" in
  let data := mkGog (js "GOG") [dl] in
  map titleNormalized
    (downloads (DataState.pruned Excerpt.db data (Some (js "https://example.org/gog.json"))))
  = [Some (js "half life")]
  /\ map titleNormalized (downloads (DataState.pruned Excerpt.db data None))
     = [Some (js "halflife")].
Proof. vm_compute. split; reflexivity. Qed.

(** ** The helpers of [lib/types] *)

Example types_extract_example :
  TypesHelpers.extractExactPhrases
    (js "mods " ++ [SearchPhrases.DQ] ++ js " Skyrim SE " ++ [SearchPhrases.DQ]
     ++ js " hd " ++ [SearchPhrases.DQ] ++ js "open")
  = ([js "Skyrim SE"], js "mods  hd " ++ [SearchPhrases.DQ] ++ js "open").
Proof. vm_compute. reflexivity. Qed.

Section TypesFacts.
Import SearchSynonyms TypesHelpers.
Local Open Scope N_scope.

Lemma quotes_app a b : quotes (a ++ b) = (quotes a + quotes b)%nat.
Proof. unfold quotes. now rewrite List.filter_app, length_app. Qed.

Lemma quotes_rev a : quotes (rev a) = quotes a.
Proof.
  induction a as [|c a IH]; [reflexivity|]. cbn [rev]. rewrite quotes_app, IH.
  unfold quotes. cbn [List.filter]. destruct (c =? SearchPhrases.DQ)%N; cbn; lia.
Qed.

Lemma quotes_cons c a :
  quotes (c :: a) = ((if (c =? SearchPhrases.DQ)%N then 1 else 0) + quotes a)%nat.
Proof. unfold quotes. cbn [List.filter]. now destruct (c =? SearchPhrases.DQ)%N. Qed.

Lemma space_is_no_quote c : is_space c = true -> (c =? SearchPhrases.DQ)%N = false.
Proof.
  intros H. apply N.eqb_neq. intros ->. vm_compute in H. discriminate.
Qed.

Lemma quotes_trim_start a : quotes (trim_start a) = quotes a.
Proof.
  induction a as [|c a IH]; [reflexivity|]. cbn [trim_start].
  destruct (is_space c) eqn:E; [|reflexivity].
  now rewrite IH, quotes_cons, (space_is_no_quote c E).
Qed.

Lemma quotes_trim_end a : quotes (trim_end a) = quotes a.
Proof.
  induction a as [|c a IH]; [reflexivity|]. cbn [trim_end].
  rewrite quotes_cons, <- IH. destruct (trim_end a) as [|d r].
  - destruct (is_space c) eqn:E.
    + now rewrite (space_is_no_quote c E).
    + now rewrite quotes_cons.
  - now rewrite (quotes_cons c).
Qed.

Lemma quotes_trim a : quotes (trim a) = quotes a.
Proof. unfold trim. now rewrite quotes_trim_end, quotes_trim_start. Qed.

(** Quotes are removed in pairs. *)
Lemma strip_quoted_quotes s :
  quotes (strip_quoted None s) = Nat.b2n (Nat.odd (quotes s))
  /\ forall p, quotes p = 1%nat ->
       quotes (strip_quoted (Some p) s) = Nat.b2n (Nat.even (quotes s)).
Proof.
  induction s as [|c r [IHn IHs]]; cbn [strip_quoted].
  - split; [reflexivity|]. intros p Hp. now rewrite quotes_rev, Hp.
  - rewrite (quotes_cons c r). destruct (c =? SearchPhrases.DQ)%N eqn:E.
    + change (1 + quotes r)%nat with (S (quotes r)).
      rewrite Nat.odd_succ, Nat.even_succ. split.
      * apply IHs. now rewrite quotes_cons, E.
      * intros p _. exact IHn.
    + cbn [Nat.add]. split.
      * now rewrite quotes_cons, E.
      * intros p Hp. apply IHs. now rewrite quotes_cons, E.
Qed.

Lemma phrase_scan_facts s :
  forall inside p,
  match inside with Some body => quotes body = 0%nat | None => True end ->
  In p (phrase_scan inside s) -> quotes p = 0%nat /\ trim p = p.
Proof.
  induction s as [|c r IH]; intros inside p Hin; cbn [phrase_scan]; [intros []|].
  destruct (c =? SearchPhrases.DQ)%N eqn:E.
  - destruct inside as [[|b body]|].
    + apply IH. reflexivity.
    + intros [<-|H]; [|now apply (IH None)].
      split; [now rewrite quotes_trim, quotes_rev|apply trim_idempotent].
    + apply IH. reflexivity.
  - destruct inside as [body|]; [|now apply IH].
    apply IH. now rewrite quotes_cons, E.
Qed.

Lemma phrase_scan_no_quotes s :
  quotes s = 0%nat -> forall inside, phrase_scan inside s = [].
Proof.
  induction s as [|c r IH]; intros Hq inside; [reflexivity|]. cbn [phrase_scan].
  rewrite quotes_cons in Hq. destruct (c =? SearchPhrases.DQ)%N; [discriminate|].
  destruct inside; now apply IH.
Qed.

Lemma strip_quoted_no_quotes s : quotes s = 0%nat -> strip_quoted None s = s.
Proof.
  induction s as [|c r IH]; intros Hq; [reflexivity|]. cbn [strip_quoted].
  rewrite quotes_cons in Hq. destruct (c =? SearchPhrases.DQ)%N; [discriminate|].
  now rewrite IH.
Qed.

(** X30: the helper of [lib/types] removes the double quotes of a query
    in pairs: one quote is left in the remaining query exactly when the
    query has an odd number of them.  Every phrase it extracts is trimmed
    and free of quotes, and a query without a quote gives no phrase and
    remains whole, trimmed. *)
Theorem types_phrases_pair_the_quotes (query : jsstring) :
  quotes (snd (extractExactPhrases query)) = Nat.b2n (Nat.odd (quotes query))
  /\ (forall p, In p (fst (extractExactPhrases query)) ->
        quotes p = 0%nat /\ trim p = p)
  /\ (quotes query = 0%nat -> extractExactPhrases query = ([], trim query)).
Proof.
  unfold extractExactPhrases. cbn [fst snd]. split; [|split].
  - rewrite quotes_trim. apply strip_quoted_quotes.
  - intros p. now apply phrase_scan_facts.
  - intros Hq. now rewrite phrase_scan_no_quotes, strip_quoted_no_quotes.
Qed.

Variable U : ucd.

Lemma own_property_In term tbl syns :
  own_property term tbl = Some syns -> In (term, syns) tbl.
Proof.
  induction tbl as [|[k v] tbl IH]; cbn [own_property]; [discriminate|].
  unfold Js.eqb. case_bool_decide as E.
  - intros [= <-]. subst k. now left.
  - intros H. right. now apply IH.
Qed.

Lemma types_expand_loop terms :
  forall s,
  (expand_loop U s terms = None <-> exists t, In t terms /\ property_of U t = Inherited)
  /\ forall out, expand_loop U s terms = Some out ->
       (NoDup s -> NoDup out)
       /\ (forall w, w ∈ s -> w ∈ out)
       /\ (forall w, w ∈ out ->
             w ∈ s \/ exists key syns, In (key, syns) SYNONYMS_MAP /\ w ∈ syns).
Proof.
  induction terms as [|term r IH]; intros s; cbn [expand_loop].
  - split; [split; [discriminate|intros (t & [] & _)]|].
    intros out [= <-]. auto.
  - destruct (property_of U term) as [syns| |] eqn:Ep.
    + assert (Hin : exists key, In (key, syns) SYNONYMS_MAP).
      { unfold property_of in Ep.
        destruct (own_property _ SYNONYMS_MAP) as [syns'|] eqn:Eo.
        - injection Ep as ->. apply own_property_In in Eo. eauto.
        - destruct (bool_decide _); discriminate. }
      destruct Hin as [key Hkey].
      destruct (IH (set_add_all s syns)) as [Hn Hs]. split.
      * rewrite Hn. split.
        -- intros (t & Ht & Hp). exists t. split; [now right|exact Hp].
        -- intros (t & [<-|Ht] & Hp); [congruence|eauto].
      * intros out Ho. destruct (Hs out Ho) as (H1 & H2 & H3). split; [|split].
        -- intros Hnd. now apply H1, set_add_all_NoDup.
        -- intros w Hw. apply H2, set_add_all_elem. now left.
        -- intros w Hw. destruct (H3 w Hw) as [Hw'|Hw']; [|now right].
           apply set_add_all_elem in Hw' as [Hw'|Hw']; [now left|right]. eauto.
    + split; [|discriminate]. split; [|reflexivity]. intros _. exists term.
      split; [now left|exact Ep].
    + destruct (IH s) as [Hn Hs]. split; [|exact Hs]. rewrite Hn. split.
      * intros (t & Ht & Hp). exists t. split; [now right|exact Hp].
      * intros (t & [<-|Ht] & Hp); [congruence|eauto].
Qed.

(** X29: the expansion exported by [lib/types] throws exactly when the
    lower-cased form of one of the terms names a property that the table
    inherits from [Object.prototype].  Otherwise its result has no
    duplicates, contains every term, and whatever else it contains is a
    synonym listed in the table; an empty list of terms stays empty. *)
Theorem types_expansion_extends_the_terms (terms : list jsstring) :
  (expandSearchTermsWithSynonyms U terms = None
   <-> exists t, In t terms /\ property_of U t = Inherited)
  /\ (forall out, expandSearchTermsWithSynonyms U terms = Some out ->
        NoDup out
        /\ (forall t, In t terms -> In t out)
        /\ (forall w, In w out ->
              In w terms \/ exists key syns, In (key, syns) SYNONYMS_MAP /\ In w syns))
  /\ expandSearchTermsWithSynonyms U [] = Some [].
Proof.
  unfold expandSearchTermsWithSynonyms.
  destruct (types_expand_loop terms (set_add_all [] terms)) as [Hn Hs].
  split; [exact Hn|]. split; [|reflexivity].
  intros out Ho. destruct (Hs out Ho) as (H1 & H2 & H3). split; [|split].
  - apply H1, set_add_all_NoDup. constructor.
  - intros t Ht. apply list_elem_of_In, H2, set_add_all_elem. right.
    now apply list_elem_of_In.
  - intros w Hw. apply list_elem_of_In in Hw. destruct (H3 w Hw) as [Hw'|(k & v & Hk & Hv)].
    + apply set_add_all_elem in Hw' as [Hw'|Hw']; [inversion Hw'|].
      left. now apply list_elem_of_In.
    + right. exists k, v. split; [exact Hk|now apply list_elem_of_In].
Qed.

End TypesFacts.

Example types_expand_constructor_throws :
  TypesHelpers.expandSearchTermsWithSynonyms Excerpt.db [js "Constructor"] = None
  /\ TypesHelpers.expandSearchTermsWithSynonyms Excerpt.db [js "Skyrim"; js "mod"]
     = Some (map js ["Skyrim"; "mod"; "elder scrolls"; "tes 5"; "tesv";
                     "the elder scrolls v"; "modification"; "modpack"; "addon"]).
Proof. vm_compute. split; reflexivity. Qed.
